(** * issueify: the issue store, the auto-labeler, listing, closing,
      exporting and the push to GitHub of [main.go], as a shallow embedding.

    Strings are Go strings: sequences of bytes ([string] of [ascii]); Go's
    [int] is the 64-bit signed integer, a [Z] with its wrap-around written
    out; a slice is a [list]; [map[string]bool] is a [gmap string bool];
    the file system, the [gh] helper, the environment and the GitHub API
    are explicit inputs of the commands, and what a command does to them is
    recorded in an explicit state. The database file is JSON: what
    [encoding/json] does to a string on its way to the file and back is
    written out in [Json.coerce]. *)

From Stdlib Require Import Ascii.
From stdpp Require Import base numbers option list strings gmap sorting.

Local Open Scope Z_scope.

(** ** Go's [int] *)

Module GoInt.

Definition maxInt : Z := 9223372036854775807.
Definition minInt : Z := -9223372036854775808.

Definition inRange (z : Z) : Prop := minInt ≤ z ≤ maxInt.

(** The value an [int] expression has after overflow: two's complement
    wrap-around on 64 bits. *)
Definition wrap (z : Z) : Z :=
  (z - minInt) `mod` 18446744073709551616 + minInt.

(** [a + b] on [int]. *)
Definition add (a b : Z) : Z := wrap (a + b).

End GoInt.

(** ** Data structures *)

(** [time.Time], as the instant it denotes (nanoseconds since the epoch).
    The instants are those [encoding/json] can write, with a year of four
    digits: [json.MarshalIndent] of a slice of issues fails on no other
    ground. *)
Definition Time : Type := Z.

(** [type Issue struct]. *)
Record Issue : Type := mkIssue {
  ID : Z;
  Title : string;
  Status : string;
  Labels : list string;
  CreatedAt : Time
}.

Global Instance Issue_eq_dec : EqDecision Issue.
Proof. solve_decision. Defined.

Definition dbFileName : string := ".issue_tracker.json".
Definition statusOpen : string := "open".
Definition statusClosed : string := "closed".

(** ** The regular expressions of the label patterns

    Every pattern of [defaultLabelPatterns] has the shape
    [(?i)^(w1|...|wn):]. A [regex] value [r] stands for the Go pattern
    [(?i)^r]: anchored at the start of the text, literals compared under
    Unicode simple case folding, which is what the flag [i] means to Go's
    [regexp] package. *)

Inductive regex : Type :=
  | Lit (s : string)
  | Alt (r1 r2 : regex)
  | Cat (r1 r2 : regex).

Module Fold.

Definition isUpper (c : ascii) : bool :=
  let n := nat_of_ascii c in (65 <=? n)%nat && (n <=? 90)%nat.
Definition isLower (c : ascii) : bool :=
  let n := nat_of_ascii c in (97 <=? n)%nat && (n <=? 122)%nat.

Definition toUpper (c : ascii) : ascii :=
  if isLower c then ascii_of_nat (nat_of_ascii c - 32) else c.
Definition toLower (c : ascii) : ascii :=
  if isUpper c then ascii_of_nat (nat_of_ascii c + 32) else c.

Definition byte (n : nat) : ascii := ascii_of_nat n.

(** U+017F LATIN SMALL LETTER LONG S, in UTF-8. It folds to [s]. *)
Definition longS : string := String (byte 197) (String (byte 191) "").
(** U+212A KELVIN SIGN, in UTF-8. It folds to [k]. *)
Definition kelvin : string :=
  String (byte 226) (String (byte 132) (String (byte 170) "")).

(** The runes that are equal to the ASCII rune [c] under simple case
    folding, each in its UTF-8 encoding. *)
Definition orbit (c : ascii) : list string :=
  if isUpper c || isLower c then
    [String (toUpper c) ""; String (toLower c) ""]
    ++ (if Ascii.eqb (toUpper c) "S" then [longS] else [])
    ++ (if Ascii.eqb (toUpper c) "K" then [kelvin] else [])
  else [String c ""].

(** [stripPrefix p s]: the rest of [s] after its prefix [p]. *)
Fixpoint stripPrefix (p s : string) : option string :=
  match p, s with
  | EmptyString, _ => Some s
  | String a p', String b s' =>
      if Ascii.eqb a b then stripPrefix p' s' else None
  | String _ _, EmptyString => None
  end.

(** The first encoding of the list that [s] starts with, stripped. *)
Fixpoint stripAny (es : list string) (s : string) : option string :=
  match es with
  | [] => None
  | e :: es' =>
      match stripPrefix e s with
      | Some rest => Some rest
      | None => stripAny es' s
      end
  end.

(** The literal [pat] at the start of [s], up to case folding; the
    result is what follows it. *)
Fixpoint lit (pat s : string) : option string :=
  match pat with
  | EmptyString => Some s
  | String c pat' =>
      match stripAny (orbit c) s with
      | Some rest => lit pat' rest
      | None => None
      end
  end.

End Fold.

(** All the ways [r] matches at the start of [s], each as the text left
    after the match. *)
Fixpoint matchPrefix (r : regex) (s : string) : list string :=
  match r with
  | Lit p => option_list (Fold.lit p s)
  | Alt r1 r2 => matchPrefix r1 s ++ matchPrefix r2 s
  | Cat r1 r2 => s' ← matchPrefix r1 s; matchPrefix r2 s'
  end.

(** [Regexp.MatchString], for a pattern read as above. *)
Definition MatchString (r : regex) (s : string) : bool :=
  match matchPrefix r s with
  | [] => false
  | _ :: _ => true
  end.

(** [type LabelPattern struct]. *)
Record LabelPattern : Type := mkLabelPattern {
  Pattern : regex;
  Label : string
}.

(** The Go pattern [(?i)^(w1|...|wn):]. *)
Fixpoint oneOf (w : string) (ws : list string) : regex :=
  match ws with
  | [] => Lit w
  | w' :: ws' => Alt (Lit w) (oneOf w' ws')
  end.
Definition prefixRule (w : string) (ws : list string) : regex :=
  Cat (oneOf w ws) (Lit ":").

Definition defaultLabelPatterns : list LabelPattern :=
  [ mkLabelPattern (prefixRule "BUG" ["FIX"; "BUGFIX"]) "bug";
    mkLabelPattern (prefixRule "FEAT" ["FEATURE"]) "feature";
    mkLabelPattern (prefixRule "DOCS" ["DOCUMENTATION"]) "documentation";
    mkLabelPattern (prefixRule "REFACTOR" []) "refactor";
    mkLabelPattern (prefixRule "TEST" ["TESTS"]) "testing";
    mkLabelPattern (prefixRule "CHORE" []) "chore" ].

(** ** [sort.Strings]

    Go compares strings byte by byte, which is [String.le]. The sorted
    arrangement of a slice of strings is unique (see [sortStrings_unique]
    below), so which algorithm computes it cannot be observed. *)
Definition sortStrings (l : list string) : list string :=
  merge_sort String.le l.

(** ** [autoLabel] *)

(** Reading [labelSet[l]]: a key that is absent reads as [false]. *)
Definition labelSetGet (labelSet : gmap string bool) (l : string) : bool :=
  default false (labelSet !! l).

(** The first loop: [labelSet[l] = true] for every label of the issue. *)
Definition labelSetOf (labels : list string) : gmap string bool :=
  foldl (λ labelSet l, <[l := true]> labelSet) ∅ labels.

(** The second loop, over the patterns; the state is [issue.Labels] and
    [labelSet]. *)
Fixpoint labelLoop (title : string) (pats : list LabelPattern)
    (labels : list string) (labelSet : gmap string bool)
    : list string * gmap string bool :=
  match pats with
  | [] => (labels, labelSet)
  | lp :: pats' =>
      if MatchString (Pattern lp) title then
        if negb (labelSetGet labelSet (Label lp)) then
          labelLoop title pats' (labels ++ [Label lp])
                    (<[Label lp := true]> labelSet)
        else labelLoop title pats' labels labelSet
      else labelLoop title pats' labels labelSet
  end.

Definition autoLabel (issue : Issue) : Issue :=
  let labelSet := labelSetOf (Labels issue) in
  let labels :=
    (labelLoop (Title issue) defaultLabelPatterns (Labels issue) labelSet).1 in
  mkIssue (ID issue) (Title issue) (Status issue) (sortStrings labels)
          (CreatedAt issue).

(** The labels of the patterns that match [title]. *)
Definition matching (title : string) (pats : list LabelPattern)
    : list string :=
  Label <$> List.filter (λ lp, MatchString (Pattern lp) title) pats.

(** The table of the rules as the documentation gives it: the prefix
    tokens and the label they stand for. *)
Definition ruleTable : list (list string * string) :=
  [ (["BUG"; "FIX"; "BUGFIX"], "bug");
    (["FEAT"; "FEATURE"], "feature");
    (["DOCS"; "DOCUMENTATION"], "documentation");
    (["REFACTOR"], "refactor");
    (["TEST"; "TESTS"], "testing");
    (["CHORE"], "chore") ].

(** [s] starts with [p], ASCII letters compared without regard to case. *)
Fixpoint hasPrefixNoCase (p s : string) : bool :=
  match p, s with
  | EmptyString, _ => true
  | String a p', String b s' =>
      Ascii.eqb (Fold.toUpper a) (Fold.toUpper b) && hasPrefixNoCase p' s'
  | String _ _, EmptyString => false
  end.

(** [s] starts with [p] up to simple case folding: what the flag [i]
    and the anchor make of a literal. *)
Definition hasPrefixFold (p s : string) : Prop := is_Some (Fold.lit p s).

(** Every byte of [s] is below 128. *)
Fixpoint isASCII (s : string) : bool :=
  match s with
  | EmptyString => true
  | String b s' => (nat_of_ascii b <? 128)%nat && isASCII s'
  end.

(** ** The strings of the database file

    [encoding/json] writes and reads a Go string as valid UTF-8: where the
    bytes do not start a well-formed encoding, [utf8.DecodeRuneInString]
    yields [RuneError] with the width 1, and the byte is replaced by
    U+FFFD, the replacement character. [json.MarshalIndent] does so for
    every string it writes and [json.Unmarshal] for every string it reads.
    Nothing else of an issue changes on its way to the file and back. *)

Module Utf8.

Definition between (lo hi : nat) (b : ascii) : bool :=
  let n := nat_of_ascii b in (lo <=? n)%nat && (n <=? hi)%nat.

(** A continuation byte: 0x80 to 0xBF. *)
Definition continuation (b : ascii) : bool := between 128 191 b.

(** What the second byte may be after the first byte [b0] (the table
    [acceptRanges]): the ranges that rule out overlong encodings,
    surrogates and code points above U+10FFFF. *)
Definition second (b0 b1 : ascii) : bool :=
  match nat_of_ascii b0 with
  | 224 => between 160 191 b1
  | 237 => between 128 159 b1
  | 240 => between 144 191 b1
  | 244 => between 128 143 b1
  | _ => continuation b1
  end%nat.

(** [utf8.DecodeRuneInString], its second result: the width of the
    encoding [s] starts with. [None] stands for the results
    [(RuneError, 1)] and [(RuneError, 0)]: a first byte that starts no
    encoding, a byte that is out of its range, or too few bytes. *)
Definition width (s : string) : option nat :=
  match s with
  | EmptyString => None
  | String b0 s1 =>
      if (nat_of_ascii b0 <? 128)%nat then Some 1%nat
      else if between 194 223 b0 then
        match s1 with
        | String b1 _ => if second b0 b1 then Some 2%nat else None
        | _ => None
        end
      else if between 224 239 b0 then
        match s1 with
        | String b1 (String b2 _) =>
            if second b0 b1 && continuation b2 then Some 3%nat else None
        | _ => None
        end
      else if between 240 244 b0 then
        match s1 with
        | String b1 (String b2 (String b3 _)) =>
            if second b0 b1 && continuation b2 && continuation b3
            then Some 4%nat else None
        | _ => None
        end
      else None
  end.

(** [utf8.ValidString], with [pending] bytes of the current encoding still
    to be passed over. *)
Fixpoint validFrom (pending : nat) (s : string) : bool :=
  match s with
  | EmptyString => true
  | String _ s' =>
      match pending with
      | S k => validFrom k s'
      | O =>
          match width s with
          | Some n => validFrom (Nat.pred n) s'
          | None => false
          end
      end
  end.

Definition ValidString (s : string) : bool := validFrom 0 s.

End Utf8.

Module Json.

(** U+FFFD in UTF-8. *)
Definition replacement : string :=
  String (ascii_of_nat 239) (String (ascii_of_nat 191)
                                    (String (ascii_of_nat 189) "")).

(** The loop over the bytes of a string, with [pending] bytes of the
    current encoding still to be copied. *)
Fixpoint coerceFrom (pending : nat) (s : string) : string :=
  match s with
  | EmptyString => EmptyString
  | String b s' =>
      match pending with
      | S k => String b (coerceFrom k s')
      | O =>
          match Utf8.width s with
          | Some n => String b (coerceFrom (Nat.pred n) s')
          | None => replacement +:+ coerceFrom 0 s'
          end
      end
  end.

(** A string as it is after it has been written or read. *)
Definition coerce (s : string) : string := coerceFrom 0 s.

(** An issue as it is after it has been written or read: the strings are
    its title, its status and its labels. *)
Definition coerceIssue (issue : Issue) : Issue :=
  mkIssue (ID issue) (coerce (Title issue)) (coerce (Status issue))
          (coerce <$> Labels issue) (CreatedAt issue).

End Json.

(** ** The world a command runs in *)

(** The fatal exits of the program ([log.Fatal], [log.Fatalf]) and the
    errors that lead to them, each named after what its message reports. *)
Inductive Error : Type :=
  | EmptyTitle                          (* Issue title cannot be empty. *)
  | NotARepository                      (* could not find repository root *)
  | StoreUnreadable                     (* could not read database file *)
  | StoreCorrupt                        (* could not parse database file *)
  | StoreUnwritable                     (* ioutil.WriteFile failed *)
  | InvalidIssueID                      (* Invalid ID format. *)
  | IssueNotFound (id : Z)              (* Issue with ID #id not found. *)
  | UnsupportedFormat (format : string) (* Unknown format 'format'. *)
  | CredentialsUnavailable.             (* Please install ... the 'gh' CLI *)

(** The database file [.issue_tracker.json] at the repository root. A file
    that parses is identified with the issues its text spells out, every
    string with the bytes it has in the file; what [json.Unmarshal] makes
    of them is said in [loadIssues]. *)
Inductive DBFile : Type :=
  | Missing                         (* os.Stat reports that it is absent *)
  | Unreadable                      (* ioutil.ReadFile fails *)
  | Garbage                         (* json.Unmarshal fails *)
  | Holds (issues : list Issue).

(** What [ioutil.WriteFile] will do when it is called. *)
Inductive WriteOutcome : Type :=
  | Written          (* the file now has the new contents *)
  | WriteRefused     (* the file could not be opened: it is as before *)
  | WriteTorn.       (* failure after truncation: the file does not parse *)

(** What the program prints, by message rather than by character. *)
Inductive Output : Type :=
  | MsgAdded (id : Z) (title : string) (labels : list string)
  | MsgListHeader
  | MsgListRow (issue : Issue)
  | MsgNoIssues
  | MsgListFooter
  | MsgAlreadyClosed (id : Z)
  | MsgClosed (id : Z)
  | MsgMarkdown (issues : list Issue)
  | MsgJSON (issues : list Issue)
  | MsgGhDetected (owner repo : string)
  | MsgFallback
  | MsgPublishing (owner repo : string)
  | MsgCreateFailed (id : Z)
  | MsgCreated (title : string)
  | MsgFinished (count : Z)
  | MsgCleared.

(** The effects a command performs, in the order it performs them. *)
Inductive Event : Type :=
  | EvPrint (o : Output)
  | EvExec (argv : list string)
  | EvGetenv (name : string)
  | EvWriteFile (issues : list Issue)    (* saveIssues(issues) writes *)
  | EvCreate (owner repo token : string) (title : string)
             (labels : list string) (ok : bool).

Record World : Type := mkWorld {
  repoFound : bool;               (* getRepoRoot finds a [.git] upward *)
  dbFile : DBFile;
  disk : WriteOutcome;
  clock : Time;                   (* time.Now() *)
  ghRepoView : option string;     (* stdout of [gh repo view], on exit 0 *)
  ghAuthToken : option string;    (* stdout of [gh auth token], on exit 0 *)
  environ : gmap string string;
  github : nat → bool;            (* does the k-th Issues.Create succeed *)
  trace : list Event              (* oldest first *)
}.

Definition setDBFile (f : DBFile) (w : World) : World :=
  mkWorld (repoFound w) f (disk w) (clock w) (ghRepoView w) (ghAuthToken w)
          (environ w) (github w) (trace w).

Definition emit (e : Event) (w : World) : World :=
  mkWorld (repoFound w) (dbFile w) (disk w) (clock w) (ghRepoView w)
          (ghAuthToken w) (environ w) (github w) (trace w ++ [e]).

(** A command either runs to its end or exits through [log.Fatal]; either
    way it leaves a world behind. *)
Inductive Outcome (A : Type) : Type :=
  | Done (a : A)
  | Fatal (e : Error).
Arguments Done {A} a.
Arguments Fatal {A} e.

Definition M (A : Type) : Type := World → Outcome A * World.

Definition ret {A} (a : A) : M A := λ w, (Done a, w).
Definition bind {A B} (c : M A) (k : A → M B) : M B :=
  λ w, match c w with
       | (Done a, w') => k a w'
       | (Fatal e, w') => (Fatal e, w')
       end.
Definition fatal {A} (e : Error) : M A := λ w, (Fatal e, w).
Definition perform (e : Event) : M () := λ w, (Done (), emit e w).
Definition println (o : Output) : M () := perform (EvPrint o).
Definition ask {A} (f : World → A) : M A := λ w, (Done (f w), w).

Notation "'do' x <- c ; k" := (bind c (λ x, k))
  (at level 10, x name, c at level 100, k at level 200,
   format "'[v' 'do'  x  <-  c ; '/' k ']'").

(** ** The issue store *)

Definition getDBPath : M () :=
  do found <- ask repoFound;
  if found : bool then ret () else fatal NotARepository.

Definition loadIssues : M (list Issue) :=
  do _ <- getDBPath;
  do f <- ask dbFile;
  match f with
  | Missing => ret []
  | Unreadable => fatal StoreUnreadable
  | Garbage => fatal StoreCorrupt
  | Holds issues => ret (Json.coerceIssue <$> issues)
  end.

Definition saveIssues (issues : list Issue) : M () :=
  do _ <- getDBPath;
  do _ <- perform (EvWriteFile issues);
  do d <- ask disk;
  match d with
  | Written =>
      λ w, (Done (), setDBFile (Holds (Json.coerceIssue <$> issues)) w)
  | WriteRefused => fatal StoreUnwritable
  | WriteTorn => λ w, (Fatal StoreUnwritable, setDBFile Garbage w)
  end.

(** ** [addIssue] *)

(** The loop that finds [maxID], from its initial value [maxID]. *)
Fixpoint maxIDLoop (issues : list Issue) (maxID : Z) : Z :=
  match issues with
  | [] => maxID
  | issue :: issues' =>
      maxIDLoop issues' (if bool_decide (ID issue > maxID) then ID issue
                         else maxID)
  end.

Definition newIssueFor (issues : list Issue) (title : string) (now : Time)
    : Issue :=
  let maxID := maxIDLoop issues 0 in
  autoLabel (mkIssue (GoInt.add maxID 1) title statusOpen [] now).

Definition addIssue (title : string) : M () :=
  if bool_decide (title = "") then fatal EmptyTitle else
  do issues <- loadIssues;
  do now <- ask clock;
  let newIssue := newIssueFor issues title now in
  let issues := issues ++ [newIssue] in
  do _ <- saveIssues issues;
  println (MsgAdded (ID newIssue) (Title newIssue) (Labels newIssue)).

(** ** [listIssues] *)

(** The inner loop: is [filterLabel] one of the labels. *)
Fixpoint labelFound (filterLabel : string) (labels : list string) : bool :=
  match labels with
  | [] => false
  | label :: labels' =>
      if bool_decide (label = filterLabel) then true
      else labelFound filterLabel labels'
  end.

(** The outer loop; its state is the rows printed so far and [count]. *)
Fixpoint listLoop (filterLabel : string) (showClosed : bool)
    (issues : list Issue) (rows : list Issue) (count : Z)
    : list Issue * Z :=
  match issues with
  | [] => (rows, count)
  | issue :: issues' =>
      if negb showClosed && bool_decide (Status issue = statusClosed) then
        listLoop filterLabel showClosed issues' rows count
      else if bool_decide (filterLabel ≠ "")
              && negb (labelFound filterLabel (Labels issue)) then
        listLoop filterLabel showClosed issues' rows count
      else
        listLoop filterLabel showClosed issues' (rows ++ [issue])
                 (GoInt.add count 1)
  end.

(** The rows of the listing, in the order they are printed. *)
Definition listing (filterLabel : string) (showClosed : bool)
    (issues : list Issue) : list Issue :=
  (listLoop filterLabel showClosed issues [] 0).1.

Fixpoint printAll (os : list Output) : M () :=
  match os with
  | [] => ret ()
  | o :: os' => do _ <- println o; printAll os'
  end.

Definition listIssues (filterLabel : string) (showClosed : bool) : M () :=
  do issues <- loadIssues;
  do _ <- println MsgListHeader;
  let '(rows, count) := listLoop filterLabel showClosed issues [] 0 in
  do _ <- printAll (MsgListRow <$> rows);
  do _ <- (if bool_decide (count = 0) then println MsgNoIssues else ret ());
  println MsgListFooter.

(** ** [closeIssue] *)

Module Strconv.

Definition digit (c : ascii) : option Z :=
  let n := Z.of_nat (nat_of_ascii c) in
  if bool_decide (48 ≤ n ≤ 57) then Some (n - 48) else None.

Fixpoint digits (s : string) (acc : Z) : option Z :=
  match s with
  | EmptyString => Some acc
  | String c s' => d ← digit c; digits s' (acc * 10 + d)
  end.

(** [strconv.Atoi]: an optional sign, then one decimal digit or more;
    [None] stands for a syntax error or a value out of the range of
    [int]. *)
Definition Atoi (s : string) : option Z :=
  match s with
  | EmptyString => None
  | String c s' =>
      let neg := bool_decide (c = "-"%char) in
      let body :=
        if bool_decide (c = "-"%char ∨ c = "+"%char) then s' else s in
      match body with
      | EmptyString => None
      | _ =>
          n ← digits body 0;
          let v := if neg then - n else n in
          if bool_decide (GoInt.inRange v) then Some v else None
      end
  end.

End Strconv.

Definition setStatus (status : string) (issue : Issue) : Issue :=
  mkIssue (ID issue) (Title issue) status (Labels issue) (CreatedAt issue).

(** How the loop of [closeIssue] ends. *)
Inductive CloseScan : Type :=
  | ScanAlreadyClosed              (* the early return *)
  | ScanClosed (issues : list Issue) (* found = true, with the slice updated *)
  | ScanNotFound.                  (* found = false *)

(** [for i := range issues], at index [i], with [rest] the elements from
    [i] on. *)
Fixpoint closeLoop (id : Z) (issues : list Issue) (i : nat)
    (rest : list Issue) : CloseScan :=
  match rest with
  | [] => ScanNotFound
  | issue :: rest' =>
      if bool_decide (ID issue = id) then
        if bool_decide (Status issue = statusClosed) then ScanAlreadyClosed
        else ScanClosed (<[i := setStatus statusClosed issue]> issues)
      else closeLoop id issues (S i) rest'
  end.

Definition closeIssue (idStr : string) : M () :=
  match Strconv.Atoi idStr with
  | None => fatal InvalidIssueID
  | Some id =>
      do issues <- loadIssues;
      match closeLoop id issues 0 issues with
      | ScanAlreadyClosed => println (MsgAlreadyClosed id)
      | ScanNotFound => fatal (IssueNotFound id)
      | ScanClosed issues' =>
          do _ <- saveIssues issues';
          println (MsgClosed id)
      end
  end.

(** ** [publishIssues]

    The text of the two renderings is not modelled: the output records
    which rendering was printed and of which issues. *)
Definition publishIssues (format : string) : M () :=
  do issues <- loadIssues;
  if bool_decide (format = "markdown") then println (MsgMarkdown issues)
  else if bool_decide (format = "json") then println (MsgJSON issues)
  else fatal (UnsupportedFormat format).

(** ** [pushToGithub] *)

Module Strings.

Definition bytes (ns : list nat) : string :=
  String.string_of_list_ascii (ascii_of_nat <$> ns).

(** The runes [unicode.IsSpace] accepts, in UTF-8. *)
Definition spaces : list string :=
  bytes <$>
    [ [9]; [10]; [11]; [12]; [13]; [32];
      [194; 133]; [194; 160]; [225; 154; 128];
      [226; 128; 128]; [226; 128; 129]; [226; 128; 130]; [226; 128; 131];
      [226; 128; 132]; [226; 128; 133]; [226; 128; 134]; [226; 128; 135];
      [226; 128; 136]; [226; 128; 137]; [226; 128; 138];
      [226; 128; 168]; [226; 128; 169]; [226; 128; 175];
      [226; 129; 159]; [227; 128; 128] ]%nat.

Fixpoint trimLeft (encodings : list string) (fuel : nat) (s : string)
    : string :=
  match fuel with
  | O => s
  | S fuel' =>
      match Fold.stripAny encodings s with
      | Some rest => trimLeft encodings fuel' rest
      | None => s
      end
  end.

(** [strings.TrimSpace]: the white space at both ends removed. *)
Definition TrimSpace (s : string) : string :=
  let s1 := trimLeft spaces (String.length s) s in
  String.rev
    (trimLeft (String.rev <$> spaces) (String.length s1) (String.rev s1)).

(** [strings.Split(s, "/")]. *)
Fixpoint SplitSlash (s : string) : list string :=
  match s with
  | EmptyString => [""]
  | String c s' =>
      if bool_decide (c = "/"%char) then "" :: SplitSlash s'
      else match SplitSlash s' with
           | part :: parts => String c part :: parts
           | [] => [String c ""]
           end
  end.

End Strings.

(** [os.Getenv]: a variable that is not set reads as the empty string. *)
Definition Getenv (name : string) : M string :=
  do _ <- perform (EvGetenv name);
  ask (λ w, default "" (environ w !! name)).

(** The token, the owner and the repository to push to. *)
Record Credentials : Type := mkCredentials {
  token : string;
  owner : string;
  repo : string
}.

Definition ghRepoArgv : list string :=
  ["gh"; "repo"; "view"; "--json"; "name,owner"; "--jq";
   String.app ".owner.login + " (String.app (Strings.bytes [34; 47; 34]%nat)
                                            " + .name")].
Definition ghTokenArgv : list string := ["gh"; "auth"; "token"].

(** What the [gh] CLI yields: the part of [pushToGithub] before the test
    [owner != "" && repo != "" && token != ""]. *)
Definition ghConfig : M Credentials :=
  do _ <- perform (EvExec ghRepoArgv);
  do ghRepoOutput <- ask ghRepoView;
  let '(owner, repo) :=
    match ghRepoOutput with
    | Some out =>
        match Strings.SplitSlash (Strings.TrimSpace out) with
        | [o; r] => (o, r)
        | _ => ("", "")
        end
    | None => ("", "")
    end in
  do _ <- perform (EvExec ghTokenArgv);
  do ghTokenOutput <- ask ghAuthToken;
  let token :=
    match ghTokenOutput with
    | Some out => Strings.TrimSpace out
    | None => ""
    end in
  ret (mkCredentials token owner repo).

Definition complete (c : Credentials) : bool :=
  bool_decide (owner c ≠ "") && bool_decide (repo c ≠ "")
  && bool_decide (token c ≠ "").

(** The first part of [pushToGithub]: up to the creation of the client. *)
Definition resolveCredentials : M Credentials :=
  do c <- ghConfig;
  if complete c then
    do _ <- println (MsgGhDetected (owner c) (repo c));
    ret c
  else
    do _ <- println MsgFallback;
    do token <- Getenv "GITHUB_TOKEN";
    do owner <- Getenv "GITHUB_OWNER";
    do repo <- Getenv "GITHUB_REPO";
    if bool_decide (token = "") || bool_decide (owner = "")
       || bool_decide (repo = "")
    then fatal CredentialsUnavailable
    else ret (mkCredentials token owner repo).

Definition isCreate (e : Event) : bool :=
  match e with EvCreate _ _ _ _ _ _ => true | _ => false end.

(** [client.Issues.Create]: the call is recorded with its result. *)
Definition create (c : Credentials) (issue : Issue) : M bool :=
  λ w, let k := length (List.filter isCreate (trace w)) in
       let ok := github w k in
       (Done ok,
        emit (EvCreate (owner c) (repo c) (token c) (Title issue)
                       (Labels issue) ok) w).

(** The loop over [localIssues]; its state is [count]. *)
Fixpoint pushLoop (c : Credentials) (localIssues : list Issue) (count : Z)
    : M Z :=
  match localIssues with
  | [] => ret count
  | issue :: localIssues' =>
      if bool_decide (Status issue = statusOpen) then
        do ok <- create c issue;
        if ok : bool then
          do _ <- println (MsgCreated (Title issue));
          pushLoop c localIssues' (GoInt.add count 1)
        else
          do _ <- println (MsgCreateFailed (ID issue));
          pushLoop c localIssues' count
      else pushLoop c localIssues' count
  end.

(** The second part of [pushToGithub]: from [loadIssues] to the end. *)
Definition publishBatch (c : Credentials) : M () :=
  do localIssues <- loadIssues;
  do _ <- println (MsgPublishing (owner c) (repo c));
  do count <- pushLoop c localIssues 0;
  do _ <- println (MsgFinished count);
  do _ <- saveIssues [];
  println MsgCleared.

Definition pushToGithub : M () :=
  do c <- resolveCredentials;
  publishBatch c.

(** ** Vocabulary of the statements *)

(** The issues [loadIssues] yields in [w], when it yields any. *)
Definition storeOf (w : World) : option (list Issue) :=
  if repoFound w then
    match dbFile w with
    | Missing => Some []
    | Holds issues => Some (Json.coerceIssue <$> issues)
    | Unreadable | Garbage => None
    end
  else None.

(** [m] is the largest id of [issues]. *)
Definition isMaxID (m : Z) (issues : list Issue) : Prop :=
  m ∈ ID <$> issues ∧ ∀ issue, issue ∈ issues → ID issue ≤ m.

(** The stores a run has handed to [saveIssues] to be written, oldest
    first. *)
Definition writesOf (events : list Event) : list (list Issue) :=
  omap (λ e, match e with EvWriteFile issues => Some issues | _ => None end)
       events.

(** The running world after [c]. *)
Definition after {A} (c : M A) (w : World) : World := (c w).2.
(** How [c] ends. *)
Definition result {A} (c : M A) (w : World) : Outcome A := (c w).1.

(** A store whose largest id is the largest [int]. *)
Definition fullStore : list Issue :=
  [mkIssue GoInt.maxInt "last" statusOpen [] 0].

Definition emptyWorld : World :=
  mkWorld true Missing Written 0 None None ∅ (λ _, true) [].
Definition worldWith (issues : list Issue) : World :=
  setDBFile (Holds issues) emptyWorld.

(** What the loop of [listIssues] lets through. *)
Definition listed (filterLabel : string) (showClosed : bool) (issue : Issue)
    : Prop :=
  (showClosed = true ∨ Status issue ≠ statusClosed)
  ∧ (filterLabel = "" ∨ filterLabel ∈ Labels issue).

Global Instance listed_dec filterLabel showClosed issue :
  Decision (listed filterLabel showClosed issue).
Proof. unfold listed. apply _. Defined.

(** The condition of the documentation: open, unless closed issues are
    asked for, and carrying the label, when one is asked for. *)
Definition listedAsDocumented (filterLabel : string) (showClosed : bool)
    (issue : Issue) : Prop :=
  (showClosed = true ∨ Status issue = statusOpen)
  ∧ (filterLabel = "" ∨ filterLabel ∈ Labels issue).

Global Instance listedAsDocumented_dec filterLabel showClosed issue :
  Decision (listedAsDocumented filterLabel showClosed issue).
Proof. unfold listedAsDocumented. apply _. Defined.

(** The status of an issue is one of the two the program writes. *)
Definition validStatus (issue : Issue) : Prop :=
  Status issue = statusOpen ∨ Status issue = statusClosed.

(** The rows a run has printed, oldest first. *)
Definition rowsOf (events : list Event) : list Issue :=
  omap (λ e, match e with EvPrint (MsgListRow issue) => Some issue
                     | _ => None end) events.

(** An issue someone has given a status of their own in the file. *)
Definition oddStatusStore : list Issue :=
  [mkIssue 1 "DOCS: write the manual" "in progress" ["documentation"] 0].

(** The requests a run has sent to GitHub, oldest first: the title and the
    labels of each. *)
Definition createsOf (events : list Event) : list (string * list string) :=
  omap (λ e, match e with
             | EvCreate _ _ _ title labels _ => Some (title, labels)
             | _ => None
             end) events.

(** The variables a run has read from the environment, oldest first. *)
Definition getenvsOf (events : list Event) : list string :=
  omap (λ e, match e with EvGetenv name => Some name | _ => None end) events.

(** The commands a run has executed, oldest first. *)
Definition execsOf (events : list Event) : list (list string) :=
  omap (λ e, match e with EvExec argv => Some argv | _ => None end) events.

(** What the loop of [pushToGithub] does, given the results of the calls:
    [oracle k] is the result of call number [k]. *)
Fixpoint batchEvents (c : Credentials) (oracle : nat → bool) (k : nat)
    (localIssues : list Issue) : list Event :=
  match localIssues with
  | [] => []
  | issue :: localIssues' =>
      if bool_decide (Status issue = statusOpen) then
        let ok := oracle k in
        EvCreate (owner c) (repo c) (token c) (Title issue) (Labels issue) ok
        :: EvPrint (if ok then MsgCreated (Title issue)
                    else MsgCreateFailed (ID issue))
        :: batchEvents c oracle (S k) localIssues'
      else batchEvents c oracle k localIssues'
  end.

(** The value of an environment variable, [""] when it is not set. *)
Definition envValue (w : World) (name : string) : string :=
  default "" (environ w !! name).

(** What the two calls of the [gh] CLI yield in [w]. *)
Definition ghTier (w : World) : Credentials :=
  let '(owner, repo) :=
    match ghRepoView w with
    | Some out =>
        match Strings.SplitSlash (Strings.TrimSpace out) with
        | [o; r] => (o, r)
        | _ => ("", "")
        end
    | None => ("", "")
    end in
  mkCredentials (match ghAuthToken w with
                 | Some out => Strings.TrimSpace out
                 | None => ""
                 end) owner repo.

(** What the environment yields in [w]. *)
Definition envTier (w : World) : Credentials :=
  mkCredentials (envValue w "GITHUB_TOKEN") (envValue w "GITHUB_OWNER")
                (envValue w "GITHUB_REPO").

(** The events of the resolution up to the test of the first tier, and the
    events of the fallback. *)
Definition ghEvents : list Event := [EvExec ghRepoArgv; EvExec ghTokenArgv].
Definition fallbackEvents : list Event :=
  [EvPrint MsgFallback; EvGetenv "GITHUB_TOKEN"; EvGetenv "GITHUB_OWNER";
   EvGetenv "GITHUB_REPO"].

(** No [gh] CLI, and an environment without GITHUB_REPO. *)
Definition noRepoWorld : World :=
  mkWorld true (Holds [mkIssue 1 "BUG: a" statusOpen ["bug"] 0]) Written 0
          None None
          (<["GITHUB_TOKEN" := "secret"]> (<["GITHUB_OWNER" := "me"]> ∅))
          (λ _, true) [].

(** A store of three issues, two of them open, behind a [gh] CLI that
    works and a GitHub that refuses every request. *)
Definition failingWorld : World :=
  mkWorld true
          (Holds [mkIssue 1 "BUG: a" statusOpen ["bug"] 0;
                  mkIssue 2 "b" statusClosed [] 0;
                  mkIssue 3 "FEAT: c" statusOpen ["feature"] 0])
          Written 0 (Some "me/proj") (Some "secret") ∅ (λ _, false) [].

(** The invariants of the data model: ids distinct, every status "open"
    or "closed", every label list duplicate-free and sorted ascending. *)
Definition storeInvariant (issues : list Issue) : Prop :=
  NoDup (ID <$> issues)
  ∧ Forall validStatus issues
  ∧ Forall (λ issue, NoDup (Labels issue)
                     ∧ Sorted String.le (Labels issue)) issues.

(** Two issues whose ids are the two ends of [int]. *)
Definition wrappingStore : list Issue :=
  [mkIssue GoInt.maxInt "last" statusOpen [] 0;
   mkIssue GoInt.minInt "first" statusOpen [] 0].

(** Running [c] in [w] hands only stores that satisfy the invariants to
    [saveIssues]; a file that can be loaded afterwards yields such a
    store; and a file that parses afterwards is the file as it was, or
    holds such a store. *)
Definition keepsInvariant (c : M ()) (w : World) : Prop :=
  (∀ l, l ∈ writesOf (trace (after c w)) →
        l ∈ writesOf (trace w) ∨ storeInvariant l)
  ∧ (∀ l, storeOf (after c w) = Some l → storeInvariant l)
  ∧ (∀ l, dbFile (after c w) = Holds l →
          dbFile (after c w) = dbFile w ∨ storeInvariant l).

(** A store as the program writes it. *)
Definition sampleStore : list Issue :=
  [mkIssue 1 "BUG: crash on save" statusOpen ["bug"] 0;
   mkIssue 4 "tidy up" statusClosed [] 0].

(** [sampleStore] with a [gh] CLI that works and a GitHub that accepts
    every request. *)
Definition sampleWorld : World :=
  mkWorld true (Holds sampleStore) Written 0 (Some "me/proj") (Some "secret")
          ∅ (λ _, true) [].

(** [sampleWorld] before anything has been added: no database file. *)
Definition freshWorld : World := setDBFile Missing sampleWorld.

(** ** Vocabulary of the further statements *)

(** The error [loadIssues] ends with in [w], when it ends with one. *)
Definition loadError (w : World) : option Error :=
  if repoFound w then
    match dbFile w with
    | Unreadable => Some StoreUnreadable
    | Garbage => Some StoreCorrupt
    | Missing | Holds _ => None
    end
  else Some NotARepository.

(** [l] has every issue of [issues] at its place, with its id, title,
    labels and creation time, and with its status or the status closed. *)
Definition keepsIssues (issues l : list Issue) : Prop :=
  ∀ j x, issues !! j = Some x →
         ∃ x', l !! j = Some x'
               ∧ ID x' = ID x ∧ Title x' = Title x ∧ Labels x' = Labels x
               ∧ CreatedAt x' = CreatedAt x
               ∧ (Status x' = Status x ∨ Status x' = statusClosed).

(** What has become of the file when a run that started in [w] with the
    store [issues] has ended in [w'], having handed [news] to
    [saveIssues]. With nothing handed over, or a file that could not be
    opened for writing, the file is as it was; after a write that went
    through it yields a store that has kept the issues; after a write that
    failed halfway it does not parse. *)
Definition fileKeeps (issues : list Issue) (news : list (list Issue))
    (w w' : World) : Prop :=
  match news with
  | [] => dbFile w' = dbFile w
  | _ :: _ =>
      match disk w with
      | Written => ∃ l, storeOf w' = Some l ∧ keepsIssues issues l
      | WriteRefused => dbFile w' = dbFile w
      | WriteTorn => dbFile w' = Garbage ∧ storeOf w' = None
      end
  end.

(** [sampleStore] on a disk where a write fails after the file has been
    truncated. *)
Definition tornWorld : World :=
  mkWorld true (Holds sampleStore) WriteTorn 0 None None ∅ (λ _, true) [].

(** A store that cannot be parsed, in a repository. *)
Definition corruptWorld : World := setDBFile Garbage emptyWorld.

(** The requests of a run that GitHub has accepted. *)
Definition successesOf (events : list Event) : nat :=
  length (List.filter (λ e, match e with
                            | EvCreate _ _ _ _ _ ok => ok
                            | _ => false
                            end) events).

(** The totals a run has reported at the end of a push. *)
Definition finishedOf (events : list Event) : list Z :=
  omap (λ e, match e with EvPrint (MsgFinished n) => Some n | _ => None end)
       events.

(** The first rune of [s] up to case folding, when it is an ASCII rune or
    one of the two runes that fold to an ASCII letter. *)
Definition foldHead (s : string) : option (ascii * string) :=
  match Fold.stripPrefix Fold.longS s with
  | Some rest => Some ("S"%char, rest)
  | None =>
      match Fold.stripPrefix Fold.kelvin s with
      | Some rest => Some ("K"%char, rest)
      | None =>
          match s with
          | String b rest => Some (Fold.toUpper b, rest)
          | EmptyString => None
          end
      end
  end.

(** No string of [ts], followed by a colon, starts with a string of [ts']
    followed by a colon, case aside, nor the other way round. *)
Definition disjointTokens (ts ts' : list string) : bool :=
  forallb (λ t, forallb (λ t', negb (hasPrefixNoCase (t +:+ ":") (t' +:+ ":"))
                               && negb (hasPrefixNoCase (t' +:+ ":")
                                                        (t +:+ ":")))
                        ts') ts.

(** Every literal of [r] is ASCII. *)
Fixpoint asciiRegex (r : regex) : bool :=
  match r with
  | Lit p => isASCII p
  | Alt r1 r2 | Cat r1 r2 => asciiRegex r1 && asciiRegex r2
  end.

(** [e] is the encoding of one rune, and not of U+FFFD. *)
Definition encodesRune (e : string) : Prop :=
  (∃ a e', e = String a e' ∧ a ≠ ascii_of_nat 239)
  ∧ ∀ t, Utf8.width (e +:+ t) = Some (String.length e).

(** ** [getRepoRoot] and [getDBPath]

    A path is absolute and clean, as [os.Getwd] returns it: the list of
    its components below the root, outermost first; the root is [[]]. *)

Definition Path : Type := list string.

(** What the commands see of the file system when they look for the
    repository: the working directory, when [os.Getwd] yields one, and
    the directories in which [os.Stat] finds an entry [.git]. *)
Record FileSystem : Type := mkFileSystem {
  cwd : option Path;
  hasGit : Path → bool
}.

Inductive RootError : Type :=
  | GetwdFailed            (* os.Getwd returned an error *)
  | NotAGitRepository      (* not a git repository *)
  | WalkUnfinished.        (* the walk was cut short *)

(** [filepath.Dir]: the path without its last component; the root is its
    own parent. *)
Definition Dir (path : Path) : Path := removelast path.

(** The loop of [getRepoRoot], for [fuel] rounds at most. *)
Fixpoint walkUp (fs : FileSystem) (fuel : nat) (path : Path)
    : RootError + Path :=
  if hasGit fs path then inr path
  else
    let parent := Dir path in
    if decide (parent = path) then inl NotAGitRepository
    else match fuel with
         | O => inl WalkUnfinished
         | S fuel' => walkUp fs fuel' parent
         end.

(** [getRepoRoot]; a path has as many parents as components, so the
    rounds given are enough (see [getRepoRoot_finishes]). *)
Definition getRepoRoot (fs : FileSystem) : RootError + Path :=
  match cwd fs with
  | None => inl GetwdFailed
  | Some path => walkUp fs (length path) path
  end.

(** [getDBPath], with [filepath.Join] adding a component. *)
Definition getDBPathIn (fs : FileSystem) : RootError + Path :=
  match getRepoRoot fs with
  | inl err => inl err
  | inr root => inr (root ++ [dbFileName])
  end.

(** A checkout in [/home/dev/proj], seen from [src/cmd] inside it, with a
    second repository in a vendored directory that is not on the way up. *)
Definition sampleFS : FileSystem :=
  mkFileSystem (Some ["home"; "dev"; "proj"; "src"; "cmd"])
    (λ p, bool_decide (p = ["home"; "dev"; "proj"]
                       ∨ p = ["home"; "dev"; "proj"; "vendor"; "lib"])).

(** ** [main] *)

Module Args.

(** [strings.Join]. *)
Fixpoint Join (elems : list string) (sep : string) : string :=
  match elems with
  | [] => ""
  | [e] => e
  | e :: elems' => e +:+ sep +:+ Join elems' sep
  end.

(** [strings.HasPrefix] and [strings.TrimPrefix] in one: what follows
    [prefix] in [s], when [s] starts with it. *)
Definition TrimPrefix (s prefix : string) : option string :=
  Fold.stripPrefix prefix s.

(** The loop over the arguments of [list]; its state is [filterLabel] and
    [showAll]. *)
Fixpoint listFlags (args : list string) (filterLabel : string)
    (showAll : bool) : string * bool :=
  match args with
  | [] => (filterLabel, showAll)
  | arg :: args' =>
      match TrimPrefix arg "--label=" with
      | Some label => listFlags args' label showAll
      | None =>
          if bool_decide (arg = "--all") then listFlags args' filterLabel true
          else listFlags args' filterLabel showAll
      end
  end.

End Args.

(** The calls of [log.Fatal] in [main]. *)
Inductive UsageError : Type :=
  | AddNeedsTitle          (* 'add' command requires a title. *)
  | CloseNeedsOneID        (* 'close' command requires exactly one ID. *)
  | PublishNeedsFormat.    (* 'publish' command requires a format. *)

(** How [main] ends. *)
Inductive MainEnd : Type :=
  | Helped                            (* printHelp *)
  | UnknownCommand (command : string) (* Unknown command, then printHelp *)
  | BadUsage (u : UsageError)
  | Ran (o : Outcome ()).             (* the end of the command function *)

Definition run (c : M ()) : World → MainEnd * World :=
  λ w, (Ran (c w).1, (c w).2).

(** [main], given [os.Args]. *)
Definition main (osArgs : list string) : World → MainEnd * World :=
  match osArgs with
  | [] | [_] => λ w, (Helped, w)
  | _ :: command :: args =>
      if bool_decide (command = "add") then
        if bool_decide (length args = 0%nat) then
          λ w, (BadUsage AddNeedsTitle, w)
        else run (addIssue (Args.Join args " "))
      else if bool_decide (command = "list") then
        let '(filterLabel, showAll) := Args.listFlags args "" false in
        run (listIssues filterLabel showAll)
      else if bool_decide (command = "close") then
        match args with
        | [idStr] => run (closeIssue idStr)
        | _ => λ w, (BadUsage CloseNeedsOneID, w)
        end
      else if bool_decide (command = "publish") then
        match args with
        | [format] => run (publishIssues format)
        | _ => λ w, (BadUsage PublishNeedsFormat, w)
        end
      else if bool_decide (command = "push") then run pushToGithub
      else if bool_decide (command = "help") then λ w, (Helped, w)
      else λ w, (UnknownCommand command, w)
  end.

(** The values given to [--label=] among the arguments, in order. *)
Definition labelFlags (args : list string) : list string :=
  omap (λ arg, Args.TrimPrefix arg "--label=") args.

(** ** Sessions

    One run of the program after the other, on the same repository. Each
    run gets its own command line and its own surroundings: the disk, the
    clock, the [gh] CLI, the environment and GitHub may behave differently
    from run to run. The file and the record of what has happened carry
    over. *)

Record Call : Type := mkCall {
  callArgs : list string;         (* os.Args *)
  callDisk : WriteOutcome;
  callClock : Time;
  callGhRepoView : option string;
  callGhAuthToken : option string;
  callEnviron : gmap string string;
  callGithub : nat → bool
}.

Definition enter (call : Call) (w : World) : World :=
  mkWorld (repoFound w) (dbFile w) (callDisk call) (callClock call)
          (callGhRepoView call) (callGhAuthToken call) (callEnviron call)
          (callGithub call) (trace w).

Definition step (w : World) (call : Call) : World :=
  (main (callArgs call) (enter call w)).2.

Definition session (calls : list Call) (w : World) : World :=
  foldl step w calls.

(** An issue as the program makes it within [n] runs: its id lies
    between 1 and [n], its title is not empty and is valid UTF-8, and its
    labels are the labels of the rules its title matches, one at most. *)
Definition wellMade (n : Z) (issue : Issue) : Prop :=
  1 ≤ ID issue ≤ n ∧ Title issue ≠ ""
  ∧ Labels issue = matching (Title issue) defaultLabelPatterns
  ∧ (length (Labels issue) ≤ 1)%nat
  ∧ Json.coerce (Title issue) = Title issue.

(** A file the program has made by itself in [n] runs at most: if it
    parses, the store satisfies the invariants of the data model, its ids
    grow along the store, and every issue is well made. *)
Definition selfMade (n : Z) (f : DBFile) : Prop :=
  match f with
  | Missing | Garbage => True
  | Unreadable => False
  | Holds issues =>
      storeInvariant issues
      ∧ StronglySorted Z.lt (ID <$> issues)
      ∧ Forall (wellMade n) issues
  end.

(** A run with the given command line in friendly surroundings. *)
Definition plainCall (args : list string) : Call :=
  mkCall args Written 0 (Some "me/proj") (Some "secret") ∅ (λ _, true).

(** [s] has no slash. *)
Fixpoint noSlash (s : string) : bool :=
  match s with
  | EmptyString => true
  | String c s' => negb (bool_decide (c = "/"%char)) && noSlash s'
  end.

(** A [gh] CLI that prints a path of three parts. *)
Definition nestedRepoWorld : World :=
  mkWorld true (Holds sampleStore) Written 0 (Some "me/group/proj")
          (Some "secret") ∅ (λ _, true) [].

(** ** Printing an id *)

Module Fmt.

Definition digitChar (d : Z) : ascii := ascii_of_nat (48 + Z.to_nat d).

(** The decimal digits of [n], for a number with [fuel] digits at most. *)
Fixpoint decimal (fuel : nat) (n : Z) : string :=
  match fuel with
  | O => ""
  | S fuel' =>
      if bool_decide (n < 10) then String (digitChar n) ""
      else decimal fuel' (n / 10) +:+ String (digitChar (n `mod` 10)) ""
  end.

(** The verb [%d] for an [int], as in [Issue #%d]: a minus sign for a
    negative number, then the digits; an [int] has 19 digits at most. *)
Definition formatInt (n : Z) : string :=
  if bool_decide (n < 0) then "-" +:+ decimal 19 (- n) else decimal 19 n.

End Fmt.

(** * Properties *)

(** ** Go's [int] *)

Module GoIntFacts.

Import GoInt.

Lemma wrap_inRange z : inRange (wrap z).
Proof.
  unfold inRange, wrap.
  pose proof (Z.mod_pos_bound (z - minInt) 18446744073709551616).
  unfold minInt, maxInt in *. lia.
Qed.

Lemma wrap_id z : inRange z → wrap z = z.
Proof.
  unfold inRange, wrap, minInt, maxInt. intros Hz.
  rewrite Z.mod_small; lia.
Qed.

Lemma add_no_overflow a b : inRange (a + b) → add a b = a + b.
Proof. apply wrap_id. Qed.

End GoIntFacts.

Example autoLabel_bug :
  Labels (autoLabel (mkIssue 1 "BUG: crash on save" "open" [] 0)) = ["bug"].
Proof. vm_compute. reflexivity. Qed.

Example autoLabel_lower :
  Labels (autoLabel (mkIssue 1 "feat: x" "open" ["zeta"; "alpha"] 0))
  = ["alpha"; "feature"; "zeta"].
Proof. vm_compute. reflexivity. Qed.

Example autoLabel_none :
  Labels (autoLabel (mkIssue 1 "a BUG: crash" "open" [] 0)) = [].
Proof. vm_compute. reflexivity. Qed.

(** ** Sorting *)

Section sorting.

Lemma sortStrings_Sorted l : Sorted String.le (sortStrings l).
Proof. apply (Sorted_merge_sort String.le). Qed.

Lemma sortStrings_Permutation l : sortStrings l ≡ₚ l.
Proof. apply merge_sort_Permutation. Qed.

(** Whatever arranges [l] in ascending order arranges it as
    [sortStrings] does. *)
Lemma sortStrings_unique l l' :
  Sorted String.le l' → l' ≡ₚ l → l' = sortStrings l.
Proof.
  intros Hs Hp. apply (Sorted_unique String.le); [done | |].
  - apply sortStrings_Sorted.
  - by rewrite sortStrings_Permutation.
Qed.

Lemma sortStrings_sorted l : Sorted String.le l → sortStrings l = l.
Proof. intros Hs. symmetry. by apply sortStrings_unique. Qed.

Lemma sortStrings_elem_of l x : x ∈ sortStrings l ↔ x ∈ l.
Proof. by rewrite sortStrings_Permutation. Qed.

Lemma sortStrings_NoDup l : NoDup (sortStrings l) ↔ NoDup l.
Proof. by rewrite sortStrings_Permutation. Qed.

End sorting.

(** ** The patterns *)

Section patterns.

Import Fold.

Lemma lit_app p q s : lit (p +:+ q) s = lit p s ≫= lit q.
Proof.
  revert s. induction p as [|c p IH]; intros s; [done|].
  change (String c p +:+ q) with (String c (p +:+ q)). simpl.
  destruct (stripAny (orbit c) s); [apply IH | done].
Qed.

Lemma MatchString_true r s :
  MatchString r s = true ↔ ∃ rest, rest ∈ matchPrefix r s.
Proof.
  unfold MatchString. destruct (matchPrefix r s) as [|x l].
  - split; [done|]. intros [rest Hin]. by apply elem_of_nil in Hin.
  - split; [|done]. intros _. exists x. left.
Qed.

Lemma matchPrefix_Lit p s rest :
  rest ∈ matchPrefix (Lit p) s ↔ lit p s = Some rest.
Proof.
  simpl. destruct (lit p s); simpl.
  - rewrite list_elem_of_singleton. naive_solver.
  - rewrite elem_of_nil. naive_solver.
Qed.

Lemma matchPrefix_oneOf w ws s rest :
  rest ∈ matchPrefix (oneOf w ws) s
  ↔ ∃ tok, tok ∈ w :: ws ∧ lit tok s = Some rest.
Proof.
  revert w. induction ws as [|w' ws IH]; intros w.
  - cbn [oneOf]. rewrite matchPrefix_Lit.
    setoid_rewrite list_elem_of_singleton.
    naive_solver.
  - change (oneOf w (w' :: ws)) with (Alt (Lit w) (oneOf w' ws)).
    cbn [matchPrefix]. rewrite elem_of_app, IH.
    fold (matchPrefix (Lit w) s). rewrite matchPrefix_Lit.
    setoid_rewrite (elem_of_cons (w' :: ws)). naive_solver.
Qed.

(** What the pattern [(?i)^(w|...):] matches. *)
Lemma MatchString_prefixRule w ws title :
  MatchString (prefixRule w ws) title = true
  ↔ ∃ tok, tok ∈ w :: ws ∧ hasPrefixFold (tok +:+ ":") title.
Proof.
  rewrite MatchString_true. unfold prefixRule, hasPrefixFold.
  cbn [matchPrefix]. setoid_rewrite list_elem_of_bind.
  setoid_rewrite matchPrefix_oneOf.
  fold (matchPrefix (Lit ":")). setoid_rewrite matchPrefix_Lit.
  setoid_rewrite lit_app. split.
  - intros (rest & mid & Hrest & tok & Hin & Hmid). exists tok.
    split; [done|]. exists rest. rewrite Hmid. exact Hrest.
  - intros (tok & Hin & [rest Hrest]).
    destruct (lit tok title) as [mid|] eqn:Hmid; [|done].
    exists rest, mid. eauto.
Qed.

(** *** Case folding on ASCII *)

Lemma toUpper_inv b c : toUpper b = c → b = c ∨ b = toLower c.
Proof.
  intros <-. destruct b as [[] [] [] [] [] [] [] []]; vm_compute; auto.
Qed.

Lemma stripAny_orbit_fold a b s :
  toUpper a = toUpper b → stripAny (orbit a) (String b s) = Some s.
Proof.
  intros [->| ->]%eq_sym%toUpper_inv;
    destruct a as [[] [] [] [] [] [] [] []]; reflexivity.
Qed.

Lemma hasPrefixNoCase_Fold p s :
  hasPrefixNoCase p s = true → hasPrefixFold p s.
Proof.
  unfold hasPrefixFold. revert s.
  induction p as [|a p IH]; intros s; [by eauto|].
  destruct s as [|b s]; [done|]. simpl.
  intros [Hc Hp]%andb_prop. apply Ascii.eqb_eq in Hc.
  rewrite stripAny_orbit_fold by done. by apply IH.
Qed.


Lemma stripAny_orbit_ascii a b s rest :
  (nat_of_ascii b <? 128)%nat = true →
  stripAny (orbit a) (String b s) = Some rest →
  rest = s ∧ toUpper a = toUpper b.
Proof.
  intros Hb H.
  destruct a as [[] [] [] [] [] [] [] []];
    match type of H with
    | context [orbit ?a] =>
        let o := eval vm_compute in (orbit a) in
        change (orbit a) with o in H
    end;
    cbn [stripAny stripPrefix] in H;
    repeat match type of H with
           | context [Ascii.eqb ?x b] =>
               destruct (Ascii.eqb_spec x b) as [<-|?]
           end;
    try discriminate H; try discriminate Hb;
    injection H as <-; split; reflexivity.
Qed.

Lemma stripAny_orbit_empty a : stripAny (orbit a) "" = None.
Proof. destruct a as [[] [] [] [] [] [] [] []]; reflexivity. Qed.

Lemma hasPrefixFold_ascii p s :
  isASCII s = true → hasPrefixFold p s → hasPrefixNoCase p s = true.
Proof.
  unfold hasPrefixFold. revert s.
  induction p as [|a p IH]; intros s Hs [rest H]; [done|].
  simpl in H. destruct s as [|b s].
  { by rewrite stripAny_orbit_empty in H. }
  simpl in Hs. apply andb_prop in Hs as [Hb Hs].
  destruct (stripAny (orbit a) (String b s)) as [mid|] eqn:Hmid; [|done].
  apply stripAny_orbit_ascii in Hmid as [-> Hc]; [|done].
  simpl. rewrite Hc, Ascii.eqb_refl. simpl. apply IH; eauto.
Qed.

(** The long s is a lower-case form of [S], and the patterns take it. *)
Example long_s_matches :
  let title := "te" +:+ longS +:+ "t: fold" in
  Labels (autoLabel (mkIssue 1 title statusOpen [] 0)) = ["testing"]
  ∧ hasPrefixNoCase "TEST:" title = false.
Proof. vm_compute. done. Qed.
End patterns.

(** ** The label set *)

Section label_set.

Implicit Types (labelSet : gmap string bool) (l : string).

Lemma labelSetGet_insert labelSet k l :
  labelSetGet (<[k := true]> labelSet) l = true
  ↔ k = l ∨ labelSetGet labelSet l = true.
Proof.
  unfold labelSetGet. rewrite lookup_insert. case_decide; naive_solver.
Qed.

Lemma labelSetGet_foldl labels labelSet l :
  labelSetGet (foldl (λ m k, <[k := true]> m) labelSet labels) l = true
  ↔ labelSetGet labelSet l = true ∨ l ∈ labels.
Proof.
  revert labelSet. induction labels as [|k labels IH]; intros labelSet; simpl.
  - rewrite elem_of_nil. tauto.
  - rewrite IH, labelSetGet_insert, elem_of_cons. naive_solver.
Qed.

Lemma labelSetOf_spec labels l :
  labelSetGet (labelSetOf labels) l = true ↔ l ∈ labels.
Proof.
  unfold labelSetOf. rewrite labelSetGet_foldl.
  unfold labelSetGet. rewrite lookup_empty. naive_solver.
Qed.

End label_set.

(** ** The loop over the patterns *)

Lemma elem_of_matching title pats l :
  l ∈ matching title pats
  ↔ ∃ lp, lp ∈ pats ∧ MatchString (Pattern lp) title = true ∧ Label lp = l.
Proof.
  unfold matching. rewrite list_elem_of_fmap. split.
  - intros (lp & -> & Hin). apply list_elem_of_In, filter_In in Hin.
    exists lp. rewrite list_elem_of_In. tauto.
  - intros (lp & Hin & Hm & <-). exists lp. split; [done|].
    apply list_elem_of_In, filter_In. by rewrite <- list_elem_of_In.
Qed.

(** The loop keeps [labelSet] the set of [labels], appends to [labels]
    and appends nothing twice. *)
Lemma labelLoop_spec title pats labels labelSet :
  (∀ l, labelSetGet labelSet l = true ↔ l ∈ labels) →
  ∃ added,
    (labelLoop title pats labels labelSet).1 = labels ++ added
    ∧ NoDup added
    ∧ (∀ l, l ∈ added ↔ l ∉ labels ∧ l ∈ matching title pats).
Proof.
  revert labels labelSet.
  induction pats as [|lp pats IH]; intros labels labelSet Hset; simpl.
  - exists []. rewrite app_nil_r. split_and!; [done | constructor |].
    intros l. unfold matching. simpl. rewrite !elem_of_nil. tauto.
  - unfold matching. simpl.
    destruct (MatchString (Pattern lp) title) eqn:Hm; simpl.
    + destruct (labelSetGet labelSet (Label lp)) eqn:Hget; simpl.
      * destruct (IH labels labelSet Hset) as (added & -> & Hnd & Hin).
        exists added. split_and!; [done..|].
        intros l. rewrite Hin, elem_of_cons. unfold matching.
        apply Hset in Hget. naive_solver.
      * assert (Label lp ∉ labels) as Hfresh.
        { rewrite <- Hset. by rewrite Hget. }
        destruct (IH (labels ++ [Label lp]) (<[Label lp := true]> labelSet))
          as (added & -> & Hnd & Hin).
        { intros l. rewrite labelSetGet_insert, elem_of_app, Hset.
          rewrite list_elem_of_singleton. naive_solver. }
        exists (Label lp :: added). rewrite <- app_assoc. simpl.
        split_and!; [done | |].
        -- constructor; [|done]. rewrite Hin, elem_of_app.
           rewrite list_elem_of_singleton. naive_solver.
        -- intros l. rewrite !elem_of_cons, Hin, elem_of_app.
           rewrite list_elem_of_singleton. unfold matching.
           destruct (decide (l = Label lp)) as [->|]; naive_solver.
    + destruct (IH labels labelSet Hset) as (added & -> & Hnd & Hin).
      exists added. split_and!; [done..|].
      intros l. rewrite Hin. done.
Qed.

(** ** [autoLabel] *)

Lemma autoLabel_Labels issue :
  ∃ added,
    Labels (autoLabel issue) = sortStrings (Labels issue ++ added)
    ∧ NoDup added
    ∧ (∀ l, l ∈ added
            ↔ l ∉ Labels issue
              ∧ l ∈ matching (Title issue) defaultLabelPatterns).
Proof.
  destruct (labelLoop_spec (Title issue) defaultLabelPatterns (Labels issue)
              (labelSetOf (Labels issue))) as (added & Heq & Hnd & Hin).
  { apply labelSetOf_spec. }
  exists added. unfold autoLabel. by rewrite Heq.
Qed.

Lemma autoLabel_frame issue :
  ID (autoLabel issue) = ID issue
  ∧ Title (autoLabel issue) = Title issue
  ∧ Status (autoLabel issue) = Status issue
  ∧ CreatedAt (autoLabel issue) = CreatedAt issue.
Proof. done. Qed.

Lemma autoLabel_elem_of issue l :
  l ∈ Labels (autoLabel issue)
  ↔ l ∈ Labels issue ∨ l ∈ matching (Title issue) defaultLabelPatterns.
Proof.
  destruct (autoLabel_Labels issue) as (added & -> & _ & Hin).
  rewrite sortStrings_elem_of, elem_of_app, Hin.
  destruct (decide (l ∈ Labels issue)); naive_solver.
Qed.

Lemma autoLabel_Sorted issue : Sorted String.le (Labels (autoLabel issue)).
Proof.
  destruct (autoLabel_Labels issue) as (added & -> & _).
  apply sortStrings_Sorted.
Qed.

Lemma autoLabel_NoDup issue :
  NoDup (Labels issue) → NoDup (Labels (autoLabel issue)).
Proof.
  intros Hnd. destruct (autoLabel_Labels issue) as (added & -> & Hadd & Hin).
  rewrite sortStrings_NoDup. apply NoDup_app. split_and!; [done | | done].
  intros l Hl Hl'. apply Hin in Hl'. tauto.
Qed.

Lemma autoLabel_fixed issue :
  Sorted String.le (Labels issue) →
  (∀ l, l ∈ matching (Title issue) defaultLabelPatterns → l ∈ Labels issue) →
  autoLabel issue = issue.
Proof.
  intros Hs Hall.
  destruct (autoLabel_Labels issue) as (added & Heq & _ & Hin).
  assert (added = []) as ->.
  { destruct added as [|l added]; [done|].
    destruct (Hin l) as [[Hn Hm] _]; [left|]. destruct Hn. by apply Hall. }
  rewrite app_nil_r, sortStrings_sorted in Heq by done.
  destruct issue as [id title status labels created].
  unfold autoLabel in *. cbn [Labels ID Title Status CreatedAt] in *.
  by rewrite Heq.
Qed.

(** Each rule of the table, read three ways. *)
Lemma prefixRule_table w ws title :
  (MatchString (prefixRule w ws) title = true
   ↔ ∃ tok, tok ∈ w :: ws ∧ hasPrefixFold (tok +:+ ":") title)
  ∧ ((∃ tok, tok ∈ w :: ws ∧ hasPrefixNoCase (tok +:+ ":") title = true)
     → MatchString (prefixRule w ws) title = true)
  ∧ (isASCII title = true →
     MatchString (prefixRule w ws) title = true →
     ∃ tok, tok ∈ w :: ws ∧ hasPrefixNoCase (tok +:+ ":") title = true).
Proof.
  rewrite MatchString_prefixRule. split_and!; [done | |].
  - intros (tok & Hin & Hp). exists tok.
    split; [done|]. by apply hasPrefixNoCase_Fold.
  - intros Ha (tok & Hin & Hp). exists tok.
    split; [done|]. by apply hasPrefixFold_ascii.
Qed.

(** C3. The auto-labeler leaves the title (and the id, the status and the
    creation time) as they are; the labels afterwards are exactly the labels
    before together with the label of every rule that matches the title; a
    label is added once and only when it is not there yet, so a
    duplicate-free label set stays duplicate-free; the labels come out
    sorted ascending byte by byte. Rule by rule, the patterns are the table
    BUG/FIX/BUGFIX -> bug, FEAT/FEATURE -> feature, DOCS/DOCUMENTATION ->
    documentation, REFACTOR -> refactor, TEST/TESTS -> testing, CHORE ->
    chore: a rule matches exactly the titles that start with one of its
    tokens followed by a colon, letters compared up to case folding; every
    title starting with an ASCII upper/lower-case variant of such a prefix
    matches, and for a title of ASCII bytes only nothing else does. *)
Theorem autoLabel_applies_rules (issue : Issue) :
  Title (autoLabel issue) = Title issue
  ∧ ID (autoLabel issue) = ID issue
  ∧ Status (autoLabel issue) = Status issue
  ∧ CreatedAt (autoLabel issue) = CreatedAt issue
  ∧ (∀ l, l ∈ Labels (autoLabel issue)
          ↔ l ∈ Labels issue
            ∨ ∃ lp, lp ∈ defaultLabelPatterns
                    ∧ MatchString (Pattern lp) (Title issue) = true
                    ∧ Label lp = l)
  ∧ (∃ added, Labels (autoLabel issue) ≡ₚ Labels issue ++ added
              ∧ NoDup added ∧ ∀ l, l ∈ added → l ∉ Labels issue)
  ∧ (NoDup (Labels issue) → NoDup (Labels (autoLabel issue)))
  ∧ Sorted String.le (Labels (autoLabel issue))
  ∧ Forall2
      (λ lp row,
         Label lp = row.2
         ∧ ∀ title,
             (MatchString (Pattern lp) title = true
              ↔ ∃ tok, tok ∈ row.1 ∧ hasPrefixFold (tok +:+ ":") title)
             ∧ ((∃ tok, tok ∈ row.1
                        ∧ hasPrefixNoCase (tok +:+ ":") title = true)
                → MatchString (Pattern lp) title = true)
             ∧ (isASCII title = true →
                MatchString (Pattern lp) title = true →
                ∃ tok, tok ∈ row.1
                       ∧ hasPrefixNoCase (tok +:+ ":") title = true))
      defaultLabelPatterns ruleTable.
Proof.
  destruct (autoLabel_frame issue) as (Hid & Htitle & Hstatus & Hcreated).
  split_and!; try done.
  - intros l. rewrite autoLabel_elem_of. by rewrite elem_of_matching.
  - destruct (autoLabel_Labels issue) as (added & -> & Hnd & Hin).
    exists added. split_and!; [apply sortStrings_Permutation | done |].
    intros l Hl. by apply Hin in Hl as [? _].
  - apply autoLabel_NoDup.
  - apply autoLabel_Sorted.
  - unfold defaultLabelPatterns, ruleTable.
    repeat (apply Forall2_cons; split;
            [split; [reflexivity | intros title; apply prefixRule_table]|]).
    apply Forall2_nil_2.
Qed.

Lemma autoLabel_applies_rules_witness :
  NoDup (Labels (mkIssue 7 "Fix: typo in help" statusOpen ["ui"] 0))
  ∧ NoDup (Labels (autoLabel
                     (mkIssue 7 "Fix: typo in help" statusOpen ["ui"] 0)))
  ∧ Labels (autoLabel (mkIssue 7 "Fix: typo in help" statusOpen ["ui"] 0))
    = ["bug"; "ui"].
Proof.
  split; [apply NoDup_singleton|]. split; [|reflexivity].
  destruct (autoLabel_applies_rules
              (mkIssue 7 "Fix: typo in help" statusOpen ["ui"] 0))
    as (_ & _ & _ & _ & _ & _ & H & _).
  apply H, NoDup_singleton.
Defined.

(** C6. Running the auto-labeler on an issue it has already labelled
    changes nothing: the label set after two runs is the sorted label set
    after one run, whatever the title and the labels at the start. *)
Theorem autoLabel_idempotent (issue : Issue) :
  autoLabel (autoLabel issue) = autoLabel issue
  ∧ Labels (autoLabel (autoLabel issue)) = Labels (autoLabel issue)
  ∧ Sorted String.le (Labels (autoLabel issue)).
Proof.
  assert (autoLabel (autoLabel issue) = autoLabel issue) as Heq.
  { apply autoLabel_fixed; [apply autoLabel_Sorted|].
    intros l Hl. apply autoLabel_elem_of. by right. }
  split_and!; [done | by rewrite Heq | apply autoLabel_Sorted].
Qed.

(** ** The strings of the database file *)

Section json_strings.

Import Utf8 Json.

Lemma coerceFrom_app p s :
  coerceFrom (String.length p) (p +:+ s) = p +:+ coerceFrom 0 s.
Proof. induction p as [|b p IH]; simpl; [done|]. by rewrite IH. Qed.

(** The width of an encoding depends on its own bytes only. *)
Lemma width_Some s n :
  width s = Some n →
  ∃ b p r, s = String b (p +:+ r) ∧ String.length p = Nat.pred n
           ∧ ∀ t, width (String b (p +:+ t)) = Some n.
Proof.
  destruct s as [|b0 s1]; [done|]. unfold width.
  destruct (nat_of_ascii b0 <? 128)%nat eqn:H0.
  { intros [= <-]. exists b0, "", s1. split_and!; [done..|].
    intros t. unfold width. by rewrite H0. }
  destruct (between 194 223 b0) eqn:H1.
  { destruct s1 as [|b1 s2]; [done|].
    destruct (second b0 b1) eqn:H2; [|done].
    intros [= <-]. exists b0, (String b1 ""), s2. split_and!; [done..|].
    intros t. unfold width. simpl. by rewrite H0, H1, H2. }
  destruct (between 224 239 b0) eqn:H2.
  { destruct s1 as [|b1 [|b2 s3]]; [done..|].
    destruct (second b0 b1 && continuation b2) eqn:H3; [|done].
    intros [= <-]. exists b0, (String b1 (String b2 "")), s3.
    split_and!; [done..|].
    intros t. unfold width. simpl. by rewrite H0, H1, H2, H3. }
  destruct (between 240 244 b0) eqn:H3; [|done].
  destruct s1 as [|b1 [|b2 [|b3 s4]]]; [done..|].
  destruct (second b0 b1 && continuation b2 && continuation b3) eqn:H4;
    [|done].
  intros [= <-]. exists b0, (String b1 (String b2 (String b3 ""))), s4.
  split_and!; [done..|].
  intros t. unfold width. simpl. by rewrite H0, H1, H2, H3, H4.
Qed.

Lemma coerce_cons b s :
  coerce (String b s)
  = match width (String b s) with
    | Some n => String b (coerceFrom (Nat.pred n) s)
    | None => replacement +:+ coerce s
    end.
Proof. done. Qed.

(** A well-formed encoding is copied. *)
Lemma coerce_encoding b p r n :
  String.length p = Nat.pred n → width (String b (p +:+ r)) = Some n →
  coerce (String b (p +:+ r)) = String b (p +:+ coerce r).
Proof.
  intros Hlen Hw. rewrite coerce_cons, Hw, <- Hlen. by rewrite coerceFrom_app.
Qed.

Lemma replacement_app s :
  replacement +:+ s
  = String (ascii_of_nat 239)
           (String (ascii_of_nat 191) (String (ascii_of_nat 189) s)).
Proof. done. Qed.

Lemma coerce_replacement s :
  coerce (replacement +:+ s) = replacement +:+ coerce s.
Proof. done. Qed.

Lemma string_length_app (p s : string) :
  String.length (p +:+ s) = (String.length p + String.length s)%nat.
Proof. induction p as [|b p IH]; simpl; [done|]. by rewrite IH. Qed.

(** What has been coerced once is not changed by a second time: a file the
    program has written is read back as it was written. *)
Lemma coerce_idemp s : coerce (coerce s) = coerce s.
Proof.
  remember (String.length s) as k eqn:Hk.
  revert s Hk. induction (lt_wf k) as [k _ IH]. intros s ->.
  destruct s as [|b s]; [done|].
  destruct (width (String b s)) as [n|] eqn:Hw.
  - destruct (width_Some _ _ Hw) as (b' & p & r & Heq & Hlen & Hall).
    simplify_eq.
    rewrite (coerce_encoding _ _ _ _ Hlen Hw).
    rewrite (coerce_encoding _ _ _ _ Hlen (Hall _)).
    rewrite (IH (String.length r)); [done| |done].
    simpl. rewrite string_length_app. lia.
  - rewrite coerce_cons, Hw, coerce_replacement.
    rewrite (IH (String.length s)); [done| simpl; lia |done].
Qed.

Lemma coerce_empty s : coerce s = "" ↔ s = "".
Proof.
  split; [|by intros ->]. destruct s as [|b s]; [done|].
  rewrite coerce_cons. by destruct (width (String b s)).
Qed.

Lemma validFrom_coerceFrom k s :
  validFrom k s = true → coerceFrom k s = s.
Proof.
  revert k. induction s as [|b s IH]; intros k; [done|].
  destruct k as [|k]; cbn [validFrom coerceFrom].
  - destruct (width (String b s)); [|done]. intros Hv. by rewrite IH.
  - intros Hv. by rewrite IH.
Qed.

(** A string that is valid UTF-8 is written and read as it is. *)
Lemma coerce_valid s : ValidString s = true → coerce s = s.
Proof. apply validFrom_coerceFrom. Qed.

Lemma coerceFrom_validFrom k s :
  coerceFrom k s = s → validFrom k s = true.
Proof.
  revert k. induction s as [|b s IH]; intros k; [done|].
  destruct k as [|k]; cbn [validFrom coerceFrom].
  - destruct (width (String b s)) eqn:Hw.
    + intros [= Heq]. by apply IH.
    + intros [= Hb Heq]. exfalso. subst b.
      destruct s as [|b1 [|b2 s]]; [done..|]. injection Heq as <- <- _.
      by vm_compute in Hw.
  - intros [= Heq]. by apply IH.
Qed.

(** The strings [json] leaves alone are the valid ones. *)
Lemma coerce_fixed s : coerce s = s ↔ ValidString s = true.
Proof. split; [apply coerceFrom_validFrom | apply coerce_valid]. Qed.

Lemma coerce_is_valid s : ValidString (coerce s) = true.
Proof. apply coerce_fixed, coerce_idemp. Qed.

Lemma isASCII_valid s : isASCII s = true → ValidString s = true.
Proof.
  induction s as [|b s IH]; [done|]. simpl.
  intros [Hb Hs]%andb_prop. unfold ValidString.
  cbn [validFrom]. unfold width. rewrite Hb. by apply IH.
Qed.

Lemma coerce_ascii s : isASCII s = true → coerce s = s.
Proof. intros. by apply coerce_valid, isASCII_valid. Qed.

(** What becomes of a byte that starts no encoding, of an overlong
    encoding, of an encoding that is cut short and of a surrogate; a
    well-formed encoding, here of U+212A, stays. *)
Example coerce_samples :
  coerce (String (Fold.byte 255) "a") = replacement +:+ "a"
  ∧ coerce (String (Fold.byte 192) (String (Fold.byte 128) ""))
    = replacement +:+ replacement
  ∧ coerce (String (Fold.byte 226) (String (Fold.byte 132) ""))
    = replacement +:+ replacement
  ∧ coerce (String (Fold.byte 237)
                   (String (Fold.byte 160) (String (Fold.byte 128) "")))
    = replacement +:+ replacement +:+ replacement
  ∧ coerce Fold.kelvin = Fold.kelvin.
Proof. vm_compute. done. Qed.

Lemma coerceIssue_idemp issue :
  coerceIssue (coerceIssue issue) = coerceIssue issue.
Proof.
  unfold coerceIssue. simpl. rewrite !coerce_idemp. f_equal.
  rewrite <- list_fmap_compose. apply list_fmap_ext. intros _ l _. simpl.
  apply coerce_idemp.
Qed.

Lemma coerceIssue_fmap_idemp (issues : list Issue) :
  coerceIssue <$> (coerceIssue <$> issues) = coerceIssue <$> issues.
Proof.
  rewrite <- list_fmap_compose. apply list_fmap_ext. intros _ i _. simpl.
  apply coerceIssue_idemp.
Qed.

Lemma coerceIssue_setStatus issue :
  coerceIssue issue = issue →
  coerceIssue (setStatus statusClosed issue) = setStatus statusClosed issue.
Proof.
  destruct issue as [id title status labels created].
  unfold coerceIssue, setStatus. simpl. intros [= Ht Hs Hl].
  by rewrite Ht, Hl.
Qed.

Lemma coerceIssue_fmap_app_inv (l1 l2 : list Issue) :
  coerceIssue <$> (l1 ++ l2) = l1 ++ l2 →
  coerceIssue <$> l1 = l1 ∧ coerceIssue <$> l2 = l2.
Proof.
  rewrite fmap_app. intros Heq.
  apply app_inj_1 in Heq; [done|]. by rewrite length_fmap.
Qed.

(** Closing an issue of a store that has been read leaves a store that
    is written as it is. *)
Lemma coerced_close pre x post :
  coerceIssue <$> (pre ++ x :: post) = pre ++ x :: post →
  coerceIssue <$> (pre ++ setStatus statusClosed x :: post)
  = pre ++ setStatus statusClosed x :: post.
Proof.
  intros [Hpre Hpost]%coerceIssue_fmap_app_inv.
  rewrite fmap_cons in Hpost. injection Hpost as Hx Hpost.
  rewrite fmap_app, fmap_cons, Hpre, Hpost.
  by rewrite coerceIssue_setStatus.
Qed.

Lemma fmap_fixed {A} (f : A → A) (l : list A) :
  (∀ x, x ∈ l → f x = x) → f <$> l = l.
Proof.
  induction l as [|x l IH]; intros Hall; [done|].
  rewrite fmap_cons, Hall, IH; [done | | left].
  intros y Hy. apply Hall. by right.
Qed.

(** The labels of the rules are ASCII. *)
Lemma matching_label_coerce title l :
  l ∈ matching title defaultLabelPatterns → coerce l = l.
Proof.
  unfold matching.
  assert (Forall (λ lp, coerce (Label lp) = Label lp) defaultLabelPatterns)
    as Hall by (repeat constructor).
  induction Hall as [|lp pats Hlp _ IH]; [by intros ?%elem_of_nil|].
  cbn [List.filter]. destruct (MatchString (Pattern lp) title); [|done].
  cbn [fmap list_fmap]. intros [->|Hl]%elem_of_cons; auto.
Qed.

End json_strings.

(** ** The store *)

Section store.

Lemma storeOf_repoFound w issues : storeOf w = Some issues → repoFound w = true.
Proof. unfold storeOf. by destruct (repoFound w). Qed.

Lemma loadIssues_storeOf w issues :
  storeOf w = Some issues → loadIssues w = (Done issues, w).
Proof.
  unfold storeOf, loadIssues, getDBPath, bind, ask, ret, fatal.
  destruct (repoFound w); [|done].
  destruct (dbFile w); intros; by simplify_eq.
Qed.

(** [storeOf] is defined exactly where [loadIssues] succeeds. *)
Lemma storeOf_loadIssues w issues :
  result loadIssues w = Done issues → storeOf w = Some issues.
Proof.
  unfold result, storeOf, loadIssues, getDBPath, bind, ask, ret, fatal.
  destruct (repoFound w); [|done].
  destruct (dbFile w); simpl; intros; by simplify_eq.
Qed.

Lemma loadIssues_pure w : after loadIssues w = w.
Proof.
  unfold after, loadIssues, getDBPath, bind, ask, ret, fatal.
  destruct (repoFound w); [|done]. by destruct (dbFile w).
Qed.

(** What [loadIssues] yields has been coerced, and is not changed by
    being written and read again. *)
Lemma storeOf_coerced w issues :
  storeOf w = Some issues → Json.coerceIssue <$> issues = issues.
Proof.
  unfold storeOf. destruct (repoFound w); [|done].
  destruct (dbFile w); intros; simplify_eq; [done|].
  apply coerceIssue_fmap_idemp.
Qed.

(** A title that is not valid UTF-8 in the file is read with U+FFFD in
    the place of the offending byte. *)
Example loadIssues_invalid_title :
  result loadIssues
         (worldWith [mkIssue 1 (String (ascii_of_nat 255) "x") statusOpen [] 0])
  = Done [mkIssue 1 (Json.replacement +:+ "x") statusOpen [] 0].
Proof. vm_compute. reflexivity. Qed.

(** [saveIssues] in a repository: one write, which the disk decides. *)
Lemma saveIssues_run w issues :
  repoFound w = true →
  saveIssues issues w =
    let w1 := emit (EvWriteFile issues) w in
    match disk w with
    | Written => (Done (), setDBFile (Holds (Json.coerceIssue <$> issues)) w1)
    | WriteRefused => (Fatal StoreUnwritable, w1)
    | WriteTorn => (Fatal StoreUnwritable, setDBFile Garbage w1)
    end.
Proof.
  intros Hrepo.
  unfold saveIssues, getDBPath, bind, ask, ret, fatal, perform.
  rewrite Hrepo. simpl. by destruct (disk w).
Qed.

End store.

(** ** [addIssue] *)

Lemma maxIDLoop_spec issues maxID :
  let m := maxIDLoop issues maxID in
  maxID ≤ m
  ∧ (∀ issue, issue ∈ issues → ID issue ≤ m)
  ∧ (m = maxID ∨ m ∈ ID <$> issues).
Proof.
  revert maxID. induction issues as [|issue issues IH]; intros maxID; simpl.
  - split_and!; [lia | by intros ? ?%elem_of_nil | by left].
  - destruct (bool_decide (ID issue > maxID)) eqn:Hd;
      [apply bool_decide_eq_true in Hd | apply bool_decide_eq_false in Hd].
    + destruct (IH (ID issue)) as (Hle & Hall & Hin).
      split_and!; [lia | |].
      * intros i [->|Hi]%elem_of_cons; [lia | by apply Hall].
      * destruct Hin as [->|Hin]; right; [left | by right].
    + destruct (IH maxID) as (Hle & Hall & Hin).
      split_and!; [lia | |].
      * intros i [->|Hi]%elem_of_cons; [lia | by apply Hall].
      * destruct Hin as [->|Hin]; [by left | right; by right].
Qed.

Lemma maxIDLoop_max issues m :
  isMaxID m issues → maxIDLoop issues 0 = Z.max 0 m.
Proof.
  intros [Hin Hmax].
  destruct (maxIDLoop_spec issues 0) as (Hle & Hall & Hor).
  apply list_elem_of_fmap in Hin as (i & -> & Hi).
  pose proof (Hall i Hi).
  destruct Hor as [Hor|Hor]; [lia|].
  apply list_elem_of_fmap in Hor as (j & Hj & Hjin). apply Hmax in Hjin. lia.
Qed.

Lemma newIssueFor_fields issues title now :
  ID (newIssueFor issues title now) = GoInt.add (maxIDLoop issues 0) 1
  ∧ Title (newIssueFor issues title now) = title
  ∧ Status (newIssueFor issues title now) = statusOpen
  ∧ CreatedAt (newIssueFor issues title now) = now.
Proof. done. Qed.

(** [addIssue] on a store that loads: the new issue is appended and the
    whole store is written once. *)
Lemma addIssue_run w title issues :
  title ≠ "" → storeOf w = Some issues →
  addIssue title w =
    let new := newIssueFor issues title (clock w) in
    (do _ <- saveIssues (issues ++ [new]);
     println (MsgAdded (ID new) (Title new) (Labels new))) w.
Proof.
  intros Ht Hs. unfold addIssue. rewrite bool_decide_eq_false_2 by done.
  unfold bind at 1. rewrite (loadIssues_storeOf _ _ Hs). done.
Qed.

Lemma writesOf_app e1 e2 : writesOf (e1 ++ e2) = writesOf e1 ++ writesOf e2.
Proof. apply omap_app. Qed.

(** The new issue as the file has it: only the title can have changed. *)
Lemma newIssueFor_coerced issues title now :
  let new := newIssueFor issues title now in
  Json.coerceIssue new
  = mkIssue (ID new) (Json.coerce title) statusOpen (Labels new) now.
Proof.
  intros new. unfold Json.coerceIssue.
  destruct (newIssueFor_fields issues title now) as (_ & Ht & Hst & Hc).
  fold new in Ht, Hst, Hc. rewrite Ht, Hst, Hc.
  rewrite (fmap_fixed Json.coerce (Labels new)); [done|].
  intros l [Hl|Hl]%autoLabel_elem_of; [by apply elem_of_nil in Hl|].
  by apply matching_label_coerce in Hl.
Qed.

(** What [addIssue] writes, and what becomes of the file. *)
Lemma addIssue_effect w title issues :
  title ≠ "" → storeOf w = Some issues →
  let new := newIssueFor issues title (clock w) in
  let w' := after (addIssue title) w in
  writesOf (trace w') = writesOf (trace w) ++ [issues ++ [new]]
  ∧ (disk w = Written →
     result (addIssue title) w = Done ()
     ∧ dbFile w' = Holds (issues ++ [Json.coerceIssue new]))
  ∧ (disk w ≠ Written → result (addIssue title) w = Fatal StoreUnwritable).
Proof.
  intros Ht Hs new w'. subst w'. unfold after, result.
  rewrite (addIssue_run _ _ _ Ht Hs). fold new. clearbody new.
  unfold bind. rewrite saveIssues_run by eauto using storeOf_repoFound.
  rewrite fmap_app, (storeOf_coerced _ _ Hs).
  destruct (disk w); simpl; rewrite !writesOf_app; simpl;
    rewrite ?app_nil_r; split_and!; done.
Qed.

Example addIssue_id_after_maxInt :
  writesOf (trace (after (addIssue "next") (worldWith fullStore)))
  = [fullStore ++ [mkIssue GoInt.minInt "next" statusOpen [] 0]].
Proof. vm_compute. reflexivity. Qed.

(** The search for the largest id starts from 0, so ids below 1 in the
    file do not count. *)
Example addIssue_id_after_negative :
  writesOf (trace (after (addIssue "next")
                         (worldWith [mkIssue (-5) "odd" statusOpen [] 0])))
  = [[mkIssue (-5) "odd" statusOpen [] 0;
      mkIssue 1 "next" statusOpen [] 0]].
Proof. vm_compute. reflexivity. Qed.

(** A title with a byte that is no UTF-8 is printed as it was given, and
    is in the file with U+FFFD in the place of that byte. *)
Example addIssue_invalid_title :
  let title := String (ascii_of_nat 255) "x" in
  writesOf (trace (after (addIssue title) emptyWorld))
  = [[mkIssue 1 title statusOpen [] 0]]
  ∧ dbFile (after (addIssue title) emptyWorld)
    = Holds [mkIssue 1 (Json.replacement +:+ "x") statusOpen [] 0].
Proof. vm_compute. done. Qed.

(** ** [listIssues] *)

Lemma labelFound_spec filterLabel labels :
  labelFound filterLabel labels = true ↔ filterLabel ∈ labels.
Proof.
  induction labels as [|label labels IH]; simpl.
  - rewrite elem_of_nil. naive_solver.
  - rewrite elem_of_cons. case_bool_decide; naive_solver.
Qed.

Lemma listLoop_rows filterLabel showClosed issues rows count :
  (listLoop filterLabel showClosed issues rows count).1
  = rows ++ filter (listed filterLabel showClosed) issues.
Proof.
  revert rows count.
  induction issues as [|issue issues IH]; intros rows count; simpl.
  - by rewrite app_nil_r.
  - rewrite filter_cons.
    destruct (negb showClosed && bool_decide (Status issue = statusClosed))
      eqn:Hclosed.
    { apply andb_prop in Hclosed as [Hs%negb_true_iff Hc%bool_decide_eq_true].
      rewrite decide_False; [apply IH|]. unfold listed. naive_solver. }
    destruct (bool_decide (filterLabel ≠ "")
              && negb (labelFound filterLabel (Labels issue))) eqn:Hlabel.
    { apply andb_prop in Hlabel
        as [Hne%bool_decide_eq_true Hnf%negb_true_iff].
      rewrite decide_False; [apply IH|]. unfold listed.
      intros [_ [?|Hin%labelFound_spec]]; congruence. }
    rewrite decide_True, IH; [by rewrite <- app_assoc|].
    apply andb_false_iff in Hclosed, Hlabel. split.
    + destruct showClosed; [by left | right].
      destruct Hclosed as [?|Hc%bool_decide_eq_false]; done.
    + destruct Hlabel as [Hl%bool_decide_eq_false|Hl%negb_false_iff].
      * left. by destruct (decide (filterLabel = "")).
      * right. by apply labelFound_spec.
Qed.

Lemma listing_filter filterLabel showClosed issues :
  listing filterLabel showClosed issues
  = filter (listed filterLabel showClosed) issues.
Proof. unfold listing. by rewrite listLoop_rows. Qed.

Lemma printAll_run os w :
  printAll os w = (Done (), foldl (flip emit) w (EvPrint <$> os)).
Proof.
  revert w. induction os as [|o os IH]; intros w; [done|].
  simpl. unfold bind, println, perform. simpl. apply IH.
Qed.

Lemma foldl_emit es w :
  foldl (flip emit) w es
  = mkWorld (repoFound w) (dbFile w) (disk w) (clock w) (ghRepoView w)
            (ghAuthToken w) (environ w) (github w) (trace w ++ es).
Proof.
  revert w. induction es as [|e es IH]; intros w; simpl.
  - rewrite app_nil_r. by destruct w.
  - rewrite IH. unfold flip, emit. simpl. by rewrite <- app_assoc.
Qed.

Lemma rowsOf_app e1 e2 : rowsOf (e1 ++ e2) = rowsOf e1 ++ rowsOf e2.
Proof. apply omap_app. Qed.

Lemma rowsOf_rows issues : rowsOf (EvPrint <$> (MsgListRow <$> issues)) = issues.
Proof. induction issues; simpl; by f_equal. Qed.

Lemma writesOf_prints os : writesOf (EvPrint <$> os) = [].
Proof. induction os; simpl; done. Qed.

Lemma bind_Done {A B} (c : M A) (k : A → M B) w a w' :
  c w = (Done a, w') → bind c k w = k a w'.
Proof. unfold bind. by intros ->. Qed.

Lemma bind_Fatal {A B} (c : M A) (k : A → M B) w e w' :
  c w = (Fatal e, w') → bind c k w = (Fatal e, w').
Proof. unfold bind. by intros ->. Qed.

Lemma println_run o w : println o w = (Done (), emit (EvPrint o) w).
Proof. done. Qed.

(** [listIssues] on a store that loads: what it prints. *)
Lemma listIssues_run w filterLabel showClosed issues :
  storeOf w = Some issues →
  listIssues filterLabel showClosed w =
    let '(rows, count) := listLoop filterLabel showClosed issues [] 0 in
    (Done (),
     foldl (flip emit) w
       (EvPrint <$> [MsgListHeader] ++ (MsgListRow <$> rows)
                    ++ (if bool_decide (count = 0) then [MsgNoIssues] else [])
                    ++ [MsgListFooter])).
Proof.
  intros Hs. unfold listIssues.
  rewrite (bind_Done _ _ _ _ _ (loadIssues_storeOf _ _ Hs)).
  rewrite (bind_Done _ _ _ _ _ (println_run _ _)).
  destruct (listLoop filterLabel showClosed issues [] 0) as [rows count].
  rewrite (bind_Done _ _ _ _ _ (printAll_run _ _)).
  rewrite !fmap_app, !foldl_app. simpl.
  case_bool_decide.
  - by rewrite (bind_Done _ _ _ _ _ (println_run _ _)).
  - by rewrite (bind_Done _ _ _ () _ eq_refl).
Qed.

(** [listIssues] on a store that loads prints the rows of [listing] and
    touches nothing. *)
Lemma listIssues_effect w filterLabel showClosed issues :
  storeOf w = Some issues →
  let w' := after (listIssues filterLabel showClosed) w in
  result (listIssues filterLabel showClosed) w = Done ()
  ∧ rowsOf (trace w')
    = rowsOf (trace w) ++ listing filterLabel showClosed issues
  ∧ dbFile w' = dbFile w
  ∧ writesOf (trace w') = writesOf (trace w).
Proof.
  intros Hs. unfold after, result, listing.
  rewrite (listIssues_run _ _ _ _ Hs).
  destruct (listLoop filterLabel showClosed issues [] 0) as [rows count].
  rewrite foldl_emit. cbn [fst snd trace dbFile].
  rewrite rowsOf_app, writesOf_app, writesOf_prints, app_nil_r.
  split_and!; try done. f_equal.
  rewrite !fmap_app, !rowsOf_app, rowsOf_rows.
  case_bool_decide; simpl; by rewrite app_nil_r.
Qed.

Lemma listed_documented filterLabel showClosed issue :
  validStatus issue →
  listed filterLabel showClosed issue
  ↔ listedAsDocumented filterLabel showClosed issue.
Proof.
  unfold validStatus, listed, listedAsDocumented, statusOpen, statusClosed.
  intros [-> | ->]; naive_solver.
Qed.

Lemma filter_listed_documented filterLabel showClosed issues :
  Forall validStatus issues →
  filter (listed filterLabel showClosed) issues
  = filter (listedAsDocumented filterLabel showClosed) issues.
Proof.
  induction 1 as [|issue issues Hv _ IH]; [done|].
  rewrite !filter_cons, IH.
  destruct (decide (listed filterLabel showClosed issue)) as [Hl|Hl];
    [rewrite decide_True | rewrite decide_False];
    try done; by rewrite <- listed_documented.
Qed.

(** The listing keeps an issue whose status is neither "open" nor
    "closed" when closed issues are not asked for: the loop skips the
    closed ones, it does not select the open ones. *)
Lemma listIssues_keeps_odd_status :
  ¬ (∀ w filterLabel showClosed issues,
       storeOf w = Some issues →
       rowsOf (trace (after (listIssues filterLabel showClosed) w))
       = rowsOf (trace w)
         ++ filter (listedAsDocumented filterLabel showClosed) issues).
Proof.
  intros Hclaim.
  specialize (Hclaim (worldWith oddStatusStore) "" false oddStatusStore
                eq_refl).
  vm_compute in Hclaim. discriminate Hclaim.
Qed.

(** C4, amended. On a store that loads, the rows [listIssues] prints are
    exactly the issues of the store that are not closed, unless closed
    issues are asked for, and that carry the label asked for, if one is,
    compared as a whole and byte by byte; they come in the order of the
    store. When every status in the store is "open" or "closed", these are
    the issues that are open, unless closed ones are asked for, and carry
    the label. The file is not written. *)
Theorem listIssues_filters w filterLabel showClosed issues :
  storeOf w = Some issues →
  ∃ rows,
    rowsOf (trace (after (listIssues filterLabel showClosed) w))
    = rowsOf (trace w) ++ rows
    ∧ rows = filter (listed filterLabel showClosed) issues
    ∧ (∀ issue, issue ∈ rows
                ↔ issue ∈ issues
                  ∧ (showClosed = true ∨ Status issue ≠ statusClosed)
                  ∧ (filterLabel = "" ∨ filterLabel ∈ Labels issue))
    ∧ rows `sublist_of` issues
    ∧ (Forall validStatus issues →
       rows = filter (listedAsDocumented filterLabel showClosed) issues)
    ∧ dbFile (after (listIssues filterLabel showClosed) w) = dbFile w
    ∧ writesOf (trace (after (listIssues filterLabel showClosed) w))
      = writesOf (trace w).
Proof.
  intros Hs. exists (listing filterLabel showClosed issues).
  destruct (listIssues_effect w filterLabel showClosed issues Hs)
    as (_ & Hrows & Hdb & Hw).
  rewrite listing_filter.
  split_and!; [by rewrite <- listing_filter | done | | | | done | done].
  - intros issue. rewrite list_elem_of_filter. unfold listed. tauto.
  - apply sublist_filter.
  - apply filter_listed_documented.
Qed.

Lemma listIssues_filters_witness :
  ∃ rows,
    rowsOf (trace (after (listIssues "bug" false)
                         (worldWith [mkIssue 1 "BUG: a" statusOpen ["bug"] 0;
                                     mkIssue 2 "b" statusOpen [] 0;
                                     mkIssue 3 "FIX: c" statusClosed ["bug"] 0;
                                     mkIssue 4 "FIX: d" statusOpen ["bug"] 0])))
    = [] ++ rows
    ∧ rows = [mkIssue 1 "BUG: a" statusOpen ["bug"] 0;
              mkIssue 4 "FIX: d" statusOpen ["bug"] 0]
    ∧ rows = filter (listedAsDocumented "bug" false)
               [mkIssue 1 "BUG: a" statusOpen ["bug"] 0;
                mkIssue 2 "b" statusOpen [] 0;
                mkIssue 3 "FIX: c" statusClosed ["bug"] 0;
                mkIssue 4 "FIX: d" statusOpen ["bug"] 0].
Proof.
  destruct (listIssues_filters
              (worldWith [mkIssue 1 "BUG: a" statusOpen ["bug"] 0;
                          mkIssue 2 "b" statusOpen [] 0;
                          mkIssue 3 "FIX: c" statusClosed ["bug"] 0;
                          mkIssue 4 "FIX: d" statusOpen ["bug"] 0])
              "bug" false _ eq_refl) as (rows & Hrows & Heq & _ & _ & Hdoc & _).
  exists rows. split; [exact Hrows|]. split; [rewrite Heq; reflexivity|].
  apply Hdoc.
  repeat (apply Forall_cons; split; [first [by left | by right]|]).
  apply Forall_nil_2.
Defined.

(** ** [closeIssue] *)

Lemma setStatus_frame status issue :
  ID (setStatus status issue) = ID issue
  ∧ Title (setStatus status issue) = Title issue
  ∧ Labels (setStatus status issue) = Labels issue
  ∧ CreatedAt (setStatus status issue) = CreatedAt issue
  ∧ Status (setStatus status issue) = status.
Proof. done. Qed.

Lemma closeLoop_not_found id issues i rest :
  (∀ issue, issue ∈ rest → ID issue ≠ id) →
  closeLoop id issues i rest = ScanNotFound.
Proof.
  revert i. induction rest as [|issue rest IH]; intros i Hall; [done|].
  simpl. rewrite bool_decide_eq_false_2 by (apply Hall; left).
  apply IH. intros j Hj. apply Hall. by right.
Qed.

(** The loop stops at the first issue with the id. *)
Lemma closeLoop_found id issues i pre x post :
  (∀ issue, issue ∈ pre → ID issue ≠ id) → ID x = id →
  closeLoop id issues i (pre ++ x :: post) =
    if bool_decide (Status x = statusClosed) then ScanAlreadyClosed
    else ScanClosed (<[(i + length pre)%nat := setStatus statusClosed x]> issues).
Proof.
  revert i. induction pre as [|issue pre IH]; intros i Hall Hx; simpl.
  - rewrite bool_decide_eq_true_2 by done. by rewrite Nat.add_0_r.
  - rewrite bool_decide_eq_false_2 by (apply Hall; left).
    rewrite IH; [|intros j Hj; apply Hall; by right | done].
    by rewrite Nat.add_succ_r.
Qed.

Lemma insert_middle {A} (pre post : list A) x y :
  <[length pre := y]> (pre ++ x :: post) = pre ++ y :: post.
Proof. by rewrite insert_app_r_alt, Nat.sub_diag by lia. Qed.

(** [closeIssue] when no issue has the id. *)
Lemma closeIssue_not_found w idStr id issues :
  Strconv.Atoi idStr = Some id → storeOf w = Some issues →
  (∀ issue, issue ∈ issues → ID issue ≠ id) →
  closeIssue idStr w = (Fatal (IssueNotFound id), w).
Proof.
  intros Hid Hs Hall. unfold closeIssue. rewrite Hid.
  rewrite (bind_Done _ _ _ _ _ (loadIssues_storeOf _ _ Hs)).
  by rewrite closeLoop_not_found.
Qed.

(** [closeIssue] when the first issue with the id is [x]. *)
Lemma closeIssue_found w idStr id pre x post :
  Strconv.Atoi idStr = Some id → storeOf w = Some (pre ++ x :: post) →
  (∀ issue, issue ∈ pre → ID issue ≠ id) → ID x = id →
  closeIssue idStr w =
    if bool_decide (Status x = statusClosed)
    then println (MsgAlreadyClosed id) w
    else (do _ <- saveIssues (pre ++ setStatus statusClosed x :: post);
          println (MsgClosed id)) w.
Proof.
  intros Hid Hs Hall Hx. unfold closeIssue. rewrite Hid.
  rewrite (bind_Done _ _ _ _ _ (loadIssues_storeOf _ _ Hs)).
  rewrite closeLoop_found by done. simpl.
  case_bool_decide; [done|]. by rewrite insert_middle.
Qed.

(** An id that is in the store has a first issue carrying it. *)
Lemma first_with_id id (issues : list Issue) :
  id ∈ ID <$> issues →
  ∃ pre x post,
    issues = pre ++ x :: post ∧ ID x = id
    ∧ ∀ issue, issue ∈ pre → ID issue ≠ id.
Proof.
  induction issues as [|issue issues IH]; simpl.
  - by intros ?%elem_of_nil.
  - intros Hin. destruct (decide (ID issue = id)) as [Heq|Hne].
    + exists [], issue, issues. split_and!; [done..|].
      by intros ? ?%elem_of_nil.
    + apply elem_of_cons in Hin as [?|Hin]; [congruence|].
      destruct (IH Hin) as (pre & x & post & -> & Hx & Hpre).
      exists (issue :: pre), x, post. split_and!; [done..|].
      by intros j [->|Hj]%elem_of_cons; [|apply Hpre].
Qed.

(** C8. When the argument of [close] is a number and no issue of the
    store has it as its id, [closeIssue] ends in [IssueNotFound] for that
    id and leaves the world as it found it: the file is as before and no
    write has been attempted. *)
Theorem closeIssue_missing_id w idStr id issues :
  Strconv.Atoi idStr = Some id → storeOf w = Some issues →
  (∀ issue, issue ∈ issues → ID issue ≠ id) →
  result (closeIssue idStr) w = Fatal (IssueNotFound id)
  ∧ after (closeIssue idStr) w = w
  ∧ dbFile (after (closeIssue idStr) w) = dbFile w
  ∧ writesOf (trace (after (closeIssue idStr) w)) = writesOf (trace w).
Proof.
  intros Hid Hs Hall. unfold result, after.
  rewrite (closeIssue_not_found _ _ _ _ Hid Hs Hall). done.
Qed.

Lemma closeIssue_missing_id_witness :
  result (closeIssue "99")
         (worldWith [mkIssue 1 "a" statusOpen [] 0;
                     mkIssue 2 "b" statusClosed [] 0])
  = Fatal (IssueNotFound 99)
  ∧ dbFile (after (closeIssue "99")
                  (worldWith [mkIssue 1 "a" statusOpen [] 0;
                              mkIssue 2 "b" statusClosed [] 0]))
    = Holds [mkIssue 1 "a" statusOpen [] 0; mkIssue 2 "b" statusClosed [] 0].
Proof.
  destruct (closeIssue_missing_id
              (worldWith [mkIssue 1 "a" statusOpen [] 0;
                          mkIssue 2 "b" statusClosed [] 0])
              "99" 99 _ eq_refl eq_refl) as (Hr & _ & Hdb & _).
  - intros issue Hin.
    repeat (apply elem_of_cons in Hin as [->|Hin]); [done..|].
    by apply elem_of_nil in Hin.
  - split; [exact Hr | exact Hdb].
Defined.

(** What [closeIssue] does to the first issue with the id. *)
Lemma closeIssue_effect w idStr id pre x post :
  Strconv.Atoi idStr = Some id → storeOf w = Some (pre ++ x :: post) →
  (∀ issue, issue ∈ pre → ID issue ≠ id) → ID x = id →
  let w' := after (closeIssue idStr) w in
  let closed := pre ++ setStatus statusClosed x :: post in
  (Status x = statusClosed →
   result (closeIssue idStr) w = Done ()
   ∧ w' = emit (EvPrint (MsgAlreadyClosed id)) w)
  ∧ (Status x ≠ statusClosed →
     writesOf (trace w') = writesOf (trace w) ++ [closed]
     ∧ (disk w = Written →
        result (closeIssue idStr) w = Done () ∧ dbFile w' = Holds closed)
     ∧ (disk w ≠ Written →
        result (closeIssue idStr) w = Fatal StoreUnwritable)).
Proof.
  intros Hid Hs Hall Hx w' closed. subst w'. unfold after, result.
  rewrite (closeIssue_found _ _ _ _ _ _ Hid Hs Hall Hx). fold closed.
  split; intros Hst.
  - by rewrite bool_decide_eq_true_2.
  - rewrite bool_decide_eq_false_2 by done.
    unfold bind. rewrite saveIssues_run by eauto using storeOf_repoFound.
    assert (Json.coerceIssue <$> closed = closed) as ->
      by apply coerced_close, (storeOf_coerced _ _ Hs).
    destruct (disk w); simpl; rewrite !writesOf_app; simpl;
      rewrite ?app_nil_r; split_and!; done.
Qed.

(** C10. Let the argument of [close] be the number [id], and let [x] be
    the issue of the store the scan finds: the first one whose id is [id]
    (the only one, when ids are distinct). If [x] is open, [closeIssue]
    writes the store once, with [x] replaced in place by an issue that has
    the id, the title, the labels and the creation time of [x] and the
    status closed; the length and every other position are as before. If
    [x] is closed, nothing is written: the file is as before, and all the
    run does is print that the issue is already closed. *)
Theorem closeIssue_changes_only_status w idStr id pre x post :
  Strconv.Atoi idStr = Some id → storeOf w = Some (pre ++ x :: post) →
  (∀ issue, issue ∈ pre → ID issue ≠ id) → ID x = id →
  (Status x = statusOpen →
   ∃ x',
     writesOf (trace (after (closeIssue idStr) w))
     = writesOf (trace w) ++ [pre ++ x' :: post]
     ∧ (disk w = Written →
        result (closeIssue idStr) w = Done ()
        ∧ dbFile (after (closeIssue idStr) w) = Holds (pre ++ x' :: post))
     ∧ Status x' = statusClosed
     ∧ ID x' = ID x ∧ Title x' = Title x ∧ Labels x' = Labels x
     ∧ CreatedAt x' = CreatedAt x
     ∧ length (pre ++ x' :: post) = length (pre ++ x :: post)
     ∧ (pre ++ x' :: post) !! length pre = Some x'
     ∧ ∀ j, j ≠ length pre →
            (pre ++ x' :: post) !! j = (pre ++ x :: post) !! j)
  ∧ (Status x = statusClosed →
     result (closeIssue idStr) w = Done ()
     ∧ writesOf (trace (after (closeIssue idStr) w)) = writesOf (trace w)
     ∧ dbFile (after (closeIssue idStr) w) = dbFile w
     ∧ after (closeIssue idStr) w = emit (EvPrint (MsgAlreadyClosed id)) w).
Proof.
  intros Hid Hs Hall Hx.
  destruct (closeIssue_effect w idStr id pre x post Hid Hs Hall Hx)
    as [Hclosed Hopen].
  split; intros Hst.
  - exists (setStatus statusClosed x).
    destruct Hopen as (Hw & Hd & _); [by rewrite Hst|].
    split_and!; try done.
    + by rewrite !length_app.
    + by rewrite list_lookup_middle.
    + intros j Hj. rewrite <- (insert_middle pre post x).
      by rewrite list_lookup_insert_ne.
  - destruct (Hclosed Hst) as [Hr Hw]. rewrite Hw.
    split_and!; try done.
    simpl. rewrite writesOf_app. simpl. by rewrite app_nil_r.
Qed.

Lemma closeIssue_changes_only_status_witness :
  (∃ x',
     dbFile (after (closeIssue "2")
                   (worldWith [mkIssue 1 "a" statusOpen [] 0;
                               mkIssue 2 "FIX: b" statusOpen ["bug"] 5;
                               mkIssue 3 "c" statusOpen [] 0]))
     = Holds ([mkIssue 1 "a" statusOpen [] 0] ++ x'
              :: [mkIssue 3 "c" statusOpen [] 0])
     ∧ x' = mkIssue 2 "FIX: b" statusClosed ["bug"] 5)
  ∧ dbFile (after (closeIssue "1")
                  (worldWith [mkIssue 1 "a" statusClosed [] 0]))
    = Holds [mkIssue 1 "a" statusClosed [] 0].
Proof.
  split.
  - destruct (closeIssue_changes_only_status
                (worldWith [mkIssue 1 "a" statusOpen [] 0;
                            mkIssue 2 "FIX: b" statusOpen ["bug"] 5;
                            mkIssue 3 "c" statusOpen [] 0])
                "2" 2 [mkIssue 1 "a" statusOpen [] 0]
                (mkIssue 2 "FIX: b" statusOpen ["bug"] 5)
                [mkIssue 3 "c" statusOpen [] 0] eq_refl eq_refl)
      as [Hopen _]; [|done|].
    { by intros issue ->%list_elem_of_singleton. }
    destruct (Hopen eq_refl)
      as (x' & _ & Hd & Hst & Hi & Ht & Hl & Hc & _).
    exists x'. split; [by apply Hd|].
    destruct x'; simpl in *; by subst.
  - destruct (closeIssue_changes_only_status
                (worldWith [mkIssue 1 "a" statusClosed [] 0])
                "1" 1 [] (mkIssue 1 "a" statusClosed [] 0) [] eq_refl eq_refl)
      as [_ Hclosed]; [|done|].
    { by intros issue ?%elem_of_nil. }
    destruct (Hclosed eq_refl) as (_ & _ & Hdb & _). exact Hdb.
Defined.

(** ** [pushToGithub]: the credentials *)

Lemma emit_foldl es w e :
  emit e (foldl (flip emit) w es) = foldl (flip emit) w (es ++ [e]).
Proof. by rewrite foldl_app. Qed.

Lemma ghConfig_run w :
  ghConfig w = (Done (ghTier w), foldl (flip emit) w ghEvents).
Proof.
  unfold ghConfig, ghTier, bind, perform, ask, ret. simpl.
  destruct (ghRepoView w) as [out|]; simpl.
  - by destruct (Strings.SplitSlash (Strings.TrimSpace out))
      as [|o [|r [|]]].
  - done.
Qed.

Lemma Getenv_run name w :
  Getenv name w = (Done (envValue w name), emit (EvGetenv name) w).
Proof. done. Qed.

Lemma complete_spec c :
  complete c = true ↔ owner c ≠ "" ∧ repo c ≠ "" ∧ token c ≠ "".
Proof.
  unfold complete. rewrite !andb_true_iff, !bool_decide_eq_true. tauto.
Qed.

(** The resolution, case by case. *)
Lemma resolveCredentials_run w :
  resolveCredentials w =
    if complete (ghTier w) then
      (Done (ghTier w),
       foldl (flip emit) w
             (ghEvents ++ [EvPrint (MsgGhDetected (owner (ghTier w))
                                                  (repo (ghTier w)))]))
    else if complete (envTier w) then
      (Done (envTier w), foldl (flip emit) w (ghEvents ++ fallbackEvents))
    else
      (Fatal CredentialsUnavailable,
       foldl (flip emit) w (ghEvents ++ fallbackEvents)).
Proof.
  unfold resolveCredentials.
  rewrite (bind_Done _ _ _ _ _ (ghConfig_run w)).
  destruct (complete (ghTier w)) eqn:Hgh; [done|].
  rewrite (bind_Done _ _ _ _ _ (println_run _ _)).
  rewrite (bind_Done _ _ _ _ _ (Getenv_run _ _)).
  rewrite (bind_Done _ _ _ _ _ (Getenv_run _ _)).
  rewrite (bind_Done _ _ _ _ _ (Getenv_run _ _)).
  unfold complete, envTier, envValue. simpl.
  repeat case_bool_decide; simpl; try done; tauto.
Qed.

Lemma trace_foldl_emit es w : trace (foldl (flip emit) w es) = trace w ++ es.
Proof. by rewrite foldl_emit. Qed.

Lemma pushToGithub_no_credentials w :
  complete (ghTier w) = false → complete (envTier w) = false →
  pushToGithub w
  = (Fatal CredentialsUnavailable,
     foldl (flip emit) w (ghEvents ++ fallbackEvents)).
Proof.
  intros Hgh Henv. unfold pushToGithub.
  apply bind_Fatal. by rewrite resolveCredentials_run, Hgh, Henv.
Qed.

(** C7. The credentials are resolved in two tiers. The [gh] CLI is asked
    once for the repository and once for the token; what it yields is
    taken exactly when the owner, the repository name and the token are
    all non-empty, and then the environment is not read. Otherwise the
    three variables GITHUB_TOKEN, GITHUB_OWNER and GITHUB_REPO are read,
    each once; if any of them is empty or not set, the push ends in
    [CredentialsUnavailable] right there, with nothing tried again and
    nothing loaded, sent or written; if all three are there, they are the
    credentials. *)
Theorem resolveCredentials_two_tier w :
  execsOf (trace (after resolveCredentials w))
  = execsOf (trace w) ++ [ghRepoArgv; ghTokenArgv]
  ∧ (owner (ghTier w) ≠ "" ∧ repo (ghTier w) ≠ "" ∧ token (ghTier w) ≠ "" →
     result resolveCredentials w = Done (ghTier w)
     ∧ getenvsOf (trace (after resolveCredentials w)) = getenvsOf (trace w))
  ∧ (¬ (owner (ghTier w) ≠ "" ∧ repo (ghTier w) ≠ ""
        ∧ token (ghTier w) ≠ "") →
     getenvsOf (trace (after resolveCredentials w))
     = getenvsOf (trace w) ++ ["GITHUB_TOKEN"; "GITHUB_OWNER"; "GITHUB_REPO"]
     ∧ (envValue w "GITHUB_TOKEN" = "" ∨ envValue w "GITHUB_OWNER" = ""
        ∨ envValue w "GITHUB_REPO" = "" →
        result resolveCredentials w = Fatal CredentialsUnavailable
        ∧ result pushToGithub w = Fatal CredentialsUnavailable
        ∧ trace (after pushToGithub w)
          = trace w ++ ghEvents ++ fallbackEvents
        ∧ dbFile (after pushToGithub w) = dbFile w)
     ∧ (envValue w "GITHUB_TOKEN" ≠ "" ∧ envValue w "GITHUB_OWNER" ≠ ""
        ∧ envValue w "GITHUB_REPO" ≠ "" →
        result resolveCredentials w
        = Done (mkCredentials (envValue w "GITHUB_TOKEN")
                              (envValue w "GITHUB_OWNER")
                              (envValue w "GITHUB_REPO")))).
Proof.
  unfold after, result.
  pose proof (resolveCredentials_run w) as Hrun.
  pose proof (complete_spec (ghTier w)) as Hgh.
  pose proof (complete_spec (envTier w)) as Henv. simpl in Henv.
  destruct (complete (ghTier w)) eqn:Hc1.
  - rewrite Hrun. cbn [fst snd]. rewrite trace_foldl_emit.
    unfold execsOf, getenvsOf. rewrite !omap_app. simpl.
    rewrite !app_nil_r. split_and!; [done | done |].
    intros Hn. destruct Hn. by apply Hgh.
  - assert (¬ (owner (ghTier w) ≠ "" ∧ repo (ghTier w) ≠ ""
               ∧ token (ghTier w) ≠ "")) as Hno.
    { intros Hall. apply Hgh in Hall. done. }
    destruct (complete (envTier w)) eqn:Hc2.
    + rewrite Hrun. cbn [fst snd]. rewrite trace_foldl_emit.
      unfold execsOf, getenvsOf. rewrite !omap_app. simpl.
      split_and!; [done | done |]. intros _.
      split_and!; [done | | done].
      destruct Henv as [Henv _]. specialize (Henv eq_refl). tauto.
    + rewrite Hrun, (pushToGithub_no_credentials w Hc1 Hc2). cbn [fst snd].
      rewrite trace_foldl_emit, foldl_emit.
      unfold execsOf, getenvsOf. rewrite !omap_app. simpl.
      split_and!; [done | done |]. intros _.
      split_and!; [done | done |].
      intros (Ht & Ho & Hr). destruct Henv as [_ Henv].
      discriminate (Henv (conj Ho (conj Hr Ht))).
Qed.

Lemma resolveCredentials_two_tier_witness :
  result pushToGithub noRepoWorld = Fatal CredentialsUnavailable
  ∧ dbFile (after pushToGithub noRepoWorld) = dbFile noRepoWorld.
Proof.
  destruct (resolveCredentials_two_tier noRepoWorld) as (_ & _ & Hfallback).
  destruct Hfallback as (_ & Hmissing & _).
  { intros (Howner & _). by apply Howner. }
  destruct Hmissing as (_ & Hpush & _ & Hdb).
  { right. right. reflexivity. }
  split; [exact Hpush | exact Hdb].
Defined.

(** ** [pushToGithub]: the batch *)

Lemma create_run c issue w :
  create c issue w =
    let ok := github w (length (List.filter isCreate (trace w))) in
    (Done ok,
     emit (EvCreate (owner c) (repo c) (token c) (Title issue) (Labels issue)
                    ok) w).
Proof. done. Qed.

(** The loop runs to its end whatever GitHub answers; what it does is
    [batchEvents]. *)
Lemma pushLoop_run c localIssues count w :
  ∃ count',
    pushLoop c localIssues count w =
      (Done count',
       foldl (flip emit) w
             (batchEvents c (github w)
                          (length (List.filter isCreate (trace w)))
                          localIssues)).
Proof.
  revert count w.
  induction localIssues as [|issue localIssues IH]; intros count w.
  - by exists count.
  - simpl. case_bool_decide; [|apply IH].
    rewrite (bind_Done _ _ _ _ _ (create_run _ _ _)). cbn zeta.
    set (ok := github w (length (List.filter isCreate (trace w)))).
    set (w1 := emit _ w).
    set (o := if ok then MsgCreated (Title issue)
              else MsgCreateFailed (ID issue)).
    assert (length (List.filter isCreate (trace (emit (EvPrint o) w1)))
            = S (length (List.filter isCreate (trace w)))) as Hk.
    { subst w1. simpl. rewrite !List.filter_app, !length_app. simpl. lia. }
    destruct (IH (if ok then GoInt.add count 1 else count)
                 (emit (EvPrint o) w1)) as [count' Hrun].
    exists count'. subst o.
    destruct ok; rewrite (bind_Done _ _ _ _ _ (println_run _ _)), Hrun, Hk;
      done.
Qed.

Lemma createsOf_app e1 e2 : createsOf (e1 ++ e2) = createsOf e1 ++ createsOf e2.
Proof. apply omap_app. Qed.

Lemma createsOf_batchEvents c oracle k localIssues :
  createsOf (batchEvents c oracle k localIssues)
  = (λ issue, (Title issue, Labels issue))
      <$> filter (λ issue, Status issue = statusOpen) localIssues.
Proof.
  revert k. induction localIssues as [|issue localIssues IH]; intros k.
  - done.
  - simpl. rewrite filter_cons. case_bool_decide.
    + rewrite decide_True by done. simpl. by rewrite IH.
    + rewrite decide_False by done. apply IH.
Qed.

Lemma writesOf_batchEvents c oracle k localIssues :
  writesOf (batchEvents c oracle k localIssues) = [].
Proof.
  revert k. induction localIssues as [|issue localIssues IH]; intros k.
  - done.
  - simpl. case_bool_decide; simpl; apply IH.
Qed.

(** The second part of [pushToGithub] on a store that loads. *)
Lemma publishBatch_run c w issues :
  storeOf w = Some issues →
  ∃ count,
    publishBatch c w =
      (do _ <- saveIssues [];
       println MsgCleared)
        (foldl (flip emit) w
               ([EvPrint (MsgPublishing (owner c) (repo c))]
                ++ batchEvents c (github w)
                               (length (List.filter isCreate (trace w)))
                               issues
                ++ [EvPrint (MsgFinished count)])).
Proof.
  intros Hs. unfold publishBatch.
  rewrite (bind_Done _ _ _ _ _ (loadIssues_storeOf _ _ Hs)).
  rewrite (bind_Done _ _ _ _ _ (println_run _ _)).
  destruct (pushLoop_run c issues 0
              (emit (EvPrint (MsgPublishing (owner c) (repo c))) w))
    as [count Hrun].
  exists count.
  rewrite (bind_Done _ _ _ _ _ Hrun).
  rewrite (bind_Done _ _ _ _ _ (println_run _ _)).
  rewrite emit_foldl. simpl.
  rewrite List.filter_app, length_app. simpl. by rewrite Nat.add_0_r.
Qed.

Lemma storeOf_foldl_emit es w : storeOf (foldl (flip emit) w es) = storeOf w.
Proof. by rewrite foldl_emit. Qed.

(** Resolving the credentials loads, sends and writes nothing. *)
Lemma resolveCredentials_Done w c w1 :
  resolveCredentials w = (Done c, w1) →
  ∃ es, w1 = foldl (flip emit) w es
        ∧ createsOf es = [] ∧ writesOf es = []
        ∧ List.filter isCreate es = [].
Proof.
  rewrite resolveCredentials_run. intros Hrun.
  destruct (complete (ghTier w)); [|destruct (complete (envTier w))];
    simplify_eq; eexists; (split; [reflexivity|]); done.
Qed.

(** The push once the credentials are there and the store loads: the
    events up to the end of the loop, then the write of the empty store. *)
Lemma pushToGithub_run w c w1 issues :
  resolveCredentials w = (Done c, w1) → storeOf w = Some issues →
  ∃ events,
    pushToGithub w
    = (do _ <- saveIssues [];
       println MsgCleared) (foldl (flip emit) w events)
    ∧ createsOf events
      = ((λ issue, (Title issue, Labels issue))
           <$> filter (λ issue, Status issue = statusOpen) issues)
    ∧ writesOf events = [].
Proof.
  intros Hcred Hs.
  destruct (resolveCredentials_Done _ _ _ Hcred) as (es & -> & Hc & Hw & Hf).
  unfold pushToGithub. rewrite (bind_Done _ _ _ _ _ Hcred).
  destruct (publishBatch_run c (foldl (flip emit) w es) issues)
    as [count ->]; [by rewrite storeOf_foldl_emit|].
  rewrite <- foldl_app. eexists. split; [reflexivity|].
  rewrite !createsOf_app, !writesOf_app, Hc, Hw.
  rewrite createsOf_batchEvents, writesOf_batchEvents.
  simpl. by rewrite app_nil_r.
Qed.

(** C1. Once the credentials are there and the store loads, the push asks
    GitHub to create one issue for every open issue of the store, in the
    order of the store, with its title and its labels, and for no other
    issue; it does so whatever GitHub answers to each request, so a
    refusal does not end the loop. After the last request it writes the
    empty store, once and in every case; nothing is sent after that write.
    When the write goes through, the file holds the empty store. *)
Theorem pushToGithub_attempts_all_then_clears w c w1 issues :
  resolveCredentials w = (Done c, w1) → storeOf w = Some issues →
  createsOf (trace (after pushToGithub w))
  = createsOf (trace w)
    ++ ((λ issue, (Title issue, Labels issue))
          <$> filter (λ issue, Status issue = statusOpen) issues)
  ∧ writesOf (trace (after pushToGithub w)) = writesOf (trace w) ++ [[]]
  ∧ (∃ before rest,
       trace (after pushToGithub w)
       = trace w ++ before ++ EvWriteFile [] :: rest
       ∧ writesOf before = [] ∧ createsOf rest = [])
  ∧ (disk w = Written →
     result pushToGithub w = Done ()
     ∧ dbFile (after pushToGithub w) = Holds [])
  ∧ (disk w ≠ Written → result pushToGithub w = Fatal StoreUnwritable).
Proof.
  intros Hcred Hs.
  destruct (pushToGithub_run w c w1 issues Hcred Hs)
    as (events & Hrun & Hcreates & Hwrites).
  unfold after, result. rewrite Hrun. unfold bind.
  rewrite saveIssues_run
    by (rewrite foldl_emit; eauto using storeOf_repoFound).
  rewrite foldl_emit. cbn [disk].
  destruct (disk w) eqn:Hdisk; unfold println, perform, setDBFile, emit;
    cbn [fst snd trace dbFile];
    rewrite <- ?app_assoc, ?createsOf_app, ?writesOf_app, Hcreates, Hwrites;
    simpl; rewrite ?app_nil_r.
  - split_and!; [done | done | | done | done].
    by exists events, [EvPrint MsgCleared].
  - split_and!; [done | done | | done | done].
    by exists events, [].
  - split_and!; [done | done | | done | done].
    by exists events, [].
Qed.

Lemma pushToGithub_attempts_all_then_clears_witness :
  createsOf (trace (after pushToGithub failingWorld))
  = [("BUG: a", ["bug"]); ("FEAT: c", ["feature"])]
  ∧ dbFile (after pushToGithub failingWorld) = Holds [].
Proof.
  destruct (pushToGithub_attempts_all_then_clears failingWorld
              (mkCredentials "secret" "me" "proj")
              (foldl (flip emit) failingWorld
                     (ghEvents ++ [EvPrint (MsgGhDetected "me" "proj")]))
              [mkIssue 1 "BUG: a" statusOpen ["bug"] 0;
               mkIssue 2 "b" statusClosed [] 0;
               mkIssue 3 "FEAT: c" statusOpen ["feature"] 0]
              eq_refl eq_refl) as (Hcreates & _ & _ & Hwritten & _).
  split; [exact Hcreates|]. by apply Hwritten.
Defined.

(** ** [publishIssues] *)

Lemma publishIssues_pure_on_error w format :
  format ≠ "markdown" → format ≠ "json" →
  publishIssues format w
  = (match result loadIssues w with
     | Done _ => Fatal (UnsupportedFormat format)
     | Fatal e => Fatal e
     end, w).
Proof.
  intros Hm Hj. unfold publishIssues, result.
  pose proof (loadIssues_pure w) as Hpure. unfold after in Hpure.
  destruct (loadIssues w) as [[issues|e] w1] eqn:Hload; simpl in *; subst w1.
  - rewrite (bind_Done _ _ _ _ _ Hload).
    by rewrite !bool_decide_eq_false_2 by done.
  - by rewrite (bind_Fatal _ _ _ _ _ Hload).
Qed.

(** C9. For a format that is neither "markdown" nor "json",
    [publishIssues] prints nothing, writes nothing and leaves the file as it
    is, and it never ends well; on a store that loads it ends in
    [UnsupportedFormat] carrying the format it was given. (The store is
    loaded before the format is looked at, so a store that does not load
    ends the run with the error of the load.) *)
Theorem publishIssues_unsupported_format w format :
  format ≠ "markdown" → format ≠ "json" →
  after (publishIssues format) w = w
  ∧ dbFile (after (publishIssues format) w) = dbFile w
  ∧ writesOf (trace (after (publishIssues format) w)) = writesOf (trace w)
  ∧ (∃ e, result (publishIssues format) w = Fatal e)
  ∧ (∀ issues, storeOf w = Some issues →
               result (publishIssues format) w
               = Fatal (UnsupportedFormat format)).
Proof.
  intros Hm Hj. unfold after, result.
  rewrite (publishIssues_pure_on_error _ _ Hm Hj). simpl.
  split_and!; [done..| |].
  - destruct (result loadIssues w); eauto.
  - intros issues Hs. unfold result.
    by rewrite (loadIssues_storeOf _ _ Hs).
Qed.

Lemma publishIssues_unsupported_format_witness :
  result (publishIssues "xml") (worldWith oddStatusStore)
  = Fatal (UnsupportedFormat "xml")
  ∧ dbFile (after (publishIssues "xml") (worldWith oddStatusStore))
    = Holds oddStatusStore.
Proof.
  destruct (publishIssues_unsupported_format (worldWith oddStatusStore) "xml")
    as (_ & Hdb & _ & _ & Hr); [done | done |].
  split; [exact (Hr oddStatusStore eq_refl) | exact Hdb].
Defined.

(** The two formats that are supported end well on a store that loads. *)
Lemma publishIssues_supported w format issues :
  format = "markdown" ∨ format = "json" → storeOf w = Some issues →
  result (publishIssues format) w = Done ()
  ∧ dbFile (after (publishIssues format) w) = dbFile w.
Proof.
  intros Hf Hs. unfold result, after, publishIssues.
  rewrite (bind_Done _ _ _ _ _ (loadIssues_storeOf _ _ Hs)).
  by destruct Hf as [-> | ->].
Qed.

(** ** The invariants of the store *)

Section invariants.

Lemma storeInvariant_nil : storeInvariant [].
Proof. split_and!; constructor. Qed.

Lemma storeInvariant_add issues title now :
  storeInvariant issues →
  Forall (λ issue, ID issue < GoInt.maxInt) issues →
  storeInvariant (issues ++ [newIssueFor issues title now]).
Proof.
  intros (Hids & Hst & Hlab) Hbound. rewrite Forall_forall in Hbound.
  destruct (maxIDLoop_spec issues 0) as (Hle & Hmax & Hor).
  destruct (newIssueFor_fields issues title now) as (Hid & _ & Hopen & _).
  assert (maxIDLoop issues 0 < GoInt.maxInt) as Hlt.
  { destruct Hor as [->|(i & -> & Hi)%list_elem_of_fmap];
      [done | by apply Hbound]. }
  rewrite GoIntFacts.add_no_overflow in Hid
    by (unfold GoInt.inRange, GoInt.minInt, GoInt.maxInt in *; lia).
  split_and!.
  - rewrite fmap_app. apply NoDup_app. split_and!; [done | |].
    + intros id (i & -> & Hi)%list_elem_of_fmap.
      intros Hin%list_elem_of_singleton. apply Hmax in Hi. lia.
    + apply NoDup_singleton.
  - apply Forall_app. split; [done|]. apply Forall_singleton. by left.
  - apply Forall_app. split; [done|]. apply Forall_singleton.
    unfold newIssueFor. split.
    + apply autoLabel_NoDup. constructor.
    + apply autoLabel_Sorted.
Qed.

Lemma storeInvariant_close pre x post :
  storeInvariant (pre ++ x :: post) →
  storeInvariant (pre ++ setStatus statusClosed x :: post).
Proof.
  intros (Hids & Hst & Hlab). split_and!.
  - by rewrite fmap_app, fmap_cons in *.
  - apply Forall_app in Hst as [Hpre Hpost%Forall_cons_1].
    apply Forall_app. split; [done|]. apply Forall_cons.
    split; [by right | tauto].
  - apply Forall_app in Hlab as [Hpre Hpost%Forall_cons_1].
    apply Forall_app. split; [done|]. by apply Forall_cons.
Qed.

(** What a run that ends in one write of [new], or in none, has written. *)
Lemma writes_of_save w new o :
  repoFound w = true →
  writesOf (trace (after (do _ <- saveIssues new; println o) w))
  = writesOf (trace w) ++ [new].
Proof.
  intros Hrepo. unfold after, bind. rewrite saveIssues_run by done.
  destruct (disk w); simpl; rewrite !writesOf_app; simpl;
    by rewrite ?app_nil_r.
Qed.

(** The invariants speak of the ids, the statuses and the labels only. *)
Lemma storeInvariant_fields l l' :
  ID <$> l = ID <$> l' → Status <$> l = Status <$> l' →
  Labels <$> l = Labels <$> l' →
  storeInvariant l → storeInvariant l'.
Proof.
  intros Hi Hs Hl (Hids & Hst & Hlab). split_and!.
  - by rewrite <- Hi.
  - apply (Forall_fmap Status (λ s, s = statusOpen ∨ s = statusClosed)).
    rewrite <- Hs. by apply Forall_fmap.
  - apply (Forall_fmap Labels (λ ls, NoDup ls ∧ Sorted String.le ls)).
    rewrite <- Hl. by apply Forall_fmap.
Qed.

(** The store with the new issue, as it is read back from the file. *)
Lemma storeInvariant_add_coerced issues title now :
  storeInvariant (issues ++ [newIssueFor issues title now]) →
  storeInvariant (issues ++ [Json.coerceIssue (newIssueFor issues title now)]).
Proof.
  apply storeInvariant_fields; rewrite newIssueFor_coerced, !fmap_app;
    f_equal.
Qed.

Lemma storeOf_saved w l o :
  repoFound w = true →
  storeOf (after (do _ <- saveIssues l; println o) w)
  = match disk w with
    | Written => Some (Json.coerceIssue <$> l)
    | WriteRefused => storeOf w
    | WriteTorn => None
    end.
Proof.
  intros Hrepo. unfold after, bind, storeOf.
  rewrite saveIssues_run by done.
  destruct (disk w); simpl; rewrite Hrepo; [|done..].
  by rewrite coerceIssue_fmap_idemp.
Qed.

(** A run that does not touch the file and writes nothing. *)
Lemma keepsInvariant_same c w issues :
  storeOf w = Some issues → storeInvariant issues →
  storeOf (after c w) = storeOf w → dbFile (after c w) = dbFile w →
  writesOf (trace (after c w)) = writesOf (trace w) →
  keepsInvariant c w.
Proof.
  intros Hs Hinv Hst Hdb Hw. split_and!.
  - intros l. rewrite Hw. by left.
  - intros l. rewrite Hst, Hs. by intros [= <-].
  - intros l _. by left.
Qed.

(** A run whose end is one write of [new]. *)
Lemma keepsInvariant_save c w issues new o :
  storeOf w = Some issues → storeInvariant issues → storeInvariant new →
  storeInvariant (Json.coerceIssue <$> new) →
  c w = (do _ <- saveIssues new; println o) w →
  keepsInvariant c w.
Proof.
  intros Hs Hinv Hnew Hread Hrun.
  pose proof (storeOf_repoFound _ _ Hs) as Hrepo. split_and!.
  - intros l. unfold after. rewrite Hrun.
    change ((do _ <- saveIssues new; println o) w).2
      with (after (do _ <- saveIssues new; println o) w).
    rewrite writes_of_save by done.
    rewrite elem_of_app, list_elem_of_singleton. naive_solver.
  - intros l. unfold after. rewrite Hrun.
    change ((do _ <- saveIssues new; println o) w).2
      with (after (do _ <- saveIssues new; println o) w).
    rewrite storeOf_saved by done.
    destruct (disk w); [|rewrite Hs|]; by intros [= <-].
  - intros l. unfold after. rewrite Hrun. unfold bind.
    rewrite saveIssues_run by done.
    destruct (disk w); simpl; [|by left|done].
    intros [= <-]. by right.
Qed.

Lemma keepsInvariant_addIssue w issues title :
  storeOf w = Some issues → storeInvariant issues →
  Forall (λ issue, ID issue < GoInt.maxInt) issues →
  keepsInvariant (addIssue title) w.
Proof.
  intros Hs Hinv Hbound. destruct (decide (title = "")) as [->|Ht].
  - by apply (keepsInvariant_same _ _ issues).
  - eapply keepsInvariant_save; [done | done | | | by apply addIssue_run].
    + by apply storeInvariant_add.
    + rewrite fmap_app, (storeOf_coerced _ _ Hs).
      by apply storeInvariant_add_coerced, storeInvariant_add.
Qed.

Lemma keepsInvariant_closeIssue w issues idStr :
  storeOf w = Some issues → storeInvariant issues →
  keepsInvariant (closeIssue idStr) w.
Proof.
  intros Hs Hinv.
  destruct (Strconv.Atoi idStr) as [id|] eqn:Hid.
  - destruct (decide (id ∈ ID <$> issues)) as [Hin|Hnin].
    + destruct (first_with_id id issues Hin)
        as (pre & x & post & -> & Hx & Hpre).
      pose proof (closeIssue_found w idStr id pre x post Hid Hs Hpre Hx)
        as Hrun.
      case_bool_decide.
      * apply (keepsInvariant_same _ _ _ Hs Hinv); unfold after;
          rewrite Hrun; [done | done |].
        simpl. rewrite writesOf_app. simpl. by rewrite app_nil_r.
      * eapply keepsInvariant_save; [done | done | | | exact Hrun].
        -- by apply storeInvariant_close.
        -- rewrite (coerced_close _ _ _ (storeOf_coerced _ _ Hs)).
           by apply storeInvariant_close.
    + apply (keepsInvariant_same _ _ _ Hs Hinv); unfold after;
        rewrite (closeIssue_not_found w idStr id issues Hid Hs); try done;
        intros i Hi ?; apply Hnin, list_elem_of_fmap; eauto.
  - apply (keepsInvariant_same _ _ _ Hs Hinv); unfold after, closeIssue;
      by rewrite Hid.
Qed.

Lemma keepsInvariant_pushToGithub w issues :
  storeOf w = Some issues → storeInvariant issues →
  keepsInvariant pushToGithub w.
Proof.
  intros Hs Hinv.
  destruct (resolveCredentials w) as [[c|e] w1] eqn:Hcred.
  - destruct (pushToGithub_run w c w1 issues Hcred Hs)
      as (events & Hrun & _ & Hwrites).
    assert (storeOf (foldl (flip emit) w events) = Some issues) as Hs'
      by (by rewrite storeOf_foldl_emit).
    destruct (keepsInvariant_save (do _ <- saveIssues []; println MsgCleared)
                (foldl (flip emit) w events) issues [] MsgCleared Hs' Hinv
                storeInvariant_nil storeInvariant_nil eq_refl)
      as (Hw & Hf & Hdb).
    unfold keepsInvariant, after in *. rewrite Hrun.
    split_and!; [|exact Hf|].
    + intros l Hl. apply Hw in Hl as [Hl|Hl]; [left | by right].
      rewrite foldl_emit in Hl. cbn [trace] in Hl.
      rewrite writesOf_app, Hwrites, app_nil_r in Hl. exact Hl.
    + intros l Hl. destruct (Hdb l Hl) as [Hsame|Hl']; [left | by right].
      rewrite Hsame. by rewrite foldl_emit.
  - assert (after pushToGithub w = w1) as Hafter.
    { unfold after, pushToGithub. by rewrite (bind_Fatal _ _ _ _ _ Hcred). }
    rewrite resolveCredentials_run in Hcred.
    destruct (complete (ghTier w)); [done|].
    destruct (complete (envTier w)); [done|].
    injection Hcred as _ Hw1. rewrite <- Hw1 in Hafter.
    apply (keepsInvariant_same _ _ _ Hs Hinv); rewrite Hafter;
      [done | done |].
    simpl. rewrite !writesOf_app. simpl. by rewrite !app_nil_r.
Qed.

End invariants.

Lemma wrappingStore_invariant : storeInvariant wrappingStore.
Proof.
  split_and!.
  - apply NoDup_cons. split; [|apply NoDup_singleton].
    by intros [=]%list_elem_of_singleton.
  - repeat constructor.
  - repeat constructor.
Qed.

(** With the two ends of [int] in the store, the id after the largest one
    wraps around to the smallest one, which is taken: the store that is
    written has an id twice. *)
Lemma addIssue_reuses_id_after_maxInt :
  ¬ (∀ w issues title,
       storeOf w = Some issues → storeInvariant issues →
       keepsInvariant (addIssue title) w).
Proof.
  intros Hclaim.
  destruct (Hclaim (worldWith wrappingStore) wrappingStore "next" eq_refl
              wrappingStore_invariant) as (_ & Hfile & _).
  destruct (Hfile (wrappingStore
                   ++ [mkIssue GoInt.minInt "next" statusOpen [] 0]))
    as (Hids & _); [reflexivity|].
  apply NoDup_cons in Hids as [_ Hids].
  apply NoDup_cons in Hids as [Hnin _].
  apply Hnin. left.
Qed.

(** C5, amended. Take a store that loads and satisfies the invariants of
    the data model: ids distinct, every status "open" or "closed", every
    label list duplicate-free and sorted ascending. Closing an issue and
    pushing to GitHub write, if they write at all, a store that satisfies
    them again, and so does adding an issue when no id of the store is the
    largest [int]; the file afterwards, when it can be loaded, yields
    such a store, and when the run has changed it, holds such a store. *)
Theorem persisted_store_keeps_invariants w issues :
  storeOf w = Some issues → storeInvariant issues →
  (∀ title, Forall (λ issue, ID issue < GoInt.maxInt) issues →
            keepsInvariant (addIssue title) w)
  ∧ (∀ idStr, keepsInvariant (closeIssue idStr) w)
  ∧ keepsInvariant pushToGithub w.
Proof.
  intros Hs Hinv. split_and!.
  - intros title Hbound. by apply (keepsInvariant_addIssue _ issues).
  - intros idStr. by apply (keepsInvariant_closeIssue _ issues).
  - by apply (keepsInvariant_pushToGithub _ issues).
Qed.

Lemma sampleStore_invariant : storeInvariant sampleStore.
Proof.
  split_and!.
  - apply NoDup_cons. split; [|apply NoDup_singleton].
    by intros [=]%list_elem_of_singleton.
  - repeat constructor; by right.
  - repeat constructor. by intros ?%elem_of_nil.
Defined.

Lemma persisted_store_keeps_invariants_witness :
  storeInvariant sampleStore
  ∧ storeInvariant
      (sampleStore ++ [mkIssue 5 "FEAT: dark mode" statusOpen ["feature"] 0])
  ∧ storeInvariant
      [mkIssue 1 "BUG: crash on save" statusClosed ["bug"] 0;
       mkIssue 4 "tidy up" statusClosed [] 0]
  ∧ storeInvariant [].
Proof.
  destruct (persisted_store_keeps_invariants sampleWorld
              sampleStore eq_refl sampleStore_invariant)
    as (Hadd & Hclose & Hpush).
  split_and!.
  - exact sampleStore_invariant.
  - destruct (Hadd "FEAT: dark mode") as (_ & Hfile & _).
    + repeat constructor.
    + apply Hfile. reflexivity.
  - destruct (Hclose "1") as (_ & Hfile & _). apply Hfile. reflexivity.
  - destruct Hpush as (_ & Hfile & _). apply Hfile. reflexivity.
Defined.

(** ** The ids [addIssue] hands out *)

(** A push that runs to its end leaves a file that yields the empty
    store. *)
Lemma pushToGithub_Done w :
  result pushToGithub w = Done () → storeOf (after pushToGithub w) = Some [].
Proof.
  intros Hr. destruct (resolveCredentials w) as [[c|e] w1] eqn:Hcred.
  - destruct (resolveCredentials_Done _ _ _ Hcred) as (es & Hw1 & _).
    destruct (loadIssues w1) as [[issues|e] w2] eqn:Hload.
    + assert (storeOf w = Some issues) as Hs.
      { rewrite <- (storeOf_foldl_emit es), <- Hw1.
        apply storeOf_loadIssues. unfold result. by rewrite Hload. }
      destruct (pushToGithub_run w c w1 issues Hcred Hs)
        as (events & Hrun & _).
      assert (repoFound (foldl (flip emit) w events) = true) as Hrepo
        by (rewrite foldl_emit; eauto using storeOf_repoFound).
      pose proof (storeOf_saved _ [] MsgCleared Hrepo) as Hsaved.
      unfold result, after in *. rewrite Hrun in *.
      unfold bind in Hr. rewrite saveIssues_run in Hr by done.
      destruct (disk (foldl (flip emit) w events)); done.
    + unfold result, pushToGithub in Hr.
      rewrite (bind_Done _ _ _ _ _ Hcred) in Hr. unfold publishBatch in Hr.
      by rewrite (bind_Fatal _ _ _ _ _ Hload) in Hr.
  - unfold result, pushToGithub in Hr.
    by rewrite (bind_Fatal _ _ _ _ _ Hcred) in Hr.
Qed.

(** The claim as it is written fails in two ways. It has no bound on the
    ids: with the largest [int] in the store, the id of the new issue is
    the smallest [int]. And ids are handed out again: in a repository
    without a database file, [add], a push and [add] again write the id 1
    both times, because the push has emptied the store and the search for
    the largest id starts from 0 again. *)
Lemma addIssue_ids_wrap_and_restart :
  ¬ (∀ w title issues m,
       title ≠ "" → storeOf w = Some issues → isMaxID m issues →
       ∃ new,
         writesOf (trace (after (addIssue title) w))
         = writesOf (trace w) ++ [issues ++ [new]]
         ∧ ID new = m + 1)
  ∧ writesOf (trace (after (addIssue "second")
                           (after pushToGithub
                                  (after (addIssue "first") freshWorld))))
    = [[mkIssue 1 "first" statusOpen [] 0]; [];
       [mkIssue 1 "second" statusOpen [] 0]].
Proof.
  split; [|vm_compute; reflexivity].
  intros Hclaim.
  destruct (Hclaim (worldWith fullStore) "next" fullStore GoInt.maxInt)
    as (new & Hw & Hid); [done | done | |].
  - split; [left|]. by intros i ->%list_elem_of_singleton.
  - vm_compute in Hw. by simplify_eq.
Qed.

(** C2, amended. Adding an issue with a title that is not empty to a store
    that loads hands the store with one issue appended to [saveIssues].
    Its id is one plus the larger of 0 and the largest id of the store, in
    [int] arithmetic; it is 1 for the empty store; and when every id of
    the store is positive and below the largest [int], it is one plus the
    largest id and above every id of the store, so that no id of the store
    is given again. An id that is no longer in the store can be given
    again: after a push that has run to its end the next issue gets the
    id 1. When the write goes through, the file holds the store and the
    new issue, with the id it was given and with its title as [json] has
    written it, which is the title that was given when that is valid
    UTF-8. *)
Theorem addIssue_assigns_next_id w title issues :
  title ≠ "" → storeOf w = Some issues →
  ∃ new,
    writesOf (trace (after (addIssue title) w))
    = writesOf (trace w) ++ [issues ++ [new]]
    ∧ (disk w = Written →
       dbFile (after (addIssue title) w)
       = Holds (issues ++ [Json.coerceIssue new]))
    ∧ Title new = title
    ∧ ID (Json.coerceIssue new) = ID new
    ∧ (Utf8.ValidString title = true → Json.coerceIssue new = new)
    ∧ (issues = [] → ID new = 1)
    ∧ (∀ m, isMaxID m issues → ID new = GoInt.add (Z.max 0 m) 1)
    ∧ (Forall (λ issue, 0 < ID issue < GoInt.maxInt) issues →
       (∀ m, isMaxID m issues → ID new = m + 1)
       ∧ ∀ issue, issue ∈ issues → ID issue < ID new)
    ∧ (∀ title',
         title' ≠ "" →
         result pushToGithub (after (addIssue title) w) = Done () →
         ∃ new',
           writesOf (trace (after (addIssue title')
                                  (after pushToGithub
                                         (after (addIssue title) w))))
           = writesOf (trace (after pushToGithub (after (addIssue title) w)))
             ++ [[new']]
           ∧ ID new' = 1).
Proof.
  intros Ht Hs. exists (newIssueFor issues title (clock w)).
  destruct (addIssue_effect w title issues Ht Hs) as (Hw & Hd & _).
  destruct (newIssueFor_fields issues title (clock w)) as (Hid & Htitle & _).
  split_and!; [done | by intros [_ ?]%Hd | done | done | | by intros -> | | |].
  - intros Hvalid. rewrite newIssueFor_coerced, (coerce_valid _ Hvalid).
    reflexivity.
  - intros m Hm. by rewrite Hid, (maxIDLoop_max _ _ Hm).
  - intros Hall. rewrite Forall_forall in Hall.
    destruct (maxIDLoop_spec issues 0) as (Hle & Hmax & Hor).
    assert (0 ≤ maxIDLoop issues 0 < GoInt.maxInt) as Hrange.
    { destruct Hor as [->|(i & -> & Hi)%list_elem_of_fmap].
      - unfold GoInt.maxInt. lia.
      - apply Hall in Hi. lia. }
    assert (ID (newIssueFor issues title (clock w)) = maxIDLoop issues 0 + 1)
      as Hnew.
    { rewrite Hid. apply GoIntFacts.add_no_overflow.
      unfold GoInt.inRange, GoInt.minInt, GoInt.maxInt in *. lia. }
    split.
    + intros m Hm. rewrite Hnew, (maxIDLoop_max _ _ Hm).
      destruct Hm as [(i & -> & Hi)%list_elem_of_fmap _].
      apply Hall in Hi. lia.
    + intros i Hi. rewrite Hnew. apply Hmax in Hi. lia.
  - intros title' Ht' Hpush. apply pushToGithub_Done in Hpush.
    destruct (addIssue_effect _ title' [] Ht' Hpush) as (Hw' & _).
    eexists. split; [exact Hw' | reflexivity].
Qed.

Lemma addIssue_assigns_next_id_witness :
  (∃ new,
     dbFile (after (addIssue "BUG: crash on save")
                   (worldWith [mkIssue 1 "a" statusOpen [] 0;
                               mkIssue 4 "b" statusClosed [] 0]))
     = Holds ([mkIssue 1 "a" statusOpen [] 0;
               mkIssue 4 "b" statusClosed [] 0] ++ [new])
     ∧ ID new = 4 + 1)
  ∧ (∃ new',
       writesOf (trace (after (addIssue "second")
                              (after pushToGithub
                                     (after (addIssue "first") freshWorld))))
       = writesOf (trace (after pushToGithub
                                (after (addIssue "first") freshWorld)))
         ++ [[new']]
       ∧ ID new' = 1).
Proof.
  split; [|destruct (addIssue_assigns_next_id freshWorld "first" [])
             as (new & _ & _ & _ & _ & _ & _ & _ & _ & Hrestart);
           [done | reflexivity | by apply Hrestart]].
  destruct (addIssue_assigns_next_id
              (worldWith [mkIssue 1 "a" statusOpen [] 0;
                          mkIssue 4 "b" statusClosed [] 0])
              "BUG: crash on save"
              [mkIssue 1 "a" statusOpen [] 0; mkIssue 4 "b" statusClosed [] 0])
    as (new & _ & Hdb & _ & Hsame & _ & _ & _ & Hmax & _);
    [done | reflexivity |].
  exists (Json.coerceIssue new). split; [by apply Hdb|].
  rewrite Hsame. apply Hmax.
  - repeat constructor; unfold GoInt.maxInt; simpl; lia.
  - split; [right; left|].
    intros i Hi. repeat (apply elem_of_cons in Hi as [->|Hi]); simpl; try lia.
    by apply elem_of_nil in Hi.
Defined.

(** * Further properties of the commands *)

(** ** A store that does not load *)

Lemma loadIssues_loadError w e :
  loadError w = Some e → loadIssues w = (Fatal e, w).
Proof.
  unfold loadError, loadIssues, getDBPath, bind, ask, ret, fatal.
  destruct (repoFound w); [|by intros [= <-]].
  destruct (dbFile w); intros; by simplify_eq.
Qed.

(** A store loads or it does not. *)
Lemma load_dichotomy w :
  (∃ issues, storeOf w = Some issues) ∨ (∃ e, loadError w = Some e).
Proof.
  unfold storeOf, loadError. destruct (repoFound w); [|eauto].
  destruct (dbFile w); eauto.
Qed.

Lemma resolveCredentials_frame w :
  ∃ es, after resolveCredentials w = foldl (flip emit) w es
        ∧ createsOf es = [] ∧ writesOf es = [].
Proof.
  unfold after. rewrite resolveCredentials_run.
  destruct (complete (ghTier w)); [|destruct (complete (envTier w))];
    eexists; (split; [reflexivity|]); done.
Qed.

(** The push on a store that does not load. *)
Lemma pushToGithub_load_fails w e :
  loadError w = Some e →
  (result pushToGithub w = Fatal e
   ∨ result pushToGithub w = Fatal CredentialsUnavailable)
  ∧ createsOf (trace (after pushToGithub w)) = createsOf (trace w)
  ∧ writesOf (trace (after pushToGithub w)) = writesOf (trace w)
  ∧ dbFile (after pushToGithub w) = dbFile w.
Proof.
  intros He. destruct (resolveCredentials_frame w) as (es & Hes & Hc & Hw).
  unfold after, result, pushToGithub in *.
  destruct (resolveCredentials w) as [[c|e'] w1] eqn:Hcred; simpl in Hes;
    subst w1.
  - rewrite (bind_Done _ _ _ _ _ Hcred). unfold publishBatch.
    rewrite (bind_Fatal _ _ _ e (foldl (flip emit) w es)).
    + simpl. rewrite foldl_emit. simpl.
      rewrite createsOf_app, writesOf_app, Hc, Hw, !app_nil_r. eauto.
    + apply loadIssues_loadError. by rewrite foldl_emit.
  - rewrite (bind_Fatal _ _ _ _ _ Hcred). simpl.
    rewrite foldl_emit. simpl.
    rewrite createsOf_app, writesOf_app, Hc, Hw, !app_nil_r.
    split_and!; try done. right.
    rewrite resolveCredentials_run in Hcred.
    destruct (complete (ghTier w)); [done|].
    destruct (complete (envTier w)); by simplify_eq.
Qed.

(** The commands that load first, on a store that does not load. *)
Lemma load_fails_run w e :
  loadError w = Some e →
  (∀ title, title ≠ "" → addIssue title w = (Fatal e, w))
  ∧ (∀ filterLabel showClosed,
       listIssues filterLabel showClosed w = (Fatal e, w))
  ∧ (∀ idStr id, Strconv.Atoi idStr = Some id →
                 closeIssue idStr w = (Fatal e, w))
  ∧ (∀ format, publishIssues format w = (Fatal e, w)).
Proof.
  intros He. pose proof (loadIssues_loadError w e He) as Hload.
  split_and!.
  - intros title Ht. unfold addIssue.
    rewrite bool_decide_eq_false_2 by done. by apply bind_Fatal.
  - intros filterLabel showClosed. by apply bind_Fatal.
  - intros idStr id Hid. unfold closeIssue. rewrite Hid. by apply bind_Fatal.
  - intros format. by apply bind_Fatal.
Qed.

(** X1. When the store does not load (the directory is in no repository,
    or the file cannot be read or parsed), adding, listing, closing and
    exporting end with the error of the load and leave the world as it
    was: nothing is printed, and a file that cannot be parsed is not
    overwritten. The push ends with that error too, unless it has already
    ended for want of credentials; it sends nothing to GitHub and writes
    nothing. *)
Theorem unloadable_store_is_left_alone w e :
  loadError w = Some e →
  (∀ title, title ≠ "" → addIssue title w = (Fatal e, w))
  ∧ (∀ filterLabel showClosed,
       listIssues filterLabel showClosed w = (Fatal e, w))
  ∧ (∀ idStr id, Strconv.Atoi idStr = Some id →
                 closeIssue idStr w = (Fatal e, w))
  ∧ (∀ format, publishIssues format w = (Fatal e, w))
  ∧ (result pushToGithub w = Fatal e
     ∨ result pushToGithub w = Fatal CredentialsUnavailable)
  ∧ createsOf (trace (after pushToGithub w)) = createsOf (trace w)
  ∧ writesOf (trace (after pushToGithub w)) = writesOf (trace w)
  ∧ dbFile (after pushToGithub w) = dbFile w.
Proof.
  intros He.
  destruct (load_fails_run w e He) as (Hadd & Hlist & Hclose & Hpub).
  destruct (pushToGithub_load_fails w e He) as (Hr & Hc & Hw & Hdb).
  split_and!; done.
Qed.

Lemma unloadable_store_is_left_alone_witness :
  addIssue "BUG: lost" corruptWorld = (Fatal StoreCorrupt, corruptWorld)
  ∧ dbFile (after pushToGithub corruptWorld) = Garbage.
Proof.
  destruct (unloadable_store_is_left_alone corruptWorld StoreCorrupt eq_refl)
    as (Hadd & _ & _ & _ & _ & _ & _ & Hdb).
  split; [by apply Hadd | exact Hdb].
Defined.

Lemma createsOf_prints os : createsOf (EvPrint <$> os) = [].
Proof. induction os; simpl; done. Qed.

(** [listIssues] attempts no write and sends nothing. *)
Lemma listIssues_reads_only w filterLabel showClosed :
  dbFile (after (listIssues filterLabel showClosed) w) = dbFile w
  ∧ writesOf (trace (after (listIssues filterLabel showClosed) w))
    = writesOf (trace w)
  ∧ createsOf (trace (after (listIssues filterLabel showClosed) w))
    = createsOf (trace w).
Proof.
  destruct (load_dichotomy w) as [[issues Hs]|[e He]].
  - unfold after. rewrite (listIssues_run _ _ _ _ Hs).
    destruct (listLoop filterLabel showClosed issues [] 0) as [rows count].
    rewrite foldl_emit. cbn [snd dbFile trace].
    rewrite writesOf_app, createsOf_app, writesOf_prints, createsOf_prints.
    by rewrite !app_nil_r.
  - destruct (load_fails_run w e He) as (_ & Hlist & _).
    unfold after. by rewrite Hlist.
Qed.

(** [publishIssues] attempts no write and sends nothing. *)
Lemma publishIssues_reads_only w format :
  dbFile (after (publishIssues format) w) = dbFile w
  ∧ writesOf (trace (after (publishIssues format) w)) = writesOf (trace w)
  ∧ createsOf (trace (after (publishIssues format) w))
    = createsOf (trace w).
Proof.
  destruct (load_dichotomy w) as [[issues Hs]|[e He]].
  - unfold after, publishIssues.
    rewrite (bind_Done _ _ _ _ _ (loadIssues_storeOf _ _ Hs)).
    repeat case_bool_decide; simpl;
      rewrite ?writesOf_app, ?createsOf_app; simpl;
      by rewrite ?app_nil_r.
  - destruct (load_fails_run w e He) as (_ & _ & _ & Hpub).
    unfold after. by rewrite Hpub.
Qed.

(** X2. Listing and exporting only read: whatever the arguments and the
    state of the store, they attempt no write, leave the file as it is and
    send nothing to GitHub. *)
Theorem list_and_publish_only_read w :
  (∀ filterLabel showClosed,
     dbFile (after (listIssues filterLabel showClosed) w) = dbFile w
     ∧ writesOf (trace (after (listIssues filterLabel showClosed) w))
       = writesOf (trace w)
     ∧ createsOf (trace (after (listIssues filterLabel showClosed) w))
       = createsOf (trace w))
  ∧ (∀ format,
       dbFile (after (publishIssues format) w) = dbFile w
       ∧ writesOf (trace (after (publishIssues format) w))
         = writesOf (trace w)
       ∧ createsOf (trace (after (publishIssues format) w))
         = createsOf (trace w)).
Proof.
  split.
  - intros filterLabel showClosed. apply listIssues_reads_only.
  - intros format. apply publishIssues_reads_only.
Qed.

(** ** What adding and closing keep *)

Lemma keepsIssues_refl issues : keepsIssues issues issues.
Proof. intros j x Hx. exists x. split_and!; auto. Qed.

Lemma keepsIssues_add issues new : keepsIssues issues (issues ++ [new]).
Proof.
  intros j x Hx. exists x. split_and!; auto.
  by apply lookup_app_l_Some.
Qed.

Lemma keepsIssues_close pre x post :
  keepsIssues (pre ++ x :: post) (pre ++ setStatus statusClosed x :: post).
Proof.
  intros j y Hy. destruct (decide (j = length pre)) as [->|Hne].
  - rewrite list_lookup_middle in Hy by done. simplify_eq.
    exists (setStatus statusClosed y).
    rewrite list_lookup_middle by done. split_and!; auto.
  - exists y. split_and!; auto.
    rewrite <- (insert_middle pre post x).
    by rewrite list_lookup_insert_ne.
Qed.

(** The file after a run that ends in one write of [new]. *)
Lemma fileKeeps_save issues new w o :
  repoFound w = true → keepsIssues issues (Json.coerceIssue <$> new) →
  fileKeeps issues [new] w (after (do _ <- saveIssues new; println o) w).
Proof.
  intros Hrepo Hkeep. unfold fileKeeps.
  pose proof (storeOf_saved w new o Hrepo) as Hs.
  unfold after, bind in *. rewrite saveIssues_run in * by done.
  destruct (disk w); simpl in *; eauto.
Qed.

(** X3. Adding and closing never drop, move or rewrite an issue of the
    store they have loaded: each hands the store to [saveIssues] at most
    once, and what it hands over has every issue of the store at its
    position, with its id, title, labels and creation time, and with its
    status or the status closed; so no issue is reopened. What becomes of
    the file is up to the disk. If nothing is handed over, or the file
    cannot be opened for writing, the file is as it was. If the write goes
    through, the file yields a store that has kept the issues in the same
    way. If the write fails after the file has been truncated, the file
    does not parse any more, and the issues are lost with it. *)
Theorem add_and_close_keep_issues w issues :
  storeOf w = Some issues →
  (∀ title, ∃ news,
     writesOf (trace (after (addIssue title) w)) = writesOf (trace w) ++ news
     ∧ (length news ≤ 1)%nat ∧ Forall (keepsIssues issues) news
     ∧ fileKeeps issues news w (after (addIssue title) w))
  ∧ (∀ idStr, ∃ news,
       writesOf (trace (after (closeIssue idStr) w))
       = writesOf (trace w) ++ news
       ∧ (length news ≤ 1)%nat ∧ Forall (keepsIssues issues) news
       ∧ fileKeeps issues news w (after (closeIssue idStr) w)).
Proof.
  intros Hs. pose proof (storeOf_repoFound _ _ Hs) as Hrepo.
  pose proof (storeOf_coerced _ _ Hs) as Hfix. split.
  - intros title. destruct (decide (title = "")) as [->|Ht].
    + exists []. rewrite app_nil_r.
      split_and!; [done | simpl; lia | done | done].
    + eexists [_]. unfold after. rewrite (addIssue_run _ _ _ Ht Hs).
      split_and!; [by apply writes_of_save | done | |].
      * apply Forall_singleton, keepsIssues_add.
      * apply fileKeeps_save; [done|].
        rewrite fmap_app, Hfix. apply keepsIssues_add.
  - intros idStr. destruct (Strconv.Atoi idStr) as [id|] eqn:Hid.
    + destruct (decide (id ∈ ID <$> issues)) as [Hin|Hnin].
      * destruct (first_with_id id issues Hin)
          as (pre & x & post & -> & Hx & Hpre).
        unfold after.
        rewrite (closeIssue_found w idStr id pre x post Hid Hs Hpre Hx).
        case_bool_decide.
        -- exists []. simpl. rewrite writesOf_app. simpl.
           split_and!; [done | lia | done | done].
        -- eexists [_]. split_and!; [by apply writes_of_save | done | |].
           ++ apply Forall_singleton, keepsIssues_close.
           ++ apply fileKeeps_save; [done|].
              rewrite (coerced_close _ _ _ Hfix). apply keepsIssues_close.
      * exists []. unfold after.
        rewrite (closeIssue_not_found w idStr id issues Hid Hs).
        -- rewrite app_nil_r. split_and!; [done | simpl; lia | done | done].
        -- intros i Hi ?. apply Hnin, list_elem_of_fmap. eauto.
    + exists []. unfold after, closeIssue. rewrite Hid. simpl.
      rewrite app_nil_r. split_and!; [done | lia | done | done].
Qed.

Lemma add_and_close_keep_issues_witness :
  (∃ news,
     writesOf (trace (after (closeIssue "1") sampleWorld)) = [] ++ news
     ∧ Forall (keepsIssues sampleStore) news
     ∧ fileKeeps sampleStore news sampleWorld
                 (after (closeIssue "1") sampleWorld))
  ∧ dbFile (after (addIssue "lost") tornWorld) = Garbage.
Proof.
  split.
  - destruct (add_and_close_keep_issues sampleWorld sampleStore eq_refl)
      as [_ Hclose].
    destruct (Hclose "1") as (news & Hw & _ & Hkeep & Hfile).
    exists news. split_and!; [exact Hw | exact Hkeep | exact Hfile].
  - destruct (add_and_close_keep_issues tornWorld sampleStore eq_refl)
      as [Hadd _].
    destruct (Hadd "lost") as (news & Hw & _ & _ & Hfile).
    destruct news as [|l news]; [discriminate Hw|].
    exact (proj1 Hfile).
Defined.

(** ** Closing twice *)

Lemma storeOf_written w l :
  repoFound w = true → disk w = Written →
  ∀ o, storeOf (after (do _ <- saveIssues l; println o) w)
       = Some (Json.coerceIssue <$> l)
       ∧ result (do _ <- saveIssues l; println o) w = Done ()
       ∧ disk (after (do _ <- saveIssues l; println o) w) = Written
       ∧ clock (after (do _ <- saveIssues l; println o) w) = clock w.
Proof.
  intros Hrepo Hdisk o. unfold after, result, bind, storeOf.
  rewrite saveIssues_run by done. rewrite Hdisk. simpl. rewrite Hrepo.
  by rewrite coerceIssue_fmap_idemp.
Qed.

(** X4. Closing is idempotent. When the argument is the id of an issue of
    the store and writes go through, a second [close] with the same
    argument, run after the first, ends well, writes nothing, leaves the
    file as the first run left it and only reports that the issue is
    already closed. *)
Theorem closeIssue_twice w idStr id issues :
  Strconv.Atoi idStr = Some id → storeOf w = Some issues →
  id ∈ ID <$> issues → disk w = Written →
  closeIssue idStr (after (closeIssue idStr) w)
  = (Done (),
     emit (EvPrint (MsgAlreadyClosed id)) (after (closeIssue idStr) w)).
Proof.
  intros Hid Hs Hin Hdisk. pose proof (storeOf_repoFound _ _ Hs) as Hrepo.
  destruct (first_with_id id issues Hin) as (pre & x & post & -> & Hx & Hpre).
  pose proof (closeIssue_found w idStr id pre x post Hid Hs Hpre Hx) as Hrun.
  destruct (decide (Status x = statusClosed)) as [Hclosed|Hopen].
  - rewrite bool_decide_eq_true_2 in Hrun by done.
    assert (after (closeIssue idStr) w
            = emit (EvPrint (MsgAlreadyClosed id)) w) as ->
      by (unfold after; by rewrite Hrun).
    assert (storeOf (emit (EvPrint (MsgAlreadyClosed id)) w)
            = Some (pre ++ x :: post)) as Hs' by exact Hs.
    rewrite (closeIssue_found _ idStr id pre x post Hid Hs' Hpre Hx).
    by rewrite bool_decide_eq_true_2.
  - rewrite bool_decide_eq_false_2 in Hrun by done.
    destruct (storeOf_written w (pre ++ setStatus statusClosed x :: post)
                Hrepo Hdisk (MsgClosed id)) as (Hs' & _).
    rewrite (coerced_close _ _ _ (storeOf_coerced _ _ Hs)) in Hs'.
    unfold after in *. rewrite Hrun.
    rewrite (closeIssue_found _ idStr id pre (setStatus statusClosed x) post
               Hid Hs' Hpre Hx).
    by rewrite bool_decide_eq_true_2.
Qed.

Lemma closeIssue_twice_witness :
  result (closeIssue "1") (after (closeIssue "1") sampleWorld) = Done ()
  ∧ writesOf (trace (after (closeIssue "1")
                           (after (closeIssue "1") sampleWorld)))
    = writesOf (trace (after (closeIssue "1") sampleWorld)).
Proof.
  assert (1 ∈ ID <$> sampleStore) as Hin by left.
  pose proof (closeIssue_twice sampleWorld "1" 1 sampleStore eq_refl eq_refl
                Hin eq_refl) as Htwice.
  split.
  - unfold result. by rewrite Htwice.
  - change (after (closeIssue "1") (after (closeIssue "1") sampleWorld))
      with ((closeIssue "1" (after (closeIssue "1") sampleWorld)).2).
    rewrite Htwice. simpl. reflexivity.
Defined.

(** ** Commands one after the other *)

Lemma listing_app filterLabel showClosed l1 l2 :
  listing filterLabel showClosed (l1 ++ l2)
  = listing filterLabel showClosed l1 ++ listing filterLabel showClosed l2.
Proof. rewrite !listing_filter. apply filter_app. Qed.

Lemma addIssue_written w title issues :
  title ≠ "" → storeOf w = Some issues → disk w = Written →
  storeOf (after (addIssue title) w)
  = Some (issues ++ [Json.coerceIssue (newIssueFor issues title (clock w))])
  ∧ rowsOf (trace (after (addIssue title) w)) = rowsOf (trace w)
  ∧ disk (after (addIssue title) w) = Written.
Proof.
  intros Ht Hs Hdisk. pose proof (storeOf_repoFound _ _ Hs) as Hrepo.
  unfold after. rewrite (addIssue_run _ _ _ Ht Hs). cbn zeta.
  destruct (storeOf_written w (issues ++ [newIssueFor issues title (clock w)])
              Hrepo Hdisk
              (MsgAdded (ID (newIssueFor issues title (clock w)))
                        (Title (newIssueFor issues title (clock w)))
                        (Labels (newIssueFor issues title (clock w)))))
    as (Hs' & _ & Hd & _).
  rewrite fmap_app, (storeOf_coerced _ _ Hs) in Hs'.
  split_and!; [exact Hs' | | exact Hd].
  unfold bind. rewrite saveIssues_run by done. rewrite Hdisk. simpl.
  rewrite !rowsOf_app. simpl. by rewrite !app_nil_r.
Qed.

(** X5. A listing that follows an [add] shows the rows it would have
    shown before, and after them the new issue, which is open: always when
    no label is asked for, and otherwise exactly when the label asked for
    is one of the labels the auto-labeler gave it. The row is the issue as
    the file has it: with the id, the labels and the time [add] gave it,
    and with the title as [json] has written it, which is the title that
    was given when that is valid UTF-8. *)
Theorem list_after_add w title issues filterLabel showClosed :
  title ≠ "" → storeOf w = Some issues → disk w = Written →
  rowsOf (trace (after (listIssues filterLabel showClosed)
                       (after (addIssue title) w)))
  = rowsOf (trace w)
    ++ listing filterLabel showClosed issues
    ++ (if decide (filterLabel = ""
                   ∨ filterLabel
                     ∈ Labels (autoLabel
                                 (mkIssue 0 title statusOpen [] 0)))
        then [mkIssue (ID (newIssueFor issues title (clock w)))
                      (Json.coerce title) statusOpen
                      (Labels (newIssueFor issues title (clock w)))
                      (clock w)]
        else [])
  ∧ (Utf8.ValidString title = true → Json.coerce title = title).
Proof.
  intros Ht Hs Hdisk. split; [|apply coerce_valid].
  destruct (addIssue_written w title issues Ht Hs Hdisk) as (Hs' & Hrows & _).
  destruct (listIssues_effect _ filterLabel showClosed _ Hs')
    as (_ & -> & _).
  rewrite Hrows, listing_app, newIssueFor_coerced. do 2 f_equal.
  rewrite listing_filter, filter_cons, filter_nil.
  destruct (decide (filterLabel = "" ∨ _)) as [Hf|Hf].
  - rewrite decide_True; [done|]. split; [by right | exact Hf].
  - rewrite decide_False; [done|]. intros [_ H]. apply Hf. exact H.
Qed.

Lemma list_after_add_witness :
  rowsOf (trace (after (listIssues "feature" false)
                       (after (addIssue "FEAT: dark mode") sampleWorld)))
  = [] ++ [] ++ [mkIssue 5 "FEAT: dark mode" statusOpen ["feature"] 0].
Proof.
  destruct (list_after_add sampleWorld "FEAT: dark mode" sampleStore
              "feature" false) as [Hrows _]; [done | reflexivity..|].
  exact Hrows.
Defined.

Lemma pushToGithub_written w c w1 issues :
  resolveCredentials w = (Done c, w1) → storeOf w = Some issues →
  disk w = Written →
  storeOf (after pushToGithub w) = Some []
  ∧ disk (after pushToGithub w) = Written
  ∧ clock (after pushToGithub w) = clock w.
Proof.
  intros Hcred Hs Hdisk.
  destruct (pushToGithub_run w c w1 issues Hcred Hs) as (events & Hrun & _).
  unfold after. rewrite Hrun.
  destruct (storeOf_written (foldl (flip emit) w events) []) with
    (o := MsgCleared) as (Hs' & _ & Hd & Hc).
  - rewrite foldl_emit. eauto using storeOf_repoFound.
  - by rewrite foldl_emit.
  - unfold after in *. rewrite Hs', Hd, Hc. by rewrite foldl_emit.
Qed.

(** X6. A push that goes through empties the store, and the ids start
    again: the issue added next has the id 1, whatever ids the issues had
    that were pushed. The file then holds that issue alone, open, with the
    labels of its title and with its title as [json] has written it, which
    is the title that was given when that is valid UTF-8. *)
Theorem ids_restart_after_push w c w1 issues title :
  resolveCredentials w = (Done c, w1) → storeOf w = Some issues →
  disk w = Written → title ≠ "" →
  dbFile (after (addIssue title) (after pushToGithub w))
  = Holds [mkIssue 1 (Json.coerce title) statusOpen
                   (Labels (autoLabel (mkIssue 1 title statusOpen []
                                               (clock w))))
                   (clock w)]
  ∧ result (addIssue title) (after pushToGithub w) = Done ()
  ∧ (Utf8.ValidString title = true → Json.coerce title = title).
Proof.
  intros Hcred Hs Hdisk Ht.
  destruct (pushToGithub_written w c w1 issues Hcred Hs Hdisk)
    as (Hs' & Hd & Hc).
  destruct (addIssue_effect _ title [] Ht Hs') as (_ & Hw & _).
  destruct (Hw Hd) as [Hr ->]. split_and!; [|done|apply coerce_valid].
  rewrite Hc, newIssueFor_coerced. done.
Qed.

Lemma ids_restart_after_push_witness :
  dbFile (after (addIssue "next") (after pushToGithub sampleWorld))
  = Holds [mkIssue 1 "next" statusOpen [] 0].
Proof.
  destruct (ids_restart_after_push sampleWorld
              (mkCredentials "secret" "me" "proj")
              (foldl (flip emit) sampleWorld
                     (ghEvents ++ [EvPrint (MsgGhDetected "me" "proj")]))
              sampleStore "next" eq_refl eq_refl eq_refl) as [Hdb _];
    [done | exact Hdb].
Defined.

(** ** The counts *)

Lemma listLoop_count filterLabel showClosed issues rows count :
  0 ≤ count → count + Z.of_nat (length issues) ≤ GoInt.maxInt →
  (listLoop filterLabel showClosed issues rows count).2
  = count
    + Z.of_nat (length (filter (listed filterLabel showClosed) issues)).
Proof.
  revert rows count.
  induction issues as [|issue issues IH]; intros rows count H0 Hmax.
  - simpl. lia.
  - pose proof (listLoop_rows filterLabel showClosed (issue :: issues)
                  rows count) as Hrows.
    simpl in *. rewrite filter_cons in *.
    destruct (negb showClosed && bool_decide (Status issue = statusClosed)).
    { rewrite listLoop_rows in Hrows. apply app_inv_head in Hrows.
      rewrite IH by lia. by rewrite <- Hrows. }
    destruct (bool_decide (filterLabel ≠ "")
              && negb (labelFound filterLabel (Labels issue))).
    { rewrite listLoop_rows in Hrows. apply app_inv_head in Hrows.
      rewrite IH by lia. by rewrite <- Hrows. }
    rewrite listLoop_rows, <- app_assoc in Hrows.
    apply app_inv_head in Hrows.
    rewrite GoIntFacts.add_no_overflow
      by (unfold GoInt.inRange, GoInt.minInt, GoInt.maxInt in *; lia).
    rewrite IH by lia. rewrite <- Hrows. simpl. lia.
Qed.

(** X7. What a listing prints, in full: the header, one row for each
    listed issue, the line "No issues found." exactly when there is no
    row, and the footer. (The rows are counted in an [int]; the store is
    taken to have no more issues than an [int] can count.) *)
Theorem listIssues_output w filterLabel showClosed issues :
  storeOf w = Some issues →
  Z.of_nat (length issues) ≤ GoInt.maxInt →
  trace (after (listIssues filterLabel showClosed) w)
  = trace w
    ++ (EvPrint
          <$> [MsgListHeader]
              ++ (MsgListRow <$> listing filterLabel showClosed issues)
              ++ (match listing filterLabel showClosed issues with
                  | [] => [MsgNoIssues]
                  | _ :: _ => []
                  end)
              ++ [MsgListFooter]).
Proof.
  intros Hs Hlen. unfold after. rewrite (listIssues_run _ _ _ _ Hs).
  pose proof (listLoop_count filterLabel showClosed issues [] 0) as Hcount.
  unfold listing.
  pose proof (listLoop_rows filterLabel showClosed issues [] 0) as Hrows.
  destruct (listLoop filterLabel showClosed issues [] 0) as [rows count].
  cbn [fst snd] in *. rewrite app_nil_l in Hrows.
  specialize (Hcount ltac:(lia) ltac:(lia)). subst rows count.
  rewrite trace_foldl_emit.
  destruct (filter (listed filterLabel showClosed) issues); cbn [length].
  - by rewrite bool_decide_eq_true_2.
  - by rewrite bool_decide_eq_false_2 by lia.
Qed.

Lemma listIssues_output_witness :
  trace (after (listIssues "nothing" false) sampleWorld)
  = [] ++ (EvPrint <$> [MsgListHeader; MsgNoIssues; MsgListFooter]).
Proof.
  rewrite (listIssues_output sampleWorld "nothing" false sampleStore);
    [reflexivity | reflexivity |].
  unfold GoInt.maxInt. simpl. lia.
Defined.

Lemma successesOf_app e1 e2 :
  successesOf (e1 ++ e2) = (successesOf e1 + successesOf e2)%nat.
Proof. unfold successesOf. by rewrite List.filter_app, length_app. Qed.

(** The loop counts the requests that GitHub accepts. *)
Lemma pushLoop_count c localIssues count w :
  0 ≤ count → count + Z.of_nat (length localIssues) ≤ GoInt.maxInt →
  result (pushLoop c localIssues count) w
  = Done (count
          + Z.of_nat (successesOf
                        (batchEvents c (github w)
                           (length (List.filter isCreate (trace w)))
                           localIssues))).
Proof.
  revert count w.
  induction localIssues as [|issue localIssues IH]; intros count w H0 Hmax.
  - unfold result. simpl. f_equal. unfold successesOf. simpl. lia.
  - unfold result in *. simpl in *. case_bool_decide; [|apply IH; lia].
    rewrite (bind_Done _ _ _ _ _ (create_run _ _ _)). cbn zeta.
    set (ok := github w (length (List.filter isCreate (trace w)))).
    set (w1 := emit _ w).
    set (o := if ok then MsgCreated (Title issue)
              else MsgCreateFailed (ID issue)).
    assert (length (List.filter isCreate (trace (emit (EvPrint o) w1)))
            = S (length (List.filter isCreate (trace w)))) as Hk.
    { subst w1. simpl. rewrite !List.filter_app, !length_app. simpl. lia. }
    change (_ :: _ :: ?rest) with ([EvCreate (owner c) (repo c) (token c)
      (Title issue) (Labels issue) ok; EvPrint o] ++ rest).
    rewrite successesOf_app.
    subst o. destruct ok eqn:Hok;
      rewrite (bind_Done _ _ _ _ _ (println_run _ _)), IH, Hk;
      rewrite ?GoIntFacts.add_no_overflow;
      unfold GoInt.inRange, GoInt.minInt, GoInt.maxInt in *; try lia;
      f_equal; unfold successesOf at 2; simpl; lia.
Qed.

Lemma publishBatch_count c w issues :
  storeOf w = Some issues → Z.of_nat (length issues) ≤ GoInt.maxInt →
  let batch := batchEvents c (github w)
                           (length (List.filter isCreate (trace w))) issues in
  publishBatch c w =
    (do _ <- saveIssues [];
     println MsgCleared)
      (foldl (flip emit) w
             ([EvPrint (MsgPublishing (owner c) (repo c))] ++ batch
              ++ [EvPrint (MsgFinished (Z.of_nat (successesOf batch)))])).
Proof.
  intros Hs Hlen batch. unfold publishBatch.
  rewrite (bind_Done _ _ _ _ _ (loadIssues_storeOf _ _ Hs)).
  rewrite (bind_Done _ _ _ _ _ (println_run _ _)).
  set (w0 := emit (EvPrint (MsgPublishing (owner c) (repo c))) w).
  assert (length (List.filter isCreate (trace w0))
          = length (List.filter isCreate (trace w))) as Hk.
  { subst w0. simpl. rewrite List.filter_app, length_app. simpl. lia. }
  destruct (pushLoop_run c issues 0 w0) as [count Hrun].
  pose proof (pushLoop_count c issues 0 w0 ltac:(lia) ltac:(lia)) as Hcount.
  unfold result in Hcount. rewrite Hrun in Hcount. cbn [fst] in Hcount.
  rewrite Hk in Hrun, Hcount.
  change (github w0) with (github w) in Hrun, Hcount.
  fold batch in Hrun, Hcount. injection Hcount as ->.
  rewrite (bind_Done _ _ _ _ _ Hrun).
  rewrite (bind_Done _ _ _ _ _ (println_run _ _)).
  rewrite emit_foldl. subst w0. rewrite Z.add_0_l. done.
Qed.

Lemma finishedOf_app e1 e2 :
  finishedOf (e1 ++ e2) = finishedOf e1 ++ finishedOf e2.
Proof. apply omap_app. Qed.

Lemma finishedOf_batchEvents c oracle k localIssues :
  finishedOf (batchEvents c oracle k localIssues) = [].
Proof.
  revert k. induction localIssues as [|issue localIssues IH]; intros k.
  - done.
  - simpl. case_bool_decide; [|apply IH]. simpl.
    destruct (oracle k); simpl; apply IH.
Qed.

(** Resolving the credentials reports no total and sends nothing. *)
Lemma resolveCredentials_quiet w c w1 :
  resolveCredentials w = (Done c, w1) →
  ∃ es, w1 = foldl (flip emit) w es
        ∧ createsOf es = [] ∧ writesOf es = []
        ∧ finishedOf es = [] ∧ successesOf es = 0%nat.
Proof.
  rewrite resolveCredentials_run. intros Hrun.
  destruct (complete (ghTier w)); [|destruct (complete (envTier w))];
    simplify_eq; eexists; (split; [reflexivity|]); done.
Qed.

Lemma successes_le_creates c oracle k localIssues :
  (successesOf (batchEvents c oracle k localIssues)
   ≤ length (createsOf (batchEvents c oracle k localIssues)))%nat.
Proof.
  revert k. induction localIssues as [|issue localIssues IH]; intros k.
  - done.
  - simpl. case_bool_decide; [|apply IH].
    specialize (IH (S k)). unfold successesOf in *. simpl.
    destruct (oracle k); simpl; lia.
Qed.

(** X8. The total a push reports is right: once the credentials are
    there and the store loads, the run prints "Finished. Published n
    issues" once, where n is the number of requests that GitHub accepted
    in this run; it may be smaller than the number of open issues, and the
    store is cleared all the same. (The store is taken to have no more
    issues than an [int] can count.) *)
Theorem push_reports_accepted_requests w c w1 issues :
  resolveCredentials w = (Done c, w1) → storeOf w = Some issues →
  Z.of_nat (length issues) ≤ GoInt.maxInt →
  ∃ events,
    trace (after pushToGithub w) = trace w ++ events
    ∧ finishedOf events = [Z.of_nat (successesOf events)]
    ∧ (successesOf events ≤ length (createsOf events))%nat
    ∧ length (createsOf events)
      = length (filter (λ issue, Status issue = statusOpen) issues)
    ∧ writesOf events = [[]].
Proof.
  intros Hcred Hs Hlen.
  destruct (resolveCredentials_quiet _ _ _ Hcred)
    as (es & -> & Hc & Hw & Hfin & Hsucc).
  unfold after, pushToGithub. rewrite (bind_Done _ _ _ _ _ Hcred).
  rewrite (publishBatch_count c _ issues)
    by (rewrite ?storeOf_foldl_emit; done).
  rewrite <- foldl_app.
  set (batch := batchEvents _ _ _ _).
  unfold bind. rewrite saveIssues_run
    by (rewrite foldl_emit; eauto using storeOf_repoFound).
  rewrite foldl_emit. cbn [disk].
  assert (successesOf batch ≤ length (createsOf batch))%nat as Hle
    by apply successes_le_creates.
  assert (length (createsOf batch)
          = length (filter (λ issue, Status issue = statusOpen) issues))
    as Hlen'.
  { subst batch. by rewrite createsOf_batchEvents, length_fmap. }
  assert (finishedOf batch = [] ∧ writesOf batch = []) as [Hfb Hwb].
  { subst batch. by rewrite finishedOf_batchEvents, writesOf_batchEvents. }
  clearbody batch.
  destruct (disk w); unfold println, perform, setDBFile, emit;
    cbn [fst snd trace]; eexists; rewrite <- !app_assoc;
    (split; [reflexivity|]);
    rewrite ?finishedOf_app, ?successesOf_app, ?createsOf_app, ?writesOf_app,
      ?length_app, Hfin, Hsucc, Hc, Hw, Hfb, Hwb; simpl;
    unfold successesOf at 2 3; simpl;
    rewrite ?Nat.add_0_r; split_and!; try done; lia.
Qed.

Lemma push_reports_accepted_requests_witness :
  ∃ events,
    trace (after pushToGithub failingWorld) = [] ++ events
    ∧ finishedOf events = [0]
    ∧ length (createsOf events) = 2%nat.
Proof.
  destruct (push_reports_accepted_requests failingWorld
              (mkCredentials "secret" "me" "proj")
              (foldl (flip emit) failingWorld
                     (ghEvents ++ [EvPrint (MsgGhDetected "me" "proj")]))
              [mkIssue 1 "BUG: a" statusOpen ["bug"] 0;
               mkIssue 2 "b" statusClosed [] 0;
               mkIssue 3 "FEAT: c" statusOpen ["feature"] 0]
              eq_refl eq_refl)
    as (events & Htrace & Hfin & _ & Hlen & _).
  { unfold GoInt.maxInt. simpl. lia. }
  exists events. split; [exact Htrace|].
  vm_compute in Htrace. subst events. split; reflexivity.
Defined.

(** ** The rules exclude one another *)

Section exclusive.

Import Fold.

Lemma stripPrefix_Some e s r : stripPrefix e s = Some r → s = e +:+ r.
Proof.
  revert s. induction e as [|a e IH]; intros s; simpl.
  - by intros [= ->].
  - destruct s as [|b s]; [done|].
    destruct (Ascii.eqb_spec a b) as [->|]; [|done].
    intros ->%IH. done.
Qed.

Lemma stripAny_Some es s r :
  stripAny es s = Some r → ∃ e, e ∈ es ∧ s = e +:+ r.
Proof.
  induction es as [|e es IH]; simpl; [done|].
  destruct (stripPrefix e s) as [r'|] eqn:He.
  - intros [= ->]. exists e. split; [left | by apply stripPrefix_Some].
  - intros (e' & Hin & ->)%IH. exists e'. split; [by right | done].
Qed.

(** Whichever rune of the orbit of an ASCII rune a text starts with, its
    first rune folds to that rune. *)
Lemma foldHead_orbit a e r :
  (nat_of_ascii a <? 128)%nat = true → e ∈ orbit a →
  foldHead (e +:+ r) = Some (toUpper a, r).
Proof.
  intros Ha He.
  destruct a as [[] [] [] [] [] [] [] []]; try discriminate Ha;
    match type of He with
    | context [orbit ?a] =>
        let o := eval vm_compute in (orbit a) in
        change (orbit a) with o in He
    end;
    repeat (apply elem_of_cons in He as [->|He]);
    try (by apply elem_of_nil in He); reflexivity.
Qed.

Lemma foldHead_stripAny a s r :
  (nat_of_ascii a <? 128)%nat = true →
  stripAny (orbit a) s = Some r → foldHead s = Some (toUpper a, r).
Proof.
  intros Ha (e & He & ->)%stripAny_Some. by apply foldHead_orbit.
Qed.

(** Two ASCII literals that both match at the start of a text agree, case
    aside, as far as the shorter one goes. *)
Lemma lit_compatible p q s r1 r2 :
  isASCII p = true → isASCII q = true →
  lit p s = Some r1 → lit q s = Some r2 →
  hasPrefixNoCase p q = true ∨ hasPrefixNoCase q p = true.
Proof.
  revert q s. induction p as [|a p IH]; intros q s Hp Hq H1 H2; [by left|].
  destruct q as [|b q]; [by right|].
  simpl in Hp, Hq, H1, H2.
  apply andb_prop in Hp as [Ha Hp]. apply andb_prop in Hq as [Hb Hq].
  destruct (stripAny (orbit a) s) as [m1|] eqn:Hm1; [|done].
  destruct (stripAny (orbit b) s) as [m2|] eqn:Hm2; [|done].
  apply foldHead_stripAny in Hm1, Hm2; [|done..].
  rewrite Hm1 in Hm2. injection Hm2 as Hab <-.
  simpl. rewrite Hab, Ascii.eqb_refl. simpl.
  destruct (IH q m1 Hp Hq H1 H2) as [->| ->]; auto.
Qed.

Lemma isASCII_app p q :
  isASCII (p +:+ q) = isASCII p && isASCII q.
Proof.
  induction p as [|a p IH]; [done|].
  change (String a p +:+ q) with (String a (p +:+ q)). simpl.
  by rewrite IH, andb_assoc.
Qed.

(** Two rules whose tokens do not overlap never match the same title. *)
Lemma prefixRules_exclusive w ws w' ws' title :
  forallb isASCII (w :: ws) = true → forallb isASCII (w' :: ws') = true →
  disjointTokens (w :: ws) (w' :: ws') = true →
  MatchString (prefixRule w ws) title = true →
  MatchString (prefixRule w' ws') title = true → False.
Proof.
  intros Hascii Hascii' Hdis.
  rewrite !MatchString_prefixRule.
  intros (t & Ht & [r Hr]) (t' & Ht' & [r' Hr']).
  unfold disjointTokens in Hdis.
  rewrite forallb_forall in Hascii, Hascii', Hdis.
  apply list_elem_of_In in Ht, Ht'.
  specialize (Hdis t Ht). rewrite forallb_forall in Hdis.
  specialize (Hdis t' Ht').
  apply andb_prop in Hdis as [H1%negb_true_iff H2%negb_true_iff].
  assert (isASCII (t +:+ ":") = true) as Ha
    by (rewrite isASCII_app, (Hascii t Ht); done).
  assert (isASCII (t' +:+ ":") = true) as Ha'
    by (rewrite isASCII_app, (Hascii' t' Ht'); done).
  destruct (lit_compatible _ _ _ _ _ Ha Ha' Hr Hr'); congruence.
Qed.

End exclusive.

(** At most one of the six rules matches a title. *)
Lemma matching_at_most_one title :
  (length (matching title defaultLabelPatterns) ≤ 1)%nat.
Proof.
  unfold matching, defaultLabelPatterns. cbn [List.filter Pattern].
  repeat match goal with
         | |- context [MatchString ?r title] =>
             let H := fresh "Hm" in
             destruct (MatchString r title) eqn:H
         end;
    try (simpl; lia);
    exfalso;
    match goal with
    | H1 : MatchString (prefixRule ?w ?ws) title = true,
      H2 : MatchString (prefixRule ?w' ?ws') title = true |- _ =>
        exact (prefixRules_exclusive w ws w' ws' title eq_refl eq_refl
                 eq_refl H1 H2)
    end.
Qed.

Lemma sortStrings_length l : length (sortStrings l) = length l.
Proof. by rewrite sortStrings_Permutation. Qed.

Lemma sortStrings_short l : (length l ≤ 1)%nat → sortStrings l = l.
Proof.
  intros Hl. apply sortStrings_sorted.
  destruct l as [|x [|y l]]; [constructor | repeat constructor |].
  simpl in Hl. lia.
Qed.

(** X9. The rules exclude one another: no title is matched by two of the
    six patterns. So the auto-labeler adds one label at most and removes
    none, and an issue that starts without labels, as every new issue
    does, ends with the label of the one rule its title matches, or with
    none. *)
Theorem autoLabel_adds_at_most_one_label (issue : Issue) :
  (∀ lp1 lp2,
     lp1 ∈ defaultLabelPatterns → lp2 ∈ defaultLabelPatterns →
     MatchString (Pattern lp1) (Title issue) = true →
     MatchString (Pattern lp2) (Title issue) = true → lp1 = lp2)
  ∧ (length (Labels issue) ≤ length (Labels (autoLabel issue))
     ≤ length (Labels issue) + 1)%nat
  ∧ (Labels issue = [] →
     Labels (autoLabel issue) = matching (Title issue) defaultLabelPatterns
     ∧ (length (Labels (autoLabel issue)) ≤ 1)%nat).
Proof.
  pose proof (matching_at_most_one (Title issue)) as Hone.
  destruct (autoLabel_Labels issue) as (added & Heq & Hnd & Hin).
  assert (added ⊆+ matching (Title issue) defaultLabelPatterns) as Hsub.
  { apply NoDup_submseteq; [done|]. intros l Hl. by apply Hin in Hl as [_ ?]. }
  apply submseteq_length in Hsub.
  split_and!.
  - intros lp1 lp2 H1 H2 Hm1 Hm2.
    unfold matching in Hone. rewrite length_fmap in Hone.
    assert (∀ lp, lp ∈ defaultLabelPatterns →
                  MatchString (Pattern lp) (Title issue) = true →
                  lp ∈ List.filter
                         (λ lp, MatchString (Pattern lp) (Title issue))
                         defaultLabelPatterns) as Hfilter.
    { intros lp Hlp Hm. apply list_elem_of_In, filter_In.
      by rewrite <- list_elem_of_In. }
    apply Hfilter in H1, H2; [|done..].
    destruct (List.filter _ defaultLabelPatterns) as [|x [|y l]];
      [by apply elem_of_nil in H1 | | simpl in Hone; lia].
    apply list_elem_of_singleton in H1, H2. congruence.
  - rewrite Heq, sortStrings_length, length_app. lia.
  - rewrite Heq, sortStrings_length, length_app. lia.
  - intros Hnil. rewrite Hnil in Heq, Hin. rewrite app_nil_l in Heq.
    assert (added = matching (Title issue) defaultLabelPatterns) as <-.
    { destruct (matching (Title issue) defaultLabelPatterns)
        as [|l [|l' ls]] eqn:Hm.
      - destruct added; [done | simpl in Hsub; lia].
      - destruct added as [|a [|]]; [| |simpl in Hsub; lia].
        + destruct (Hin l) as [_ Hl]. exfalso.
          eapply elem_of_nil, Hl. split; [apply not_elem_of_nil | left].
        + destruct (Hin a) as [[_ Ha] _]; [left|].
          apply list_elem_of_singleton in Ha. by subst.
      - simpl in Hone. lia. }
    rewrite Heq, sortStrings_short by lia. split; [done | lia].
Qed.

Lemma autoLabel_adds_at_most_one_label_witness :
  Labels (autoLabel (mkIssue 1 "Docs: install" statusOpen [] 0))
  = matching "Docs: install" defaultLabelPatterns
  ∧ matching "Docs: install" defaultLabelPatterns = ["documentation"].
Proof.
  destruct (autoLabel_adds_at_most_one_label
              (mkIssue 1 "Docs: install" statusOpen [] 0)) as (_ & _ & H).
  destruct (H eq_refl) as [Heq _]. split; [exact Heq | reflexivity].
Defined.

(** ** Finding the repository *)

Section repo_root.

Implicit Types (path root q : Path).

Lemma Dir_fixed path : Dir path = path ↔ path = [].
Proof.
  unfold Dir. split; [|by intros ->].
  destruct path as [|x path] using rev_ind; [done|].
  rewrite removelast_last. intros H.
  apply (f_equal length) in H. rewrite length_app in H. simpl in H. lia.
Qed.

Lemma Dir_length path : path ≠ [] → length path = S (length (Dir path)).
Proof.
  unfold Dir. destruct path as [|x path _] using rev_ind; [done|].
  intros _. rewrite removelast_last, length_app. simpl. lia.
Qed.

(** The ancestors of a directory: itself and the ancestors of its
    parent. *)
Lemma prefix_Dir q path :
  path ≠ [] → q `prefix_of` path ↔ q = path ∨ q `prefix_of` Dir path.
Proof.
  unfold Dir. destruct path as [|x path _] using rev_ind; [done|].
  intros _. rewrite removelast_last. split.
  - intros [k Hk]. destruct k as [|y k _] using rev_ind.
    + left. by rewrite app_nil_r in Hk.
    + right. rewrite app_assoc in Hk.
      apply app_inj_tail in Hk as [-> _]. by exists k.
  - intros [->|[k ->]]; [done|]. exists (k ++ [x]). by rewrite app_assoc.
Qed.

Lemma walkUp_spec fs fuel path :
  (length path ≤ fuel)%nat →
  match walkUp fs fuel path with
  | inr root =>
      root `prefix_of` path ∧ hasGit fs root = true
      ∧ ∀ q, q `prefix_of` path → hasGit fs q = true → q `prefix_of` root
  | inl NotAGitRepository =>
      ∀ q, q `prefix_of` path → hasGit fs q = false
  | inl _ => False
  end.
Proof.
  revert path. induction fuel as [|fuel IH]; intros path Hlen; simpl.
  - destruct path; [|simpl in Hlen; lia].
    destruct (hasGit fs []) eqn:Hgit.
    + split_and!; [done | done |]. by intros q ->%prefix_nil_inv.
    + rewrite decide_True by done. by intros q ->%prefix_nil_inv.
  - destruct (hasGit fs path) eqn:Hgit.
    { split_and!; [done | done | by intros q Hq _]. }
    destruct (decide (Dir path = path)) as [Hroot|Hparent].
    { apply Dir_fixed in Hroot as ->. by intros q ->%prefix_nil_inv. }
    assert (path ≠ []) as Hne by (by rewrite <- Dir_fixed).
    pose proof (Dir_length path Hne) as Hl.
    specialize (IH (Dir path) ltac:(lia)).
    destruct (walkUp fs fuel (Dir path)) as [[]|root]; try done.
    + intros q [->|Hq]%prefix_Dir; [done | by apply IH | done].
    + destruct IH as (Hpre & Hroot & Hmax). split_and!; [|done|].
      * apply prefix_Dir; auto.
      * intros q [->|Hq]%prefix_Dir Hq'; [congruence | by apply Hmax | done].
Qed.

(** The walk always comes to an end within the rounds it is given. *)
Lemma getRepoRoot_finishes fs : getRepoRoot fs ≠ inl WalkUnfinished.
Proof.
  unfold getRepoRoot. destruct (cwd fs) as [path|]; [|done].
  pose proof (walkUp_spec fs (length path) path ltac:(lia)) as H.
  by destruct (walkUp fs (length path) path) as [[]|].
Qed.

(** X10. [getRepoRoot] finds the innermost repository around the working
    directory: its result is the working directory or one of its
    ancestors, it holds a [.git] entry, and every ancestor that holds one
    is an ancestor of the result (or the result). It reports "not a git
    repository" exactly when neither the working directory nor any
    ancestor up to the root holds one. The database path is the result
    with [.issue_tracker.json] added. *)
Theorem getRepoRoot_innermost fs path :
  cwd fs = Some path →
  (∀ root, getRepoRoot fs = inr root ↔
           root `prefix_of` path ∧ hasGit fs root = true
           ∧ ∀ q, q `prefix_of` path → hasGit fs q = true →
                  q `prefix_of` root)
  ∧ (getRepoRoot fs = inl NotAGitRepository
     ↔ ∀ q, q `prefix_of` path → hasGit fs q = false)
  ∧ (∀ root, getRepoRoot fs = inr root →
             getDBPathIn fs = inr (root ++ [dbFileName]))
  ∧ (∀ err, getRepoRoot fs = inl err → getDBPathIn fs = inl err).
Proof.
  intros Hcwd. unfold getDBPathIn, getRepoRoot. rewrite Hcwd.
  pose proof (walkUp_spec fs (length path) path ltac:(lia)) as H.
  destruct (walkUp fs (length path) path) as [[]|root];
    try done; (split_and!; [| |by intros ? [= <-] |by intros ? [= <-]]).
  - intros root. split; [done|]. intros (Hpre & Hgit & _).
    by rewrite H in Hgit.
  - done.
  - intros root'. destruct H as (Hpre & Hgit & Hmax). split.
    + by intros [= <-].
    + intros (Hpre' & Hgit' & Hmax'). f_equal.
      apply (anti_symm prefix); [by apply Hmax' | by apply Hmax].
  - split; [done|]. intros Hnone. destruct H as (Hpre & Hgit & _).
    by rewrite Hnone in Hgit.
Qed.

Lemma getRepoRoot_innermost_witness :
  getRepoRoot sampleFS = inr ["home"; "dev"; "proj"]
  ∧ getDBPathIn sampleFS
    = inr ["home"; "dev"; "proj"; ".issue_tracker.json"].
Proof.
  destruct (getRepoRoot_innermost sampleFS
              ["home"; "dev"; "proj"; "src"; "cmd"] eq_refl)
    as (_ & _ & Hdb & _).
  split; [reflexivity|]. apply (Hdb ["home"; "dev"; "proj"]). reflexivity.
Defined.

End repo_root.

(** ** The command line *)

Section command_line.

Import Args.

Lemma Join_cons e elems sep :
  elems ≠ [] → Join (e :: elems) sep = e +:+ sep +:+ Join elems sep.
Proof. by destruct elems. Qed.

Lemma append_empty (s1 s2 : string) : s1 +:+ s2 = "" → s1 = "" ∧ s2 = "".
Proof. destruct s1; [done|]. discriminate. Qed.

(** Joined with a space, arguments give the empty string only when there
    is one of them at most and it is empty. *)
Lemma Join_space_empty args : Join args " " = "" ↔ args = [] ∨ args = [""].
Proof.
  split; [|by intros [-> | ->]].
  destruct args as [|e [|e' args]]; simpl; [by left | by intros ->; right|].
  intros [_ [H _]%append_empty]%append_empty. discriminate H.
Qed.

(** Joining is the same for the joined list taken as one argument. *)
Lemma Join_singleton s sep : Join [s] sep = s.
Proof. done. Qed.

Lemma main_add_run prog args w :
  args ≠ [] →
  main (prog :: "add" :: args) w
  = (Ran (result (addIssue (Join args " ")) w),
     after (addIssue (Join args " ")) w).
Proof.
  intros Hne. unfold main.
  rewrite (bool_decide_eq_true_2 ("add" = "add")) by done.
  rewrite bool_decide_eq_false_2 by (by destruct args). done.
Qed.

(** X11. The title of [add] is its arguments joined by single spaces, so
    the words of a title may be given unquoted: the command does the same
    as with the joined title as its only argument. It is refused as empty
    exactly when the only argument is the empty string; without arguments
    [main] ends in its own usage error, and in both cases nothing is
    loaded or written. *)
Theorem main_add_joins_arguments prog args w :
  (args = [] → main (prog :: "add" :: args) w = (BadUsage AddNeedsTitle, w))
  ∧ (args ≠ [] →
     main (prog :: "add" :: args) w
     = (Ran (result (addIssue (Join args " ")) w),
        after (addIssue (Join args " ")) w)
     ∧ main (prog :: "add" :: args) w
       = main [prog; "add"; Join args " "] w)
  ∧ (args = [""] →
     main (prog :: "add" :: args) w = (Ran (Fatal EmptyTitle), w))
  ∧ (args ≠ [] → args ≠ [""] →
     ∀ issues, storeOf w = Some issues →
       ∃ new, Title new = Join args " " ∧ Title new ≠ ""
              ∧ writesOf (trace (main (prog :: "add" :: args) w).2)
                = writesOf (trace w) ++ [issues ++ [new]]).
Proof.
  split_and!.
  - by intros ->.
  - intros Hne. rewrite (main_add_run _ _ _ Hne). split; [done|].
    by rewrite (main_add_run prog [Join args " "] w).
  - by intros ->.
  - intros Hne Hne' issues Hs.
    assert (Join args " " ≠ "") as Ht.
    { rewrite Join_space_empty. tauto. }
    exists (newIssueFor issues (Join args " ") (clock w)).
    split_and!; [done..|].
    rewrite (main_add_run _ _ _ Hne). cbn [snd].
    by destruct (addIssue_effect w _ issues Ht Hs) as (-> & _).
Qed.

Lemma main_add_joins_arguments_witness :
  main ["issueify"; "add"; "BUG:"; "crash"; "on"; "save"] sampleWorld
  = main ["issueify"; "add"; "BUG: crash on save"] sampleWorld
  ∧ ∃ new, Title new = "BUG: crash on save"
           ∧ writesOf (trace (main ["issueify"; "add"; "BUG:"; "crash";
                                    "on"; "save"] sampleWorld).2)
             = [] ++ [sampleStore ++ [new]].
Proof.
  destruct (main_add_joins_arguments "issueify"
              ["BUG:"; "crash"; "on"; "save"] sampleWorld)
    as (_ & Hjoin & _ & Hwrite).
  split.
  - by apply Hjoin.
  - destruct (Hwrite ltac:(done) ltac:(done) sampleStore eq_refl)
      as (new & Ht & _ & Hw).
    exists new. split; [exact Ht | exact Hw].
Defined.

Lemma last_cons_default {A} (x : A) l d : List.last (x :: l) d = List.last l x.
Proof.
  revert x d. induction l as [|y l IH]; intros x d; [done|].
  change (List.last (x :: y :: l) d) with (List.last (y :: l) d).
  by rewrite !IH.
Qed.

Lemma labelFlags_cons arg args :
  labelFlags (arg :: args)
  = match TrimPrefix arg "--label=" with
    | Some label => label :: labelFlags args
    | None => labelFlags args
    end.
Proof. unfold labelFlags. simpl. by destruct (TrimPrefix arg "--label="). Qed.

Lemma listFlags_spec args filterLabel showAll :
  listFlags args filterLabel showAll
  = (List.last (labelFlags args) filterLabel,
     showAll || bool_decide ("--all" ∈ args)).
Proof.
  revert filterLabel showAll.
  induction args as [|arg args IH]; intros filterLabel showAll.
  - simpl. by rewrite orb_false_r.
  - cbn [listFlags]. rewrite labelFlags_cons.
    destruct (TrimPrefix arg "--label=") as [label|] eqn:Hp.
    + rewrite IH, last_cons_default. do 2 f_equal.
      apply bool_decide_ext. rewrite elem_of_cons.
      split; [by right|]. intros [<-|?]; [by vm_compute in Hp | done].
    + destruct (decide (arg = "--all")) as [->|Hne].
      * rewrite (bool_decide_eq_true_2 ("--all" = "--all")) by done.
        rewrite IH, orb_true_l, orb_comm.
        by rewrite (bool_decide_eq_true_2 (_ ∈ _ :: _)) by left.
      * rewrite (bool_decide_eq_false_2 (arg = "--all")) by done.
        rewrite IH. do 2 f_equal. apply bool_decide_ext.
        rewrite elem_of_cons. naive_solver.
Qed.

(** X12. The flags of [list]: the label asked for is the value of the
    last argument of the form [--label=value] (none, if there is no such
    argument or the last value is empty), closed issues are shown exactly
    when some argument is [--all], and every other argument is ignored,
    in whatever order they come. *)
Theorem main_list_flags prog args w :
  main (prog :: "list" :: args) w
  = (Ran (result (listIssues (List.last (labelFlags args) "")
                             (bool_decide ("--all" ∈ args))) w),
     after (listIssues (List.last (labelFlags args) "")
                       (bool_decide ("--all" ∈ args))) w).
Proof.
  unfold main.
  rewrite (bool_decide_eq_false_2 ("list" = "add")) by done.
  rewrite (bool_decide_eq_true_2 ("list" = "list")) by done.
  by rewrite listFlags_spec.
Qed.

End command_line.

(** X13. Only [add], [close] and [push] can change the store or reach
    GitHub. With any other command word, or none, and whatever else is on
    the command line, [main] attempts no write, leaves the file as it is
    and sends nothing; and a command line that lacks the title of [add],
    or has not exactly one argument for [close] or for [publish], ends in
    a usage error before anything is loaded. *)
Theorem main_other_commands_only_read osArgs w :
  (∀ prog command args,
     osArgs = prog :: command :: args →
     command ≠ "add" → command ≠ "close" → command ≠ "push" →
     dbFile (main osArgs w).2 = dbFile w
     ∧ writesOf (trace (main osArgs w).2) = writesOf (trace w)
     ∧ createsOf (trace (main osArgs w).2) = createsOf (trace w))
  ∧ ((length osArgs < 2)%nat → main osArgs w = (Helped, w))
  ∧ (∀ prog, osArgs = [prog; "add"] →
             main osArgs w = (BadUsage AddNeedsTitle, w))
  ∧ (∀ prog args, osArgs = prog :: "close" :: args → length args ≠ 1%nat →
                  main osArgs w = (BadUsage CloseNeedsOneID, w))
  ∧ (∀ prog args, osArgs = prog :: "publish" :: args →
                  length args ≠ 1%nat →
                  main osArgs w = (BadUsage PublishNeedsFormat, w)).
Proof.
  split_and!.
  - intros prog command args -> Hadd Hclose Hpush. unfold main.
    rewrite (bool_decide_eq_false_2 (command = "add")) by done.
    rewrite (bool_decide_eq_false_2 (command = "close")) by done.
    rewrite (bool_decide_eq_false_2 (command = "push")) by done.
    case_bool_decide.
    { destruct (Args.listFlags args "" false) as [filterLabel showAll].
      apply listIssues_reads_only. }
    case_bool_decide.
    { destruct args as [|format [|]]; try done.
      apply publishIssues_reads_only. }
    by case_bool_decide.
  - intros Hlen. destruct osArgs as [|? [|]]; simpl in *; try done; lia.
  - by intros prog ->.
  - intros prog args -> Hlen. by destruct args as [|? [|]].
  - intros prog args -> Hlen. by destruct args as [|? [|]].
Qed.

Lemma main_other_commands_only_read_witness :
  dbFile (main ["issueify"; "publish"; "json"; "extra"] sampleWorld).2
  = Holds sampleStore
  ∧ main ["issueify"; "close"] sampleWorld
    = (BadUsage CloseNeedsOneID, sampleWorld).
Proof.
  destruct (main_other_commands_only_read
              ["issueify"; "publish"; "json"; "extra"] sampleWorld)
    as (Hread & _).
  destruct (main_other_commands_only_read ["issueify"; "close"] sampleWorld)
    as (_ & _ & _ & Hclose & _).
  split.
  - by destruct (Hread "issueify" "publish" ["json"; "extra"] eq_refl)
      as (-> & _).
  - by apply (Hclose "issueify" []).
Defined.

(** ** The patterns on a title that has been through the file *)

Section coerced_titles.

Import Utf8 Json Fold.

Lemma stripPrefix_app e r : stripPrefix e (e +:+ r) = Some r.
Proof. induction e as [|a e IH]; simpl; [done|]. by rewrite Ascii.eqb_refl. Qed.

Lemma string_app_inj (p q x y : string) :
  String.length p = String.length q → p +:+ x = q +:+ y → p = q ∧ x = y.
Proof.
  revert q. induction p as [|a p IH]; intros [|b q]; simpl; try done.
  intros [= Hlen] [= -> Heq]. destruct (IH q Hlen Heq) as [-> ->]. done.
Qed.

(** The width of an encoding is decided by its first byte. *)
Lemma width_first b s t n m :
  width (String b s) = Some n → width (String b t) = Some m → n = m.
Proof.
  unfold width.
  destruct (nat_of_ascii b <? 128)%nat; [congruence|].
  destruct (between 194 223 b).
  { destruct s as [|? ?], t as [|? ?]; try done.
    repeat case_match; congruence. }
  destruct (between 224 239 b).
  { destruct s as [|? [|? ?]], t as [|? [|? ?]]; try done.
    repeat case_match; congruence. }
  destruct (between 240 244 b); [|done].
  destruct s as [|? [|? [|? ?]]], t as [|? [|? [|? ?]]]; try done.
  repeat case_match; congruence.
Qed.

(** A text starts with a rune after it has been through the file exactly
    when it did before. *)
Lemma stripPrefix_coerce e s :
  encodesRune e → stripPrefix e (coerce s) = coerce <$> stripPrefix e s.
Proof.
  intros [(a & e' & -> & Ha) Hw].
  destruct (stripPrefix (String a e') s) as [r|] eqn:Hs.
  - apply stripPrefix_Some in Hs as ->.
    change (String a e' +:+ r) with (String a (e' +:+ r)).
    rewrite (coerce_encoding a e' r (String.length (String a e')));
      [|done | apply Hw].
    apply (stripPrefix_app (String a e')).
  - destruct s as [|b s]; [done|].
    rewrite coerce_cons.
    destruct (width (String b s)) as [n|] eqn:Hb.
    + destruct (width_Some _ _ Hb) as (b' & p & r & Heq & Hlen & Hall).
      injection Heq as <- ->. rewrite <- Hlen, coerceFrom_app.
      destruct (stripPrefix (String a e') (String b (p +:+ coerce r)))
        as [x|] eqn:Hx; [|done].
      exfalso. apply stripPrefix_Some in Hx.
      change (String a e' +:+ x) with (String a (e' +:+ x)) in Hx.
      injection Hx as -> Hx.
      pose proof (width_first _ _ _ _ _ Hb (Hw r)) as ->.
      apply string_app_inj in Hx as [-> _]; [|done].
      pose proof (stripPrefix_app (String a e') r) as Hr.
      change (String a e' +:+ r) with (String a (e' +:+ r)) in Hr.
      congruence.
    + rewrite replacement_app. cbn [stripPrefix].
      destruct (Ascii.eqb_spec a (ascii_of_nat 239)); done.
Qed.

Lemma stripAny_coerce es s :
  Forall encodesRune es → stripAny es (coerce s) = coerce <$> stripAny es s.
Proof.
  induction 1 as [|e es He _ IH]; [done|]. cbn [stripAny].
  rewrite (stripPrefix_coerce e s He).
  by destruct (stripPrefix e s).
Qed.

Lemma orbit_encodesRune c :
  (nat_of_ascii c <? 128)%nat = true → Forall encodesRune (orbit c).
Proof.
  intros Hc.
  destruct c as [[] [] [] [] [] [] [] []]; try discriminate Hc;
    match goal with
    | |- context [orbit ?a] =>
        let o := eval vm_compute in (orbit a) in change (orbit a) with o
    end;
    repeat (apply Forall_cons_2 || apply Forall_nil_2);
    (split; [eexists _, _; split; [reflexivity | discriminate]
            | intros t; reflexivity]).
Qed.

Lemma lit_coerce p s :
  isASCII p = true → lit p (coerce s) = coerce <$> lit p s.
Proof.
  revert s. induction p as [|c p IH]; intros s; [done|].
  cbn [isASCII lit]. intros [Hc Hp]%andb_prop.
  rewrite (stripAny_coerce _ s (orbit_encodesRune c Hc)).
  destruct (stripAny (orbit c) s) as [rest|]; [|done]. by apply IH.
Qed.

Lemma matchPrefix_coerce r s :
  asciiRegex r = true → matchPrefix r (coerce s) = coerce <$> matchPrefix r s.
Proof.
  revert s. induction r as [p|r1 IH1 r2 IH2|r1 IH1 r2 IH2]; intros s;
    cbn [asciiRegex matchPrefix].
  - intros Hp. rewrite lit_coerce by done. by destruct (lit p s).
  - intros [H1 H2]%andb_prop. by rewrite IH1, IH2, fmap_app.
  - intros [H1 H2]%andb_prop. rewrite IH1 by done.
    induction (matchPrefix r1 s) as [|x l IHl]; [done|].
    cbn [fmap list_fmap]. rewrite !bind_cons, fmap_app.
    by rewrite IH2, IHl.
Qed.

Lemma MatchString_coerce r s :
  asciiRegex r = true → MatchString r (coerce s) = MatchString r s.
Proof.
  intros Hr. unfold MatchString. rewrite matchPrefix_coerce by done.
  by destruct (matchPrefix r s).
Qed.

(** The rules a title matches are those it matched before it went through
    the file: the prefixes the rules look for are valid UTF-8. *)
Lemma matching_coerce title :
  matching (coerce title) defaultLabelPatterns
  = matching title defaultLabelPatterns.
Proof.
  unfold matching. f_equal.
  assert (Forall (λ lp, asciiRegex (Pattern lp) = true) defaultLabelPatterns)
    as Hall by (repeat constructor).
  induction Hall as [|lp pats Hlp _ IH]; [done|].
  cbn [List.filter]. by rewrite MatchString_coerce, IH.
Qed.

End coerced_titles.

(** ** What the program makes of a fresh repository *)

Section sessions.

Lemma wellMade_mono n m issue : n ≤ m → wellMade n issue → wellMade m issue.
Proof. intros Hnm ([??] & ? & ? & ? & ?). repeat split; try done; lia. Qed.

(** An issue the program has made is read from the file as it is there. *)
Lemma wellMade_coerced n issue :
  wellMade n issue → validStatus issue → Json.coerceIssue issue = issue.
Proof.
  destruct issue as [id title status labels created].
  unfold wellMade, validStatus, Json.coerceIssue. simpl.
  intros (_ & _ & -> & _ & ->) Hst. f_equal.
  - by destruct Hst as [-> | ->].
  - apply fmap_fixed. intros l. apply matching_label_coerce.
Qed.

Lemma selfMade_mono n m f : n ≤ m → selfMade n f → selfMade m f.
Proof.
  intros Hnm. destruct f as [| | |issues]; simpl; try done.
  intros (Hinv & Hsorted & Hall). split_and!; [done..|].
  eapply Forall_impl; [exact Hall|]. intros issue. by apply wellMade_mono.
Qed.

(** A fresh issue gets the labels of the rules its title matches. *)
Lemma autoLabel_fresh_labels issue :
  Labels issue = [] →
  Labels (autoLabel issue) = matching (Title issue) defaultLabelPatterns
  ∧ (length (Labels (autoLabel issue)) ≤ 1)%nat.
Proof.
  intros Hnil. pose proof (matching_at_most_one (Title issue)) as Hone.
  destruct (autoLabel_Labels issue) as (added & Heq & Hnd & Hin).
  assert (added ⊆+ matching (Title issue) defaultLabelPatterns) as Hsub.
  { apply NoDup_submseteq; [done|]. intros l Hl. by apply Hin in Hl as [_ ?]. }
  apply submseteq_length in Hsub.
  rewrite Hnil in Heq, Hin. rewrite app_nil_l in Heq.
  assert (added = matching (Title issue) defaultLabelPatterns) as <-.
  { destruct (matching (Title issue) defaultLabelPatterns)
      as [|l [|l' ls]] eqn:Hm.
    - destruct added; [done | simpl in Hsub; lia].
    - destruct added as [|a [|]]; [| |simpl in Hsub; lia].
      + destruct (Hin l) as [_ Hl]. exfalso.
        eapply elem_of_nil, Hl. split; [apply not_elem_of_nil | left].
      + destruct (Hin a) as [[_ Ha] _]; [left|].
        apply list_elem_of_singleton in Ha. by subst.
    - simpl in Hone. lia. }
  rewrite Heq, sortStrings_short by lia. split; [done | lia].
Qed.

Lemma selfMade_storeOf n w issues :
  selfMade n (dbFile w) → storeOf w = Some issues →
  storeInvariant issues
  ∧ StronglySorted Z.lt (ID <$> issues)
  ∧ Forall (wellMade n) issues.
Proof.
  unfold storeOf. destruct (repoFound w); [|done].
  destruct (dbFile w) as [| | |raw]; simpl; intros H ?; simplify_eq.
  { split_and!; [apply storeInvariant_nil | constructor | constructor]. }
  destruct H as (Hinv & Hsorted & Hall).
  rewrite (fmap_fixed Json.coerceIssue raw); [done|].
  intros issue Hin. destruct Hinv as (_ & Hst & _).
  rewrite Forall_forall in Hall, Hst.
  eapply wellMade_coerced; eauto.
Qed.

(** The file after a run that ends in one write of [new]. *)
Lemma selfMade_save n w new o :
  repoFound w = true → selfMade n (dbFile w) →
  selfMade n (Holds (Json.coerceIssue <$> new)) →
  selfMade n (dbFile (after (do _ <- saveIssues new; println o) w)).
Proof.
  intros Hrepo Hw Hnew. unfold after, bind. rewrite saveIssues_run by done.
  by destruct (disk w).
Qed.

Lemma selfMade_addIssue n w title :
  0 ≤ n < GoInt.maxInt → selfMade n (dbFile w) →
  selfMade (n + 1) (dbFile (after (addIssue title) w)).
Proof.
  intros Hn Hw. destruct (decide (title = "")) as [->|Ht].
  { by apply (selfMade_mono n); [lia|]. }
  destruct (load_dichotomy w) as [[issues Hs]|[e He]].
  - destruct (selfMade_storeOf n w issues Hw Hs) as (Hinv & Hsorted & Hall).
    unfold after. rewrite (addIssue_run _ _ _ Ht Hs). cbn zeta.
    apply selfMade_save; [eauto using storeOf_repoFound | |].
    { by apply (selfMade_mono n); [lia|]. }
    rewrite Forall_forall in Hall.
    destruct (maxIDLoop_spec issues 0) as (Hle & Hmax & Hor).
    assert (maxIDLoop issues 0 ≤ n) as Hbound.
    { destruct Hor as [->|(i & -> & Hi)%list_elem_of_fmap]; [lia|].
      apply Hall in Hi as ([??] & _). lia. }
    destruct (newIssueFor_fields issues title (clock w))
      as (Hid & Htitle & _).
    rewrite GoIntFacts.add_no_overflow in Hid
      by (unfold GoInt.inRange, GoInt.minInt, GoInt.maxInt in *; lia).
    rewrite fmap_app, (storeOf_coerced _ _ Hs).
    split_and!.
    + apply storeInvariant_add_coerced, storeInvariant_add; [done|].
      apply Forall_forall.
      intros i Hi. apply Hall in Hi as ([??] & _). lia.
    + rewrite fmap_app. apply StronglySorted_app_2; [|done|].
      * intros id1 id2 (i & -> & Hi)%list_elem_of_fmap
               ->%list_elem_of_singleton.
        apply Hmax in Hi. cbn [fmap list_fmap Json.coerceIssue ID]. lia.
      * repeat constructor.
    + apply Forall_app. split.
      * apply Forall_forall. intros i Hi. apply (wellMade_mono n); [lia|].
        by apply Hall.
      * apply Forall_singleton.
        destruct (autoLabel_fresh_labels
                    (mkIssue (GoInt.add (maxIDLoop issues 0) 1) title
                             statusOpen [] (clock w)) eq_refl) as [Hl Hlen].
        cbn [fmap list_fmap]. rewrite newIssueFor_coerced.
        unfold wellMade. cbn [ID Title Labels]. rewrite Hid.
        split_and!; [lia | lia | | | exact Hlen | apply coerce_idemp].
        -- intros Hempty. by apply (proj1 (coerce_empty _)) in Hempty.
        -- rewrite matching_coerce. exact Hl.
  - destruct (load_fails_run w e He) as (Hadd & _).
    unfold after. rewrite Hadd by done. by apply (selfMade_mono n); [lia|].
Qed.

Lemma selfMade_closeIssue n w idStr :
  selfMade n (dbFile w) → selfMade n (dbFile (after (closeIssue idStr) w)).
Proof.
  intros Hw. destruct (Strconv.Atoi idStr) as [id|] eqn:Hid;
    [|unfold after, closeIssue; by rewrite Hid].
  destruct (load_dichotomy w) as [[issues Hs]|[e He]].
  - destruct (selfMade_storeOf n w issues Hw Hs) as (Hinv & Hsorted & Hall).
    destruct (decide (id ∈ ID <$> issues)) as [Hin|Hnin].
    + destruct (first_with_id id issues Hin)
        as (pre & x & post & -> & Hx & Hpre).
      unfold after.
      rewrite (closeIssue_found w idStr id pre x post Hid Hs Hpre Hx).
      case_bool_decide; [done|].
      apply selfMade_save; [eauto using storeOf_repoFound | done |].
      rewrite (coerced_close _ _ _ (storeOf_coerced _ _ Hs)).
      split_and!; [by apply storeInvariant_close | |].
      * by rewrite fmap_app, fmap_cons in *.
      * apply Forall_app in Hall as [Hall1 [Hx' Hall2]%Forall_cons_1].
        apply Forall_app. split; [done|]. by apply Forall_cons.
    + unfold after.
      rewrite (closeIssue_not_found w idStr id issues Hid Hs); [done|].
      intros i Hi ?. apply Hnin, list_elem_of_fmap. eauto.
  - destruct (load_fails_run w e He) as (_ & _ & Hclose & _).
    unfold after. by rewrite (Hclose idStr id Hid).
Qed.

Lemma selfMade_pushToGithub n w :
  selfMade n (dbFile w) → selfMade n (dbFile (after pushToGithub w)).
Proof.
  intros Hw. destruct (load_dichotomy w) as [[issues Hs]|[e He]].
  - destruct (resolveCredentials w) as [[c|e] w1] eqn:Hcred.
    + destruct (pushToGithub_run w c w1 issues Hcred Hs)
        as (events & Hrun & _).
      unfold after. rewrite Hrun.
      apply (selfMade_save n (foldl (flip emit) w events)).
      * rewrite foldl_emit. eauto using storeOf_repoFound.
      * by rewrite foldl_emit.
      * split_and!; [apply storeInvariant_nil | constructor | constructor].
    + destruct (resolveCredentials_frame w) as (es & Hes & _).
      unfold after, pushToGithub in *.
      rewrite (bind_Fatal _ _ _ _ _ Hcred). rewrite Hcred in Hes.
      simpl in *. subst w1. by rewrite foldl_emit.
  - by destruct (pushToGithub_load_fails w e He) as (_ & _ & _ & ->).
Qed.

Lemma run_snd c w : (run c w).2 = after c w.
Proof. done. Qed.

(** One run. *)
Lemma selfMade_step n w call :
  0 ≤ n < GoInt.maxInt → selfMade n (dbFile w) →
  selfMade (n + 1) (dbFile (step w call)).
Proof.
  intros Hn Hw. unfold step.
  assert (selfMade n (dbFile (enter call w))) as He by done.
  generalize dependent (enter call w). intros w' Hw'.
  destruct (callArgs call) as [|prog [|command args]];
    [by apply (selfMade_mono n); [lia|]..|].
  unfold main.
  case_bool_decide.
  { case_bool_decide; [by apply (selfMade_mono n); [lia|]|].
    by apply selfMade_addIssue. }
  apply (selfMade_mono n); [lia|].
  case_bool_decide.
  { destruct (Args.listFlags args "" false) as [filterLabel showAll].
    rewrite run_snd.
    by destruct (listIssues_reads_only w' filterLabel showAll) as (-> & _). }
  case_bool_decide.
  { destruct args as [|idStr [|]]; try done. by apply selfMade_closeIssue. }
  case_bool_decide.
  { destruct args as [|format [|]]; try done.
    rewrite run_snd.
    by destruct (publishIssues_reads_only w' format) as (-> & _). }
  case_bool_decide; [by apply selfMade_pushToGithub|].
  by case_bool_decide.
Qed.

Lemma selfMade_session calls n w :
  0 ≤ n → n + Z.of_nat (length calls) ≤ GoInt.maxInt →
  selfMade n (dbFile w) →
  selfMade (n + Z.of_nat (length calls)) (dbFile (session calls w)).
Proof.
  revert n w. induction calls as [|call calls IH]; intros n w Hn Hlen Hw.
  - simpl. by rewrite Z.add_0_r.
  - change (session (call :: calls) w) with (session calls (step w call)).
    cbn [length] in *. rewrite Nat2Z.inj_succ in *.
    replace (n + Z.succ (Z.of_nat (length calls)))
      with ((n + 1) + Z.of_nat (length calls)) by lia.
    apply IH; [lia | lia |]. apply selfMade_step; [|done].
    unfold GoInt.maxInt in *. lia.
Qed.

End sessions.

(** X14. In a repository that starts without a database file, whatever
    commands are run one after the other, with whatever arguments and
    whatever the disk, the clock, the [gh] CLI, the environment and GitHub
    do in each run, a database file that parses always holds a store that
    satisfies the invariants of the data model: ids distinct, every status
    "open" or "closed", labels duplicate-free and sorted. Moreover the ids
    grow along the store, every id is positive and not above the number of
    runs so far, no title is empty, and the labels of an issue are the
    labels of the rules its title matches, one at most. (The number of
    runs is taken to be one an [int] can hold.) *)
Theorem fresh_repository_keeps_invariants calls w issues :
  dbFile w = Missing → Z.of_nat (length calls) ≤ GoInt.maxInt →
  dbFile (session calls w) = Holds issues →
  storeInvariant issues
  ∧ StronglySorted Z.lt (ID <$> issues)
  ∧ Forall (λ issue,
              1 ≤ ID issue ≤ Z.of_nat (length calls)
              ∧ Title issue ≠ ""
              ∧ Labels issue = matching (Title issue) defaultLabelPatterns
              ∧ (length (Labels issue) ≤ 1)%nat) issues.
Proof.
  intros Hfresh Hlen Hholds.
  pose proof (selfMade_session calls 0 w ltac:(lia) ltac:(lia)) as Hmade.
  rewrite Hfresh, Hholds, Z.add_0_l in Hmade.
  destruct Hmade as (Hinv & Hsorted & Hall); [done|].
  split_and!; [done..|].
  eapply Forall_impl; [exact Hall|].
  intros issue (? & ? & ? & ? & _). done.
Qed.

Lemma fresh_repository_keeps_invariants_witness :
  dbFile (session [plainCall ["issueify"; "add"; "BUG:"; "crash"];
                   plainCall ["issueify"; "add"; "write"; "docs"];
                   plainCall ["issueify"; "close"; "1"];
                   plainCall ["issueify"; "list"; "--all"]] emptyWorld)
  = Holds [mkIssue 1 "BUG: crash" statusClosed ["bug"] 0;
           mkIssue 2 "write docs" statusOpen [] 0]
  ∧ storeInvariant [mkIssue 1 "BUG: crash" statusClosed ["bug"] 0;
                    mkIssue 2 "write docs" statusOpen [] 0].
Proof.
  split; [reflexivity|].
  apply (fresh_repository_keeps_invariants
           [plainCall ["issueify"; "add"; "BUG:"; "crash"];
            plainCall ["issueify"; "add"; "write"; "docs"];
            plainCall ["issueify"; "close"; "1"];
            plainCall ["issueify"; "list"; "--all"]] emptyWorld);
    [reflexivity | | reflexivity].
  unfold GoInt.maxInt. simpl. lia.
Defined.

(** ** What the [gh] CLI must print *)

Section gh_output.

Import Strings.

Lemma SplitSlash_noSlash s : noSlash s = true → SplitSlash s = [s].
Proof.
  induction s as [|c s IH]; [done|]. simpl.
  intros [Hc Hs]%andb_prop. apply negb_true_iff in Hc.
  rewrite Hc, IH by done. done.
Qed.

Lemma SplitSlash_ne s : SplitSlash s ≠ [].
Proof.
  destruct s as [|c s]; simpl; [done|].
  case_bool_decide; [done|]. by destruct (SplitSlash s).
Qed.

Lemma SplitSlash_cons_inv s x l :
  SplitSlash s = x :: l →
  noSlash x = true ∧ (l = [] → s = x)
  ∧ (∀ y l', l = y :: l' → ∃ rest, s = x +:+ "/" +:+ rest
                                    ∧ SplitSlash rest = y :: l').
Proof.
  revert x l. induction s as [|c s IH]; intros x l; simpl.
  - intros [= <- <-]. split_and!; [done..|]. by intros.
  - case_bool_decide as Hc.
    + subst c. intros [= <- <-]. split_and!; [done| |].
      * by intros ?%SplitSlash_ne.
      * intros y l' Hl. exists s. split; [reflexivity | exact Hl].
    + destruct (SplitSlash s) as [|part parts] eqn:Hs.
      * by apply SplitSlash_ne in Hs.
      * intros [= <- <-]. destruct (IH part parts eq_refl) as (Hn & H1 & H2).
        split_and!.
        -- simpl. by rewrite bool_decide_eq_false_2.
        -- intros ->. by rewrite H1.
        -- intros y l' ->. destruct (H2 y l' eq_refl) as (rest & -> & Hr).
           by exists rest.
Qed.

(** The text splits in two at slashes exactly when it has one slash. *)
Lemma SplitSlash_two s o r :
  SplitSlash s = [o; r]
  ↔ s = o +:+ "/" +:+ r ∧ noSlash o = true ∧ noSlash r = true.
Proof.
  split.
  - intros Hs. destruct (SplitSlash_cons_inv s o [r] Hs) as (Ho & _ & H2).
    destruct (H2 r [] eq_refl) as (rest & -> & Hr).
    destruct (SplitSlash_cons_inv rest r [] Hr) as (Hn & H1 & _).
    rewrite (H1 eq_refl). done.
  - intros (-> & Ho & Hr). induction o as [|c o IH].
    + change ("" +:+ "/" +:+ r) with (String "/" r). simpl.
      by rewrite SplitSlash_noSlash.
    + change (String c o +:+ "/" +:+ r) with (String c (o +:+ "/" +:+ r)).
      simpl in *. apply andb_prop in Ho as [Hc Ho].
      apply negb_true_iff in Hc. rewrite Hc, IH by done. done.
Qed.

(** X15. The [gh] CLI decides the repository only when its output,
    white space at the ends aside, is an owner and a name, both non-empty,
    with one slash between them and no other slash, and the token it
    prints is not blank. Then these are the credentials. In every other
    case (a helper that fails, a path of three parts, an empty side, a
    blank token) the three environment variables decide. *)
Theorem gh_tier_accepted w :
  complete (ghTier w) = true
  ↔ ∃ out tok o r,
      ghRepoView w = Some out ∧ ghAuthToken w = Some tok
      ∧ TrimSpace out = o +:+ "/" +:+ r
      ∧ noSlash o = true ∧ noSlash r = true
      ∧ o ≠ "" ∧ r ≠ "" ∧ TrimSpace tok ≠ ""
      ∧ result resolveCredentials w
        = Done (mkCredentials (TrimSpace tok) o r).
Proof.
  rewrite complete_spec. split.
  - intros (Ho & Hr & Ht).
    assert (complete (ghTier w) = true) as Hc by (by apply complete_spec).
    unfold result. rewrite resolveCredentials_run, Hc. cbn [fst].
    unfold ghTier in *.
    destruct (ghRepoView w) as [out|]; [|by destruct (ghAuthToken w)].
    destruct (SplitSlash (TrimSpace out)) as [|o [|r [|]]] eqn:Hsplit;
      destruct (ghAuthToken w) as [tok|]; simpl in *; try done.
    apply SplitSlash_two in Hsplit as (Hout & Hno & Hnr).
    exists out, tok, o, r. split_and!; done.
  - intros (out & tok & o & r & Hout & Htok & Htrim & Hno & Hnr & Ho & Hr
            & Ht & _).
    unfold ghTier. rewrite Hout, Htok.
    assert (SplitSlash (TrimSpace out) = [o; r]) as ->
      by (by apply SplitSlash_two).
    done.
Qed.

Lemma gh_tier_accepted_witness :
  complete (ghTier sampleWorld) = true
  ∧ complete (ghTier nestedRepoWorld) = false.
Proof.
  split.
  - apply gh_tier_accepted.
    exists "me/proj", "secret", "me", "proj". split_and!; done.
  - reflexivity.
Defined.

End gh_output.

(** ** Ids as they are printed and as they are read *)

Section printed_ids.

Import Fmt Strconv.

Lemma digit_digitChar d : 0 ≤ d ≤ 9 → digit (digitChar d) = Some d.
Proof.
  intros Hd.
  assert (d = 0 ∨ d = 1 ∨ d = 2 ∨ d = 3 ∨ d = 4 ∨ d = 5 ∨ d = 6 ∨ d = 7
          ∨ d = 8 ∨ d = 9) as Hcases by lia.
  repeat (destruct Hcases as [->|Hcases]; [reflexivity|]). by subst.
Qed.

Lemma digit_not_sign c d :
  digit c = Some d → c ≠ "-"%char ∧ c ≠ "+"%char.
Proof. split; intros ->; discriminate. Qed.

Lemma digits_app s1 s2 acc :
  digits (s1 +:+ s2) acc = digits s1 acc ≫= digits s2.
Proof.
  revert acc. induction s1 as [|c s1 IH]; intros acc; [done|].
  change (String c s1 +:+ s2) with (String c (s1 +:+ s2)). simpl.
  destruct (digit c); simpl; [apply IH | done].
Qed.

Lemma digits_digitChar d acc :
  0 ≤ d ≤ 9 → digits (String (digitChar d) "") acc = Some (acc * 10 + d).
Proof.
  intros Hd. change (digits (String (digitChar d) "") acc)
    with (digit (digitChar d) ≫= λ x, Some (acc * 10 + x)).
  by rewrite digit_digitChar.
Qed.

Lemma decimal_S fuel n :
  decimal (S fuel) n
  = if bool_decide (n < 10) then String (digitChar n) ""
    else decimal fuel (n / 10) +:+ String (digitChar (n `mod` 10)) "".
Proof. done. Qed.

(** The digits printed for a number read back as the number. *)
Lemma digits_decimal fuel n :
  0 ≤ n < 10 ^ Z.of_nat (S fuel) →
  digits (decimal (S fuel) n) 0 = Some n
  ∧ ∃ c rest d, decimal (S fuel) n = String c rest ∧ digit c = Some d.
Proof.
  revert n. induction fuel as [|fuel IH]; intros n Hn.
  - change (10 ^ Z.of_nat 1) with 10 in Hn. cbn [decimal].
    rewrite bool_decide_eq_true_2 by lia.
    rewrite digits_digitChar by lia. split; [f_equal; lia|].
    eexists _, _, n. split; [done|]. apply digit_digitChar. lia.
  - rewrite (decimal_S (S fuel)). case_bool_decide as Hsmall.
    + rewrite digits_digitChar by lia. split; [f_equal; lia|].
      eexists _, _, n. split; [done|]. apply digit_digitChar. lia.
    + assert (0 ≤ n / 10 < 10 ^ Z.of_nat (S fuel)) as Hq.
      { rewrite (Nat2Z.inj_succ (S fuel)), Z.pow_succ_r in Hn by lia.
        split; [apply Z.div_pos; lia|].
        apply Z.div_lt_upper_bound; lia. }
      destruct (IH _ Hq) as (Hd & c & rest & d & Hc & Hdc).
      pose proof (Z.mod_pos_bound n 10 ltac:(lia)) as Hmod.
      rewrite digits_app, Hd.
      change (Some (n / 10) ≫= digits (String (digitChar (n `mod` 10)) ""))
        with (digits (String (digitChar (n `mod` 10)) "") (n / 10)).
      rewrite digits_digitChar by lia.
      split; [f_equal; pose proof (Z.div_mod n 10); lia|].
      rewrite Hc. by eexists _, _, d.
Qed.

Lemma Atoi_formatInt n : GoInt.inRange n → Atoi (formatInt n) = Some n.
Proof.
  unfold GoInt.inRange, GoInt.minInt, GoInt.maxInt. intros Hn.
  unfold formatInt. case_bool_decide as Hneg.
  - destruct (digits_decimal 18 (- n)) as (Hd & c & rest & d & Hc & Hdc);
      [change (10 ^ Z.of_nat 19) with 10000000000000000000; lia|].
    change ("-" +:+ decimal 19 (- n)) with (String "-" (decimal 19 (- n))).
    unfold Atoi.
    rewrite (bool_decide_eq_true_2 ("-"%char = "-"%char)) by done.
    rewrite (bool_decide_eq_true_2 (_ ∨ _)) by (by left).
    rewrite Hc in *. rewrite Hd. cbn [mbind option_bind].
    rewrite bool_decide_eq_true_2;
      [by rewrite Z.opp_involutive|].
    unfold GoInt.inRange, GoInt.minInt, GoInt.maxInt. lia.
  - destruct (digits_decimal 18 n) as (Hd & c & rest & d & Hc & Hdc);
      [change (10 ^ Z.of_nat 19) with 10000000000000000000; lia|].
    destruct (digit_not_sign c d Hdc) as [Hm Hp].
    rewrite Hc in *. unfold Atoi.
    rewrite (bool_decide_eq_false_2 (c = "-"%char)) by done.
    rewrite bool_decide_eq_false_2 by tauto.
    rewrite Hd. cbn [mbind option_bind].
    rewrite bool_decide_eq_true_2; [done|].
    unfold GoInt.inRange, GoInt.minInt, GoInt.maxInt. lia.
Qed.

End printed_ids.

Section printed_ids_2.

Import Fmt Strconv.

(** X16. The id that [add] reports can be given to [close] as it is
    printed. When no id of the store is the largest [int] and writes go
    through, [close] with the decimal form of the new id closes the issue
    that [add] has just appended, and nothing else changes: the file then
    holds the store as it was, followed by the new issue with the status
    closed and with its title as [json] has written it, which is the
    title that was given when that is valid UTF-8. In general the decimal
    form of every [int] is read back by [strconv.Atoi] as that number. *)
Theorem close_accepts_printed_id w title issues :
  title ≠ "" → storeOf w = Some issues → disk w = Written →
  Forall (λ issue, ID issue < GoInt.maxInt) issues →
  (∀ n, GoInt.inRange n → Atoi (formatInt n) = Some n)
  ∧ result (closeIssue (formatInt (ID (newIssueFor issues title (clock w)))))
           (after (addIssue title) w) = Done ()
  ∧ dbFile (after (closeIssue
                     (formatInt (ID (newIssueFor issues title (clock w)))))
                  (after (addIssue title) w))
    = Holds (issues
             ++ [mkIssue (ID (newIssueFor issues title (clock w)))
                         (Json.coerce title) statusClosed
                         (Labels (newIssueFor issues title (clock w)))
                         (clock w)])
  ∧ (Utf8.ValidString title = true → Json.coerce title = title).
Proof.
  intros Ht Hs Hdisk Hbound.
  split; [apply Atoi_formatInt|].
  pose proof (newIssueFor_coerced issues title (clock w)) as Hfile.
  cbn zeta in Hfile.
  set (new := newIssueFor issues title (clock w)) in *.
  pose proof (storeOf_repoFound _ _ Hs) as Hrepo.
  destruct (addIssue_written w title issues Ht Hs Hdisk) as (Hs' & _ & Hd').
  fold new in Hs'. rewrite Hfile in Hs'.
  rewrite Forall_forall in Hbound.
  destruct (maxIDLoop_spec issues 0) as (Hle & Hmax & Hor).
  assert (maxIDLoop issues 0 < GoInt.maxInt) as Hlt.
  { destruct Hor as [->|(i & -> & Hi)%list_elem_of_fmap];
      [done | by apply Hbound]. }
  assert (ID new = maxIDLoop issues 0 + 1) as Hid.
  { subst new. destruct (newIssueFor_fields issues title (clock w))
      as (-> & _).
    apply GoIntFacts.add_no_overflow.
    unfold GoInt.inRange, GoInt.minInt, GoInt.maxInt in *. lia. }
  assert (Atoi (formatInt (ID new)) = Some (ID new)) as Hatoi.
  { apply Atoi_formatInt.
    unfold GoInt.inRange, GoInt.minInt, GoInt.maxInt in *. lia. }
  clearbody new.
  destruct (closeIssue_effect (after (addIssue title) w)
              (formatInt (ID new)) (ID new) issues _ [] Hatoi Hs')
    as [_ Hopen]; [|done|].
  { intros i Hi%Hmax. lia. }
  destruct Hopen as (_ & Hwritten & _); [done|].
  destruct (Hwritten Hd') as [Hr Hdb].
  split_and!; [exact Hr | exact Hdb | apply coerce_valid].
Qed.

Lemma close_accepts_printed_id_witness :
  dbFile (after (closeIssue "5") (after (addIssue "FEAT: x") sampleWorld))
  = Holds (sampleStore ++ [mkIssue 5 "FEAT: x" statusClosed ["feature"] 0]).
Proof.
  destruct (close_accepts_printed_id sampleWorld "FEAT: x" sampleStore)
    as (_ & _ & Hdb & _); [done | reflexivity | reflexivity | | exact Hdb].
  repeat constructor.
Defined.

Lemma digits_stops pre c post acc :
  digit c = None → digits (pre +:+ String c post) acc = None.
Proof.
  intros Hc. rewrite digits_app.
  destruct (digits pre acc) as [a|]; [|done].
  change (Some a ≫= digits (String c post))
    with (digit c ≫= λ d, digits post (a * 10 + d)).
  by rewrite Hc.
Qed.

Lemma Atoi_non_digit pre c post :
  digit c = None → pre ≠ "" ∨ (c ≠ "-"%char ∧ c ≠ "+"%char) →
  Atoi (pre +:+ String c post) = None.
Proof.
  intros Hc Hpos. destruct pre as [|c0 pre].
  - destruct Hpos as [?|[Hm Hp]]; [done|].
    change ("" +:+ String c post) with (String c post). unfold Atoi.
    rewrite (bool_decide_eq_false_2 (c = "-"%char)) by done.
    rewrite bool_decide_eq_false_2 by tauto.
    pose proof (digits_stops "" c post 0 Hc) as H.
    change ("" +:+ String c post) with (String c post) in H.
    by rewrite H.
  - change (String c0 pre +:+ String c post)
      with (String c0 (pre +:+ String c post)).
    unfold Atoi. case_bool_decide as Hsign.
    + rewrite digits_stops by done.
      by destruct (pre +:+ String c post).
    + change (String c0 (pre +:+ String c post))
        with (String c0 pre +:+ String c post).
      rewrite digits_stops by done. done.
Qed.

(** X17. [close] takes nothing but a decimal number that fits an [int]:
    it ends in "Invalid ID format", before the store is loaded and with
    the world untouched, when its argument is empty or only a sign, when
    it has a character that is not a digit (a sign is allowed in the first
    place only), and when it is a number of 19 digits at most above the
    largest [int], which is therefore not reported as missing. *)
Theorem closeIssue_rejects_malformed_id w idStr :
  (idStr = "" ∨ idStr = "-" ∨ idStr = "+"
   ∨ (∃ pre c post,
        idStr = pre +:+ String c post ∧ digit c = None
        ∧ (pre ≠ "" ∨ (c ≠ "-"%char ∧ c ≠ "+"%char)))
   ∨ (∃ n, GoInt.maxInt < n < 10 ^ 19 ∧ idStr = decimal 19 n)) →
  closeIssue idStr w = (Fatal InvalidIssueID, w).
Proof.
  intros Hbad. assert (Atoi idStr = None) as Hnone.
  { destruct Hbad as [->|[->|[->|[(pre & c & post & -> & Hc & Hpos)|
                                  (n & Hn & ->)]]]]; try done.
    - by apply Atoi_non_digit.
    - destruct (digits_decimal 18 n) as (Hd & c & rest & d & Hc & Hdc);
        [change (10 ^ Z.of_nat 19) with (10 ^ 19); unfold GoInt.maxInt in *;
         lia|].
      destruct (digit_not_sign c d Hdc) as [Hm Hp].
      rewrite Hc in *. unfold Atoi.
      rewrite (bool_decide_eq_false_2 (c = "-"%char)) by done.
      rewrite bool_decide_eq_false_2 by tauto.
      rewrite Hd. cbn [mbind option_bind].
      rewrite bool_decide_eq_false_2; [done|].
      unfold GoInt.inRange, GoInt.minInt, GoInt.maxInt in *. lia. }
  unfold closeIssue. by rewrite Hnone.
Qed.

Lemma closeIssue_rejects_malformed_id_witness :
  closeIssue "12a" corruptWorld = (Fatal InvalidIssueID, corruptWorld)
  ∧ closeIssue "9223372036854775808" sampleWorld
    = (Fatal InvalidIssueID, sampleWorld).
Proof.
  split.
  - apply closeIssue_rejects_malformed_id. right. right. right. left.
    exists "12", "a"%char, "". split_and!; [done | done | by left].
  - apply (closeIssue_rejects_malformed_id sampleWorld).
    right. right. right. right. exists 9223372036854775808.
    split; [|reflexivity]. unfold GoInt.maxInt. lia.
Defined.

End printed_ids_2.
